(** * abstract_map: the spring-mass spatial layout engine

    A shallow embedding of [src/abstract_map/spatial_layout.py].

    Numbers.  The program computes with numpy [float64] values.  They are
    embedded as real numbers extended with the three special values of
    IEEE-754 ([+inf], [-inf], [nan]): rounding is not modelled, but every
    place where the program divides by zero or takes the root of a negative
    number yields the special value numpy yields, and every comparison with
    [nan] is false, as in Python.  Signed zeros are not represented.

    Objects.  Masses and constraints are Python objects that are shared by
    reference between the caller, the layout and the constraints.  They live
    in two stores indexed by object identity; the layout holds references.

    Arrays.  The position, the velocity and the acceleration of a mass are
    held by value.  The program rebinds the first two to slices of a state
    vector, one slice a mass, before it writes to them in place, so no two
    masses share them; the arrays a caller hands to the constructors are
    taken to be distinct objects.

    Random numbers.  [randomiseState] draws from the generator of Python;
    the numbers it draws are a parameter of its embedding. *)

From Stdlib Require Import Reals Lra Lia ZArith.
From stdpp Require Import base option list strings.

Set Default Proof Using "Type".

(** ** Extended reals *)

Inductive num : Type :=
| Fin (r : R)
| PInf
| NInf
| NaN.

Definition Rltb (a b : R) : bool := if Rlt_dec a b then true else false.
Definition Reqb (a b : R) : bool := if Req_dec_T a b then true else false.

Definition sign_inf (positive : bool) : num := if positive then PInf else NInf.

Definition is_finite (a : num) : bool :=
  match a with Fin _ => true | _ => false end.

Definition nopp (a : num) : num :=
  match a with
  | Fin r => Fin (- r)
  | PInf => NInf
  | NInf => PInf
  | NaN => NaN
  end.

Definition nadd (a b : num) : num :=
  match a, b with
  | Fin x, Fin y => Fin (x + y)
  | NaN, _ | _, NaN => NaN
  | PInf, NInf | NInf, PInf => NaN
  | PInf, _ | _, PInf => PInf
  | NInf, _ | _, NInf => NInf
  end.

(** IEEE subtraction is addition of the opposite. *)
Definition nsub (a b : num) : num := nadd a (nopp b).

(** [inf * y] for a finite [y]: [nan] when [y] is zero. *)
Definition inf_times (positive : bool) (y : R) : num :=
  if Reqb y 0 then NaN else sign_inf (Bool.eqb positive (Rltb 0 y)).

Definition nmul (a b : num) : num :=
  match a, b with
  | Fin x, Fin y => Fin (x * y)
  | NaN, _ | _, NaN => NaN
  | PInf, Fin y | Fin y, PInf => inf_times true y
  | NInf, Fin y | Fin y, NInf => inf_times false y
  | PInf, PInf | NInf, NInf => PInf
  | PInf, NInf | NInf, PInf => NInf
  end.

(** numpy division: [0/0] is [nan], [x/0] is an infinity, nothing raises. *)
Definition ndiv (a b : num) : num :=
  match a, b with
  | NaN, _ | _, NaN => NaN
  | Fin x, Fin y =>
      if Reqb y 0
      then (if Reqb x 0 then NaN else sign_inf (Rltb 0 x))
      else Fin (x / y)
  | Fin _, PInf | Fin _, NInf => Fin 0
  | PInf, PInf | PInf, NInf | NInf, PInf | NInf, NInf => NaN
  | PInf, Fin y => sign_inf (negb (Rltb y 0))
  | NInf, Fin y => sign_inf (Rltb y 0)
  end.

(** [a < b]; false as soon as one side is [nan]. *)
Definition nlt (a b : num) : bool :=
  match a, b with
  | Fin x, Fin y => Rltb x y
  | NaN, _ | _, NaN => false
  | _, NInf => false
  | PInf, _ => false
  | NInf, _ => true
  | _, PInf => true
  end.

(** [a == b]; [nan] is equal to nothing. *)
Definition neqb (a b : num) : bool :=
  match a, b with
  | Fin x, Fin y => Reqb x y
  | PInf, PInf | NInf, NInf => true
  | _, _ => false
  end.

(** [a ** 2] *)
Definition nsquare (a : num) : num :=
  match a with
  | Fin x => Fin (x * x)
  | PInf | NInf => PInf
  | NaN => NaN
  end.

(** [a ** 0.5]: [nan] below zero. *)
Definition nsqrt (a : num) : num :=
  match a with
  | Fin x => if Rltb x 0 then NaN else Fin (sqrt x)
  | PInf | NInf => PInf
  | NaN => NaN
  end.

(** [np.absolute] *)
Definition nabs (a : num) : num :=
  match a with
  | Fin x => Fin (Rabs x)
  | PInf | NInf => PInf
  | NaN => NaN
  end.

Definition ncos (a : num) : num :=
  match a with Fin x => Fin (cos x) | _ => NaN end.

Definition nsin (a : num) : num :=
  match a with Fin x => Fin (sin x) | _ => NaN end.

(** [atan2] on the reals, with the quadrant conventions of C. *)
Definition Ratan2 (y x : R) : R :=
  if Rltb 0 x then atan (y / x)
  else if Rltb x 0 then
         (if Rltb y 0 then atan (y / x) - PI else atan (y / x) + PI)
       else if Rltb 0 y then PI / 2
            else if Rltb y 0 then - (PI / 2)
                 else 0.

(** [np.arctan2 (y, x)] *)
Definition narctan2 (y x : num) : num :=
  match y, x with
  | NaN, _ | _, NaN => NaN
  | Fin b, Fin a => Fin (Ratan2 b a)
  | Fin _, PInf => Fin 0
  | Fin b, NInf => if Rltb b 0 then Fin (- PI) else Fin PI
  | PInf, Fin _ => Fin (PI / 2)
  | NInf, Fin _ => Fin (- (PI / 2))
  | PInf, PInf => Fin (PI / 4)
  | PInf, NInf => Fin (3 * PI / 4)
  | NInf, PInf => Fin (- (PI / 4))
  | NInf, NInf => Fin (- (3 * PI / 4))
  end.

(** Python's [%] on floats is the floored modulus: the result has the sign
    of the divisor. *)
Definition Rfloor_mod (a b : R) : R := a - b * IZR (Int_part (a / b)).

Definition nmod (a b : num) : num :=
  match a, b with
  | NaN, _ | _, NaN => NaN
  | PInf, _ | NInf, _ => NaN
  | Fin x, Fin y => if Reqb y 0 then NaN else Fin (Rfloor_mod x y)
  | Fin x, PInf => if Rltb x 0 then PInf else Fin x
  | Fin x, NInf => if Rltb 0 x then NInf else Fin x
  end.

Definition npi : num := Fin PI.

Declare Scope num_scope.
Delimit Scope num_scope with num.
Bind Scope num_scope with num.
Infix "+" := nadd : num_scope.
Infix "-" := nsub : num_scope.
Infix "*" := nmul : num_scope.
Infix "/" := ndiv : num_scope.
Notation "- x" := (nopp x) : num_scope.
Infix "<?" := nlt : num_scope.
Infix "=?" := neqb : num_scope.

(** ** Constants for the default behaviour of spatial layout *)

Definition FRICTION_COEFFICIENT : num := Fin 1.
Definition INTEGRATION_DT : num := Fin 0.1.
Definition SAFE_DISTANCE : num := Fin 0.2.

Definition STIFF_XL : num := Fin 5.
Definition STIFF_L : num := Fin 1.
Definition STIFF_M : num := Fin 0.5.
Definition STIFF_S : num := Fin 0.01.

Definition DIST_UNIT : num := Fin 1.
Definition DIR_ZERO : num := Fin 0.

(** ** Arrays *)

(** A numpy array of two floats: a position, a velocity, an acceleration. *)
Definition vec2 : Type := num * num.

Definition vzero : vec2 := (Fin 0, Fin 0).
Definition vadd (u v : vec2) : vec2 := (u.1 + v.1, u.2 + v.2)%num.
Definition vsub (u v : vec2) : vec2 := (u.1 - v.1, u.2 - v.2)%num.
Definition vopp (u : vec2) : vec2 := (- u.1, - u.2)%num.
Definition vscale (k : num) (u : vec2) : vec2 := (k * u.1, k * u.2)%num.
Definition vdivs (u : vec2) (k : num) : vec2 := (u.1 / k, u.2 / k)%num.
Definition vdot (u v : vec2) : num := (u.1 * v.1 + u.2 * v.2)%num.

(** [np.array_equal] *)
Definition array_equal (u v : vec2) : bool := (u.1 =? v.1)%num && (u.2 =? v.2)%num.

(** [(v[0]**2 + v[1]**2)**0.5] *)
Definition hypot2 (v : vec2) : num := nsqrt (nsquare v.1 + nsquare v.2)%num.

(** ** Exceptions *)

(** The Python exceptions the program can raise, and two outcomes of the
    model: [BadRef] for a reference to an object that is in no store (Python
    has no such reference), [OutOfFuel] for a loop that was cut. *)
Inductive exn : Type :=
| ValueError
| KeyError
| AssertionError
| IndexError
| NameError
| BadRef
| OutOfFuel.

Inductive res (A : Type) : Type :=
| Ok (a : A)
| Raise (e : exn).
Arguments Ok {A} a.
Arguments Raise {A} e.

#[global] Instance res_ret : MRet res := fun A a => Ok a.
#[global] Instance res_bind : MBind res := fun A B f m =>
  match m with
  | Ok a => f a
  | Raise e => Raise e
  end.

Definition of_option {A} (o : option A) (e : exn) : res A :=
  match o with Some a => Ok a | None => Raise e end.

(** ** Geometry primitives *)

(** Returns the angle, in the range of [-PI,+PI) *)
Definition _angleWrap (angle : num) : num :=
  let ret := nmod (angle + npi) (Fin 2 * npi) in
  let ret := if (ret <? Fin 0)%num then (ret + Fin 2 * npi)%num else ret in
  (ret - npi)%num.

(** Computes the distance between two positions *)
Definition distance_pos (a b : vec2) : num := hypot2 (vsub a b).

(** The coefficients of the line and of the quadratic in
    [_firstCircleIntersect]. *)
Section FirstCircleIntersect.
Variables (line_a line_b circle_center : vec2) (circle_r : num).

Definition fci_disp : vec2 := vsub line_b line_a.
Definition fci_use_vertical : bool := (nabs fci_disp.1 <? nabs fci_disp.2)%num.
Definition fci_m : num :=
  if fci_use_vertical then (fci_disp.1 / fci_disp.2)%num
  else (fci_disp.2 / fci_disp.1)%num.
Definition fci_c : num :=
  if fci_use_vertical then (- fci_m * line_a.2 + line_a.1)%num
  else (- fci_m * line_a.1 + line_a.2)%num.
Definition fci_quad_a : num := (- Fin 1 - nsquare fci_m)%num.
Definition fci_quad_b : num :=
  (- Fin 2 * fci_m * fci_c
   + Fin 2 * fci_m * (if fci_use_vertical then circle_center.1 else circle_center.2)
   + Fin 2 * (if fci_use_vertical then circle_center.2 else circle_center.1))%num.
Definition fci_quad_c : num :=
  (- nsquare fci_c + nsquare circle_r - nsquare circle_center.1
   - nsquare circle_center.2
   + Fin 2 * fci_c * (if fci_use_vertical then circle_center.1 else circle_center.2))%num.
Definition fci_discriminant : num :=
  (nsquare fci_quad_b - Fin 4 * fci_quad_a * fci_quad_c)%num.
Definition fci_root_1 : num :=
  ((- fci_quad_b + nsqrt fci_discriminant) / (Fin 2 * fci_quad_a))%num.
Definition fci_root_2 : num :=
  ((- fci_quad_b - nsqrt fci_discriminant) / (Fin 2 * fci_quad_a))%num.
Definition fci_point (root : num) : vec2 :=
  ((if fci_use_vertical then fci_m * root + fci_c else root)%num,
   (if fci_use_vertical then root else fci_m * root + fci_c)%num).
Definition fci_intersect_1 : vec2 := fci_point fci_root_1.
Definition fci_intersect_2 : vec2 := fci_point fci_root_2.

(** Finds the first point that line from a to b intersecting a circle *)
Definition _firstCircleIntersect : res vec2 :=
  if (fci_discriminant <? Fin 0)%num then Raise ValueError
  else
    let d1 := vsub fci_intersect_1 line_a in
    let d2 := vsub fci_intersect_2 line_a in
    Ok (if (hypot2 d1 <? hypot2 d2)%num then fci_intersect_1 else fci_intersect_2).
End FirstCircleIntersect.

(** Gets the direction of reflection from a given point *)
Definition _reflectedDirection (start_point reflect_point reflect_origin : vec2) : num :=
  let ro := vsub reflect_origin reflect_point in
  let sr := vsub reflect_point start_point in
  _angleWrap
    (narctan2 (- ro.2) (- ro.1)
     - (narctan2 sr.2 sr.1 - narctan2 ro.2 ro.1))%num.

(** Gets the point when a step is reflected around a given point *)
Definition _reflectedPosition (start_point step reflect_point : vec2)
    (reflect_direction : num) : vec2 :=
  let reflect_step := vsub reflect_point start_point in
  let r := (hypot2 step - hypot2 reflect_step)%num in
  vadd reflect_point (vscale r (ncos reflect_direction, nsin reflect_direction)).

(** Rotates a vector to a requested orientation *)
Definition _rotateVectorTo (vector : vec2) (angle : num) : vec2 :=
  let r := hypot2 vector in
  (r * ncos angle, r * nsin angle)%num.

Definition _orthog (vector : vec2) : vec2 := (- vector.2, vector.1)%num.

(** ** Masses *)

(** The identity of a mass object: its index in the store of masses. *)
Definition mref : Type := nat.

(** A point mass.  [fixed] tells the class of the object: the constructor of
    [MassFixed] sets it and the constructor of [Mass] clears it, and the
    program never assigns it afterwards. *)
Record Mass : Type := mkMass {
  name : string;
  _mass : num;
  fixed : bool;
  pos : vec2;
  vel : vec2;
  acc : vec2
}.

(** [MassFixed(name, pos)] *)
Definition new_MassFixed (nm : string) (p : vec2) : Mass :=
  mkMass nm (Fin 1) true p vzero vzero.

(** [Mass(name, pos=None, vel=None, acc=None)] *)
Definition new_Mass (nm : string) (p v a : option vec2) : Mass :=
  mkMass nm (Fin 1) false (default vzero p) (default vzero v) (default vzero a).

Definition set_pos (m : Mass) (p : vec2) : Mass :=
  mkMass (name m) (_mass m) (fixed m) p (vel m) (acc m).
Definition set_vel (m : Mass) (v : vec2) : Mass :=
  mkMass (name m) (_mass m) (fixed m) (pos m) v (acc m).
Definition set_acc (m : Mass) (a : vec2) : Mass :=
  mkMass (name m) (_mass m) (fixed m) (pos m) (vel m) a.

(** Applies the friction force to the mass: nothing for a [MassFixed]. *)
Definition applyFriction (m : Mass) : Mass :=
  if fixed m then m
  else set_acc m (vadd (acc m) (vscale (- FRICTION_COEFFICIENT) (vel m))).

(** Returns the kinetic energy in the moving mass *)
Definition Mass_totalEnergy (m : Mass) : num :=
  if fixed m then Fin 0
  else (Fin 0.5 * _mass m * (nsquare (vel m).1 + nsquare (vel m).2))%num.

(** Computes the distance between two masses *)
Definition _distance (mass_a mass_b : Mass) : num :=
  distance_pos (pos mass_a) (pos mass_b).

(** Compute the angle formed by mass a, relative to b (and optionally c) *)
Definition _angle (mass_a mass_b : Mass) (mass_c : option Mass) : num :=
  let v_ab := vsub (pos mass_a) (pos mass_b) in
  let ret := narctan2 v_ab.2 v_ab.1 in
  let ret :=
    match mass_c with
    | Some mc =>
        let v_cb := vsub (pos mc) (pos mass_b) in
        (ret - narctan2 v_cb.2 v_cb.1)%num
    | None => ret
    end in
  _angleWrap ret.

(** Returns the unit vector pointing to mass a, from mass b *)
Definition _uv (mass_a mass_b : Mass) : vec2 :=
  let ab := vsub (pos mass_a) (pos mass_b) in
  if array_equal (pos mass_a) (pos mass_b) then (Fin 1, Fin 0)
  else vdivs ab (hypot2 ab).

(** The store of mass objects, and access through a reference. *)
Abbreviation mstore := (list Mass).

Definition get_mass (h : mstore) (r : mref) : res Mass := of_option (h !! r) BadRef.

Definition upd_mass (h : mstore) (r : mref) (f : Mass → Mass) : mstore :=
  match h !! r with
  | Some m => <[r := f m]> h
  | None => h
  end.

(** ** Constraints *)

Definition cref : Type := nat.

(** The three concrete classes of [Constraint], with their attributes. *)
Inductive Constraint : Type :=
| ConstraintDistance (mass_a mass_b : mref) (natural_length stiffness : num) (tag_id : Z)
| ConstraintAngleGlobal (mass_a mass_b : mref) (natural_length stiffness : num) (tag_id : Z)
| ConstraintAngleLocal (mass_a mass_b mass_c : mref) (natural_length stiffness : num)
    (tag_id : Z).

Definition _tag_id (c : Constraint) : Z :=
  match c with
  | ConstraintDistance _ _ _ _ t
  | ConstraintAngleGlobal _ _ _ _ t
  | ConstraintAngleLocal _ _ _ _ _ t => t
  end.

Definition _natural_length (c : Constraint) : num :=
  match c with
  | ConstraintDistance _ _ l _ _
  | ConstraintAngleGlobal _ _ l _ _
  | ConstraintAngleLocal _ _ _ l _ _ => l
  end.

Definition _stiffness (c : Constraint) : num :=
  match c with
  | ConstraintDistance _ _ _ k _
  | ConstraintAngleGlobal _ _ _ k _
  | ConstraintAngleLocal _ _ _ _ k _ => k
  end.

(** Returns the list of masses in the constraint *)
Definition masses (c : Constraint) : list mref :=
  match c with
  | ConstraintDistance a b _ _ _ => [a; b]
  | ConstraintAngleGlobal a b _ _ _ => [a; b]
  | ConstraintAngleLocal a b c _ _ _ => [a; b; c]
  end.

(** The assignments [c._mass_a = m], [c._mass_b = m], [c._mass_c = m] of
    [addConstraint], by the position of the participant. *)
Definition rebind (c : Constraint) (i : nat) (m : mref) : Constraint :=
  match c, i with
  | ConstraintDistance _ b l k t, 0 => ConstraintDistance m b l k t
  | ConstraintDistance a _ l k t, 1 => ConstraintDistance a m l k t
  | ConstraintAngleGlobal _ b l k t, 0 => ConstraintAngleGlobal m b l k t
  | ConstraintAngleGlobal a _ l k t, 1 => ConstraintAngleGlobal a m l k t
  | ConstraintAngleLocal _ b c l k t, 0 => ConstraintAngleLocal m b c l k t
  | ConstraintAngleLocal a _ c l k t, 1 => ConstraintAngleLocal a m c l k t
  | ConstraintAngleLocal a b _ l k t, 2 => ConstraintAngleLocal a b m l k t
  | _, _ => c
  end.

Section ConstraintMethods.
Variable h : mstore.

(** Returns length of the constraint (same units as natural length) *)
Definition length_ (c : Constraint) : res num :=
  match c with
  | ConstraintDistance a b _ _ _ =>
      ma ← get_mass h a; mb ← get_mass h b; mret (_distance ma mb)
  | ConstraintAngleGlobal a b _ _ _ =>
      ma ← get_mass h a; mb ← get_mass h b; mret (_angle ma mb None)
  | ConstraintAngleLocal a b c _ _ _ =>
      ma ← get_mass h a; mb ← get_mass h b; mc ← get_mass h c;
      mret (_angle ma mb (Some mc))
  end.

(** Distance the spring is displaced from its natural length *)
Definition displacement (c : Constraint) : res num :=
  len ← length_ c;
  match c with
  | ConstraintDistance _ _ l _ _ => mret (len - l)%num
  | ConstraintAngleGlobal _ _ l _ _ => mret (_angleWrap (len - l)%num)
  | ConstraintAngleLocal _ _ _ l _ _ => mret (_angleWrap (len - l)%num)
  end.

(** Returns the potential energy held by the constraint *)
Definition Constraint_totalEnergy (c : Constraint) : res num :=
  d ← displacement c;
  mret (Fin 0.5 * _stiffness c * nsquare d)%num.
End ConstraintMethods.

(** [m.acc += a] unless the mass is fixed *)
Definition accelerate (h : mstore) (r : mref) (a : vec2) : res mstore :=
  m ← get_mass h r;
  mret (if fixed m then h else <[r := set_acc m (vadd (acc m) a)]> h).

(** Applies the current constraint force to each attached point-mass *)
Definition applyForce (h : mstore) (c : Constraint) : res mstore :=
  match c with
  | ConstraintDistance a b _ k _ =>
      d ← displacement h c;
      ma ← get_mass h a; mb ← get_mass h b;
      let force_vector := vscale (- k * d)%num (_uv ma mb) in
      h ← accelerate h a (vdivs force_vector (_mass ma));
      accelerate h b (vdivs (vopp force_vector) (_mass mb))
  | ConstraintAngleGlobal a b _ k _ =>
      d ← displacement h c;
      ma ← get_mass h a; mb ← get_mass h b;
      let force_vector :=
        vscale (- k * d / _distance ma mb)%num (_orthog (_uv ma mb)) in
      h ← accelerate h a (vdivs force_vector (_mass ma));
      accelerate h b (vdivs (vopp force_vector) (_mass mb))
  | ConstraintAngleLocal a b c_ _ k _ =>
      d ← displacement h c;
      ma ← get_mass h a; mb ← get_mass h b; mc ← get_mass h c_;
      let force_vector_a :=
        vscale (- k * d / _distance ma mb)%num (_orthog (_uv ma mb)) in
      let force_vector_c :=
        vscale (- k * d / _distance mc mb)%num (vopp (_orthog (_uv mc mb))) in
      let acc_a := vdivs force_vector_a (_mass ma) in
      let acc_c := vdivs force_vector_c (_mass mc) in
      h ← accelerate h a acc_a;
      h ← accelerate h b (vadd (vopp acc_a) (vopp acc_c));
      accelerate h c_ acc_c
  end.

(** A placement suggestion: a Python dict with the optional keys ['mass'],
    ['r'] and ['th']; the empty dict has none of them. *)
Record Suggestion : Type := mkSuggestion {
  s_mass : option mref;
  s_r : option (num * num);
  s_th : option (num * num)
}.

Definition empty_suggestion : Suggestion := mkSuggestion None None None.

(** The truth value of the dict: false when it is empty. *)
Definition nonempty_suggestion (p : Suggestion) : bool :=
  bool_decide (is_Some (s_mass p)) || bool_decide (is_Some (s_r p))
  || bool_decide (is_Some (s_th p)).

(** The bisection of [ConstraintAngleLocal.placementSuggestion] for the
    middle mass: [n] rounds, returning the last midpoint. *)
Fixpoint bisect (ma mc : Mass) (r l0 : num) (n : nat) (a b mid : num) : num :=
  match n with
  | O => mid
  | S n' =>
      let mid := ((a + b) / Fin 2)%num in
      let dummy :=
        set_pos (new_Mass "dummy" None None None)
          (vadd (pos ma) (vscale r (ncos mid, nsin mid))) in
      let error := (_angle ma dummy (Some mc) - l0)%num in
      if (Fin 0 <? error)%num then bisect ma mc r l0 n' a mid mid
      else bisect ma mc r l0 n' mid b mid
  end.

Definition SEARCH_DEPTH : nat := 20.

(** Returns a placement tuple suggesting where to place the mass *)
Definition placementSuggestion (h : mstore) (c : Constraint) (mass : mref)
    : res Suggestion :=
  match c with
  | ConstraintDistance a b l k _ =>
      if decide (mass = a) then mret (mkSuggestion (Some b) (Some (l, k)) None)
      else if decide (mass = b) then mret (mkSuggestion (Some a) (Some (l, k)) None)
      else mret empty_suggestion
  | ConstraintAngleGlobal a b l k _ =>
      if decide (mass = a) then mret (mkSuggestion (Some b) None (Some (l, k)))
      else if decide (mass = b)
      then mret (mkSuggestion (Some a) None (Some (_angleWrap (l + npi)%num, k)))
      else mret empty_suggestion
  | ConstraintAngleLocal a b c_ l k _ =>
      if decide (mass = a) then
        mc ← get_mass h c_; mb ← get_mass h b;
        mret (mkSuggestion (Some b) None
                (Some (_angleWrap (_angle mc mb None + l)%num, k)))
      else if decide (mass = b) then
        ma ← get_mass h a; mc ← get_mass h c_;
        let r := ((Fin 1 - nabs l / (Fin 2 * npi)) * _distance ma mc)%num in
        let mid := bisect ma mc r l SEARCH_DEPTH (- npi)%num npi NaN in
        mret (mkSuggestion (Some a) (Some (r, k / Fin 2)%num)
                (Some (mid, k / Fin 2)%num))
      else if decide (mass = c_) then
        ma ← get_mass h a; mb ← get_mass h b;
        mret (mkSuggestion (Some b) None
                (Some (_angleWrap (_angle ma mb None - l)%num, k)))
      else mret empty_suggestion
  end.

(** ** The layout and the world around it *)

(** Log of the energy within a layout system *)
Record EnergyLog : Type := mkEnergyLog {
  log_t : list num;
  kinetic : list num;
  potential : list num
}.

(** The integrator: its state vector and its clock.  Its derivative function
    is the bound method [_stateDerivative] of the layout that owns it. *)
Record RungeKutta45 : Type := mkRungeKutta45 {
  ode_y : list num;
  ode_t : num
}.

(** The callable in [_post_state_change_fcn] belongs to the caller: it is
    known by a handle, and calling it is an event in the trace of the world. *)
Definition hook : Type := nat.

(** A set of springs and masses denoting abstract ideas about space.  Of the
    timing log [_log] only the series ['a'], the clock of the integrator, is
    kept: the other series are wall-clock durations. *)
Record SpatialLayout : Type := mkSpatialLayout {
  _constraints : list cref;
  _masses : list mref;
  _system_changed : bool;
  _bounced_last_step : bool;
  _energy_log : option EnergyLog;
  _post_state_change_fcn : option hook;
  _log_a : list num;
  _ode : RungeKutta45
}.

Record World : Type := mkWorld {
  mass_store : mstore;
  constraint_store : list Constraint;
  layout : SpatialLayout;
  hook_calls : list hook
}.

(** [SpatialLayout(log_energy)] *)
Definition new_SpatialLayout (log_energy : bool) : SpatialLayout :=
  mkSpatialLayout [] [] false false
    (if log_energy then Some (mkEnergyLog [] [] []) else None)
    None [] (mkRungeKutta45 [] (Fin 0)).

Definition set_mass_store (w : World) (h : mstore) : World :=
  mkWorld h (constraint_store w) (layout w) (hook_calls w).
Definition set_constraint_store (w : World) (h : list Constraint) : World :=
  mkWorld (mass_store w) h (layout w) (hook_calls w).
Definition set_layout (w : World) (l : SpatialLayout) : World :=
  mkWorld (mass_store w) (constraint_store w) l (hook_calls w).
Definition set_hook_calls (w : World) (tr : list hook) : World :=
  mkWorld (mass_store w) (constraint_store w) (layout w) tr.

Definition set_constraints (l : SpatialLayout) (cs : list cref) : SpatialLayout :=
  mkSpatialLayout cs (_masses l) (_system_changed l) (_bounced_last_step l)
    (_energy_log l) (_post_state_change_fcn l) (_log_a l) (_ode l).
Definition set_masses (l : SpatialLayout) (ms : list mref) : SpatialLayout :=
  mkSpatialLayout (_constraints l) ms (_system_changed l) (_bounced_last_step l)
    (_energy_log l) (_post_state_change_fcn l) (_log_a l) (_ode l).
Definition set_system_changed (l : SpatialLayout) (b : bool) : SpatialLayout :=
  mkSpatialLayout (_constraints l) (_masses l) b (_bounced_last_step l)
    (_energy_log l) (_post_state_change_fcn l) (_log_a l) (_ode l).
Definition set_bounced_last_step (l : SpatialLayout) (b : bool) : SpatialLayout :=
  mkSpatialLayout (_constraints l) (_masses l) (_system_changed l) b
    (_energy_log l) (_post_state_change_fcn l) (_log_a l) (_ode l).
Definition set_energy_log (l : SpatialLayout) (e : option EnergyLog) : SpatialLayout :=
  mkSpatialLayout (_constraints l) (_masses l) (_system_changed l)
    (_bounced_last_step l) e (_post_state_change_fcn l) (_log_a l) (_ode l).
Definition set_log_a (l : SpatialLayout) (a : list num) : SpatialLayout :=
  mkSpatialLayout (_constraints l) (_masses l) (_system_changed l)
    (_bounced_last_step l) (_energy_log l) (_post_state_change_fcn l) a (_ode l).
Definition set_ode (l : SpatialLayout) (o : RungeKutta45) : SpatialLayout :=
  mkSpatialLayout (_constraints l) (_masses l) (_system_changed l)
    (_bounced_last_step l) (_energy_log l) (_post_state_change_fcn l) (_log_a l) o.

Definition get_constraint (w : World) (c : cref) : res Constraint :=
  of_option (constraint_store w !! c) BadRef.

Definition the_mass (w : World) (r : mref) : res Mass := get_mass (mass_store w) r.

(** A loop that threads a state and stops at the first exception. *)
Fixpoint foldM {A B : Type} (f : A → B → res A) (a : A) (l : list B) : res A :=
  match l with
  | [] => Ok a
  | x :: l' => a' ← f a x; foldM f a' l'
  end.

(** The builtin [sum] and [np.sum]. *)
Definition nsum (l : list num) : num := foldl nadd (Fin 0) l.

(** *** Arithmetic on state vectors *)

(** Element-wise operations of numpy on one-dimensional arrays.  Two arrays of
    different lengths do not broadcast: numpy raises [ValueError].  (An array
    of one element would broadcast; state vectors hold four numbers a mass.) *)
Fixpoint zip_arrays (f : num → num → num) (u v : list num) : res (list num) :=
  match u, v with
  | [], [] => Ok []
  | x :: u', y :: v' => r ← zip_arrays f u' v'; mret (f x y :: r)
  | _, _ => Raise ValueError
  end.

Definition arr_add : list num → list num → res (list num) := zip_arrays nadd.
Definition arr_sub : list num → list num → res (list num) := zip_arrays nsub.
Definition arr_scale (k : num) (u : list num) : list num := (λ x, k * x)%num <$> u.
Definition arr_scale_r (u : list num) (k : num) : list num := (λ x, x * k)%num <$> u.

(** The slice [y[i:i+2]] as an array of two numbers.  numpy cuts a slice that
    runs past the end of the array and fails only where the short array is
    used; the model fails at the slice, with [IndexError]. *)
Definition slice2 (y : list num) (i : nat) : res vec2 :=
  match y !! i, y !! (S i) with
  | Some a, Some b => Ok (a, b)
  | _, _ => Raise IndexError
  end.

(** [np.concatenate] of a list of arrays: [ValueError] on the empty list. *)
Definition concatenate (parts : list (list num)) : res (list num) :=
  match parts with
  | [] => Raise ValueError
  | _ => Ok (concat parts)
  end.

(** *** Pulling and pushing the state *)

(** Pulls the current state matrix of the system *)
Definition _pullState (w : World) : res (list num) :=
  parts ← mapM (λ r, m ← the_mass w r;
                     mret [(pos m).1; (pos m).2; (vel m).1; (vel m).2])
               (_masses (layout w));
  concatenate parts.

(** One turn of the loop of [_pushState]. *)
Definition push_one (y : list num) (h : mstore) (im : nat * mref) : res mstore :=
  let '(i, r) := im in
  m ← get_mass h r;
  p ← slice2 y (i * 4);
  v ← slice2 y (i * 4 + 2);
  mret (<[r := set_vel (set_pos m p) v]> h).

(** Pushes state matrix into system (obeying any safety conditions) *)
Definition _pushState (w : World) (y : list num) : res World :=
  h ← foldM (push_one y) (mass_store w) (imap pair (_masses (layout w)));
  mret (set_mass_store w h).

(** Refreshes the force value for each mass in the system *)
Definition _refreshForces (w : World) : res World :=
  h ← foldM (λ h r, m ← get_mass h r;
                    mret (<[r := applyFriction (set_acc m vzero)]> h))
            (mass_store w) (_masses (layout w));
  h ← foldM (λ h c, c' ← get_constraint w c; applyForce h c')
            h (_constraints (layout w));
  mret (set_mass_store w h).

(** Computes the derivative of the current state *)
Definition _stateDerivative (w : World) (t : num) (y : list num)
    : res (World * list num) :=
  w ← _pushState w y;
  w ← _refreshForces w;
  parts ← mapM (λ r, m ← the_mass w r;
                     mret [(vel m).1; (vel m).2; (acc m).1; (acc m).2])
               (_masses (layout w));
  d ← concatenate parts;
  mret (w, d).

(** *** The integrator *)

(** [RungeKutta45.integrate(t_new)], for an integrator whose derivative is
    the function [f], which reads and writes the world. *)
Definition integrate (f : World → num → list num → res (World * list num))
    (w : World) (t_new : num) : res (World * list num) :=
  let self_t w := ode_t (_ode (layout w)) in
  let self_y w := ode_y (_ode (layout w)) in
  '(w, k1) ← f w (self_t w) (self_y w);
  y2 ← arr_add (self_y w) (arr_scale (INTEGRATION_DT * Fin 0.5)%num k1);
  '(w, k2) ← f w (self_t w) y2;
  y3 ← arr_add (self_y w) (arr_scale (INTEGRATION_DT * Fin 0.5)%num k2);
  '(w, k3) ← f w (self_t w) y3;
  y4 ← arr_add (self_y w) (arr_scale INTEGRATION_DT k3);
  '(w, k4) ← f w (self_t w) y4;
  s ← arr_add k1 (arr_scale (Fin 2) k2);
  s ← arr_add s (arr_scale (Fin 2) k3);
  s ← arr_add s k4;
  y' ← arr_add (self_y w)
         (arr_scale_r (arr_scale (Fin (1 / 6)) s) INTEGRATION_DT);
  mret (set_layout w (set_ode (layout w) (mkRungeKutta45 y' t_new)), y').

(** *** Energy log and change notification *)

(** Logs the current energy in the spatial layout object *)
Definition EnergyLog_logEnergy (e : EnergyLog) (w : World) : res EnergyLog :=
  ks ← mapM (λ r, m ← the_mass w r; mret (Mass_totalEnergy m)) (_masses (layout w));
  ps ← mapM (λ c, c' ← get_constraint w c; Constraint_totalEnergy (mass_store w) c')
            (_constraints (layout w));
  mret (mkEnergyLog (log_t e ++ [ode_t (_ode (layout w))])
          (kinetic e ++ [nsum ks]) (potential e ++ [nsum ps])).

(** Writes the current system energy to the energy log if available *)
Definition logEnergy (w : World) : res World :=
  match _energy_log (layout w) with
  | Some e =>
      e' ← EnergyLog_logEnergy e w;
      mret (set_layout w (set_energy_log (layout w) (Some e')))
  | None => mret w
  end.

(** Resets the energy log *)
Definition resetEnergyLog (w : World) : World :=
  match _energy_log (layout w) with
  | Some _ => set_layout w (set_energy_log (layout w) (Some (mkEnergyLog [] [] [])))
  | None => w
  end.

(** Explicit declaration of a change of system state *)
Definition markStateChanged (w : World) (system_changed reset : bool) : res World :=
  let w := set_layout w (set_system_changed (layout w) system_changed) in
  let w := if reset then resetEnergyLog w else w in
  w ← logEnergy w;
  match _post_state_change_fcn (layout w) with
  | Some fcn => mret (set_hook_calls w (hook_calls w ++ [fcn]))
  | None => mret w
  end.

(** *** Safe application of a state *)

(** [next((m for m in self._masses if m != mass and
           _distance(m_desired, m) < SAFE_DISTANCE), None)] *)
Fixpoint find_unsafe (h : mstore) (mass : mref) (desired : vec2) (ms : list mref)
    : res (option mref) :=
  match ms with
  | [] => Ok None
  | r :: ms' =>
      if decide (r = mass) then find_unsafe h mass desired ms'
      else
        m ← get_mass h r;
        if (distance_pos desired (pos m) <? SAFE_DISTANCE)%num then Ok (Some r)
        else find_unsafe h mass desired ms'
  end.

(** Steps mass position, while staying a safe distance from others.  The
    [while] loop of the program is cut after [fuel] turns. *)
Fixpoint _stepSafely (fuel : nat) (w : World) (mass : mref) (step : vec2)
    : res World :=
  match fuel with
  | O => Raise OutOfFuel
  | S fuel' =>
      m ← the_mass w mass;
      let desired := vadd (pos m) step in
      m_unsafe ← find_unsafe (mass_store w) mass desired (_masses (layout w));
      match m_unsafe with
      | None =>
          mret (set_mass_store w (<[mass := set_pos m (vadd (pos m) step)]> (mass_store w)))
      | Some u =>
          mu ← the_mass w u;
          intersect ← _firstCircleIntersect (pos m) desired (pos mu) SAFE_DISTANCE;
          let bounce_direction_m := _reflectedDirection (pos m) intersect (pos mu) in
          let bounce_direction_mu := _reflectedDirection (pos mu) intersect (pos m) in
          let bounced_position :=
            _reflectedPosition (pos m) step intersect bounce_direction_m in
          let h := <[mass := set_vel m (_rotateVectorTo (vel m) bounce_direction_m)]>
                     (mass_store w) in
          let h := <[u := set_vel mu (_rotateVectorTo (vel mu) bounce_direction_mu)]> h in
          let h := upd_mass h mass (λ m, set_pos m intersect) in
          let w := set_mass_store w h in
          let w := set_layout w (set_bounced_last_step (layout w) true) in
          _stepSafely fuel' w mass (vsub bounced_position intersect)
      end
  end.

(** Obeys safety criteria (using old state) while pushing new state *)
Definition _pushStateSafely (fuel : nat) (w : World) (y_a y_b : list num) : res World :=
  w ← _pushState w y_a;
  y_delta ← arr_sub y_b y_a;
  let w := set_layout w (set_bounced_last_step (layout w) false) in
  h ← foldM (λ h im, let '(i, r) := (im : nat * mref) in
                     m ← get_mass h r;
                     v ← slice2 y_b (i * 4 + 2);
                     mret (<[r := set_vel m v]> h))
            (mass_store w) (imap pair (_masses (layout w)));
  let w := set_mass_store w h in
  foldM (λ w im, let '(i, r) := (im : nat * mref) in
                 d ← slice2 y_delta (i * 4);
                 _stepSafely fuel w r d)
        w (imap pair (_masses (layout w))).

(** *** The step driver *)

(** The re-seeding of the integrator at the head of [step]. *)
Definition reseed (w : World) : res World :=
  y ← _pullState w;
  let l := set_ode (layout w) (mkRungeKutta45 y (ode_t (_ode (layout w)))) in
  mret (set_layout w (set_system_changed l false)).

(** [step] once the system changes have been handled. *)
Definition step_integrate (fuel : nat) (w : World) : res World :=
  let state := ode_y (_ode (layout w)) in
  '(w, state_next) ← integrate _stateDerivative w
                       (ode_t (_ode (layout w)) + INTEGRATION_DT)%num;
  let w := set_layout w (set_log_a (layout w)
                           (_log_a (layout w) ++ [ode_t (_ode (layout w))])) in
  w ← _pushStateSafely fuel w state state_next;
  markStateChanged w (_bounced_last_step (layout w)) false.

(** Performs a single iteration of the spatial layout optimisation *)
Definition step (fuel : nat) (w : World) : res World :=
  w ← (if _system_changed (layout w) then reseed w else mret w);
  step_integrate fuel w.

(** *** Adding masses and constraints *)

(** Returns a mass with the requested name if it exists *)
Fixpoint find_by_name (h : mstore) (nm : string) (ms : list mref) : res (option mref) :=
  match ms with
  | [] => Ok None
  | r :: ms' =>
      m ← get_mass h r;
      if String.eqb (name m) nm then Ok (Some r) else find_by_name h nm ms'
  end.

Definition getMass (w : World) (nm : string) : res (option mref) :=
  find_by_name (mass_store w) nm (_masses (layout w)).

(** Adds a mass to the layout (only if it is new) *)
Definition addMass (w : World) (m : mref) : res World :=
  if decide (m ∈ _masses (layout w)) then mret w
  else
    let w := set_layout w (set_masses (layout w) (_masses (layout w) ++ [m])) in
    markStateChanged w true false.

(** The first loop of [addConstraint]: every participant whose name is that
    of a mass of the layout is replaced, in its slot, by that mass. *)
Definition rebind_one (w : World) (c : Constraint) (im : nat * mref) : res Constraint :=
  let '(i, r) := im in
  m ← the_mass w r;
  m_found ← getMass w (name m);
  match m_found with
  | Some r' => mret (rebind c i r')
  | None => mret c
  end.

(** Adds a constraint (and any new masses to the layout) *)
Definition addConstraint (w : World) (c : cref) : res World :=
  c0 ← get_constraint w c;
  c1 ← foldM (rebind_one w) c0 (imap pair (masses c0));
  let w := set_constraint_store w (<[c := c1]> (constraint_store w)) in
  w ← foldM addMass w (masses c1);
  let w := set_layout w (set_constraints (layout w) (_constraints (layout w) ++ [c])) in
  markStateChanged w true false.

Definition addConstraints (w : World) (cs : list cref) : res World :=
  foldM addConstraint w cs.

(** Update existing constraints from a tag id (instead of adding) *)
Definition updateConstraints (w : World) (cs : list cref) : res World :=
  cs' ← mapM (get_constraint w) cs;
  c0 ← of_option (head cs') IndexError;
  if negb (0 <=? _tag_id c0)%Z then Raise AssertionError
  else if negb (forallb (λ c, _tag_id c =? _tag_id c0)%Z cs') then Raise AssertionError
  else
    let tag_id := _tag_id c0 in
    kept ← mapM (λ c, c' ← get_constraint w c; mret (c, c')) (_constraints (layout w));
    let kept := (filter (λ cc, _tag_id cc.2 ≠ tag_id) kept).*1 in
    let w := set_layout w (set_constraints (layout w) (kept ++ cs)) in
    markStateChanged w true false.

(** *** Random placement *)

(** [randomiseState(window_size)].  The numbers that [random.random()]
    returns during the call are the values of [rnd]: the mass of index [i]
    takes the draws [2 i] and [2 i + 1]. *)
Definition randomise_one (rnd : nat → R) (window_size : num) (h : mstore) (im : nat * mref)
    : res mstore :=
  let '(i, r) := im in
  m ← get_mass h r;
  let x := ((Fin (rnd (2 * i)%nat) - Fin 0.5) * window_size)%num in
  let y := ((Fin (rnd (2 * i + 1)%nat) - Fin 0.5) * window_size)%num in
  mret (<[r := set_acc (set_vel (set_pos m (x, y)) vzero) vzero]> h).

(** Randomises the initial state within a given window size *)
Definition randomiseState (rnd : nat → R) (w : World) (window_size : num) : res World :=
  h ← foldM (randomise_one rnd window_size) (mass_store w) (imap pair (_masses (layout w)));
  markStateChanged (set_mass_store w h) true true.

(** *** Initial placement: the ordering phase *)

(** [len(set(c.masses()).intersection(self._masses))] *)
Definition remaining (c : Constraint) (ms : list mref) : nat :=
  length (list_intersection (remove_dups (masses c)) ms).

(** [min] of a list of scores: [ValueError] on the empty list. *)
Definition min_score (scores : list nat) : res nat :=
  match scores with
  | [] => Raise ValueError
  | s :: scores' => Ok (foldl Nat.min s scores')
  end.

(** [l.remove(x)]: drops the first occurrence, [ValueError] without one. *)
Fixpoint list_remove (x : nat) (l : list nat) : res (list nat) :=
  match l with
  | [] => Raise ValueError
  | y :: l' => if decide (y = x) then Ok l' else r ← list_remove x l'; mret (y :: r)
  end.

(** The score the program gives to the masses in one turn of the ordering
    loop.  In the source the expression under [sum] does not mention the
    mass [m] of the outer comprehension. *)
Definition scores_of (cs : list Constraint) (ms : list mref) : list nat :=
  (λ m : mref,
     foldl Nat.add 0 ((λ c, if decide (remaining c ms = 1) then 1 else 0) <$> cs))
  <$> ms.

(** One turn of the [while] loop that orders masses and constraints. *)
Definition order_turn (w : World) (cs : list cref) (ms : list mref)
    : res (World * list cref * list mref) :=
  pending ← mapM (get_constraint w) (_constraints (layout w));
  let scores := scores_of pending (_masses (layout w)) in
  lowest ← min_score scores;
  idx ← of_option (fst <$> list_find (λ s, s = lowest) scores) ValueError;
  m_best ← of_option (_masses (layout w) !! idx) IndexError;
  let ms := ms ++ [m_best] in
  left ← list_remove m_best (_masses (layout w));
  let w := set_layout w (set_masses (layout w) left) in
  both ← mapM (λ c, c' ← get_constraint w c; mret (c, c')) (_constraints (layout w));
  let c_placed := (filter (λ cc, remaining cc.2 left = 0) both).*1 in
  w_cs ← foldM (λ (acc : World * list cref) c,
                  let '(w, cs) := acc in
                  rest ← list_remove c (_constraints (layout w));
                  mret (set_layout w (set_constraints (layout w) rest), cs ++ [c]))
               (w, cs) c_placed;
  mret (w_cs.1, w_cs.2, ms).

(** [while self._constraints or self._masses: ...] *)
Fixpoint order_loop (fuel : nat) (w : World) (cs : list cref) (ms : list mref)
    : res (World * list cref * list mref) :=
  match _constraints (layout w), _masses (layout w) with
  | [], [] => Ok (w, cs, ms)
  | _, _ =>
      match fuel with
      | O => Raise OutOfFuel
      | S fuel' =>
          '(w, cs, ms) ← order_turn w cs ms;
          order_loop fuel' w cs ms
      end
  end.

(** *** Initial placement: the placement phase *)

(** [set(c.masses()).issubset(l)] *)
Definition all_in (c : Constraint) (l : list mref) : bool :=
  forallb (λ r, bool_decide (r ∈ l)) (masses c).

(** [scipy.linalg.norm]: refuses arrays that hold an infinity or a nan. *)
Definition la_norm (v : vec2) : res num :=
  if is_finite v.1 && is_finite v.2 then Ok (hypot2 v) else Raise ValueError.

Definition vscale_r (u : vec2) (k : num) : vec2 := (u.1 * k, u.2 * k)%num.

(** [sorted(l, key=...)]: a stable sort, [lt] comparing the keys. *)
Fixpoint insert_by {A : Type} (lt : A → A → bool) (x : A) (l : list A) : list A :=
  match l with
  | [] => [x]
  | y :: l' => if lt x y then x :: y :: l' else y :: insert_by lt x l'
  end.

Definition sorted_by {A : Type} (lt : A → A → bool) (l : list A) : list A :=
  foldl (λ acc x, insert_by lt x acc) [] l.

(** [itertools.groupby] on a list of pairs of a key and a value: the runs of
    neighbours with the same key. *)
Definition group_step {A : Type} (x : string * A) (acc : list (string * list A))
    : list (string * list A) :=
  match acc with
  | (k, g) :: rest =>
      if String.eqb x.1 k then (k, x.2 :: g) :: rest else (x.1, [x.2]) :: acc
  | [] => [(x.1, [x.2])]
  end.

Definition groupby {A : Type} (l : list (string * A)) : list (string * list A) :=
  foldr group_step [] l.

(** Merges the suggestions that are relative to one mass. *)
Definition merge_group (g : list Suggestion) : res Suggestion :=
  g0 ← of_option (head g) IndexError;
  let rs := omap s_r g in
  let ths := omap s_th g in
  let merged_r :=
    match rs with
    | [] => None
    | _ => Some (nsum ((λ p, p.1 * p.2)%num <$> rs) / nsum (rs.*2), nsum (rs.*2))%num
    end in
  let merged_th :=
    match ths with
    | [] => None
    | _ =>
        let mean_vector : vec2 :=
          (nsum ((λ p, ncos p.1 * p.2)%num <$> ths),
           nsum ((λ p, nsin p.1 * p.2)%num <$> ths)) in
        Some (narctan2 mean_vector.2 mean_vector.1, nsum (ths.*2))
    end in
  mret (mkSuggestion (s_mass g0) merged_r merged_th).

(** The sort key [('r' in x and 'th' in x, 'th' in x)], a pair of booleans
    in lexicographic order, as a number. *)
Definition merged_key (p : Suggestion) : nat :=
  let has_r := bool_decide (is_Some (s_r p)) in
  let has_th := bool_decide (is_Some (s_th p)) in
  2 * (if has_r && has_th then 1 else 0) + (if has_th then 1 else 0).

(** The running placement, its weight, and the values the variables
    [suggested] and [w] hold from the turn before (unbound at first). *)
Record Placement : Type := mkPlacement {
  placement : vec2;
  weight : num;
  suggested_w : option (vec2 * num)
}.

(** One turn of the loop over the merged suggestions. *)
Definition place_step (h : mstore) (st : Placement) (p : Suggestion) : res Placement :=
  ref ← of_option (s_mass p) KeyError;
  mr ← get_mass h ref;
  sw ← match s_r p, s_th p with
       | Some r, Some th =>
           mret (vadd (pos mr) (r.1 * ncos th.1, r.1 * nsin th.1)%num, (r.2 + th.2)%num)
       | None, Some th =>
           let uv : vec2 := (ncos th.1, nsin th.1) in
           let r := vdot (vsub (placement st) (pos mr)) uv in
           let k := if (r <? Fin 1)%num || (weight st =? Fin 0)%num then Fin 1 else r in
           mret (vadd (pos mr) (vscale k uv), th.2)
       | Some r, None =>
           uv ← (if (weight st =? Fin 0)%num then mret (Fin 1, Fin 0)
                 else n ← la_norm (vsub (placement st) (pos mr));
                      mret (vdivs (vsub (placement st) (pos mr)) n));
           mret (vadd (pos mr) (vscale r.1 uv), r.2)
       | None, None => of_option (suggested_w st) NameError
       end;
  let '(suggested, w) := (sw : vec2 * num) in
  mret (mkPlacement
          (vdivs (vadd (vscale_r (placement st) (weight st)) (vscale_r suggested w))
                 (weight st + w)%num)
          (weight st + w)%num (Some sw)).

(** The body of [for m in ms]: places one mass and hands its constraints
    back to the layout. *)
Definition place_mass (acc : World * list cref) (m : mref) : res (World * list cref) :=
  let '(w, cs) := acc in
  both ← mapM (λ c, c' ← get_constraint w c; mret (c, c')) cs;
  let cs_complete := filter (λ cc, all_in cc.2 (_masses (layout w) ++ [m])) both in
  ps ← mapM (λ cc : cref * Constraint, placementSuggestion (mass_store w) cc.2 m)
            cs_complete;
  named ← mapM (λ p, r ← of_option (s_mass p) KeyError;
                     mr ← the_mass w r;
                     mret (name mr, p)) ps;
  let named := filter (λ np, nonempty_suggestion np.2) named in
  ps_merged ← mapM (λ kg : string * list Suggestion, merge_group kg.2)
                   (groupby (sorted_by (λ a b, String.ltb a.1 b.1) named));
  let ps_merged := sorted_by (λ a b, merged_key a <? merged_key b) ps_merged in
  st ← foldM (place_step (mass_store w)) (mkPlacement vzero (Fin 0) None) ps_merged;
  m0 ← the_mass w m;
  let w := set_mass_store w (<[m := set_pos m0 (placement st)]> (mass_store w)) in
  let w := set_layout w (set_masses (layout w) (_masses (layout w) ++ [m])) in
  let cs := filter (λ c, c ∉ cs_complete.*1) cs in
  let w := set_layout w (set_constraints (layout w)
                           (_constraints (layout w) ++ cs_complete.*1)) in
  mret (w, cs).

(** Initialises the state to best match provided constraints *)
Definition initialiseState (w : World) : res World :=
  '(w, cs, ms) ← order_loop (S (length (_masses (layout w)))) w [] [];
  w_cs ← foldM place_mass (w, cs) ms;
  mret w_cs.1.

(** * Specification-side definitions *)

(** ** The classical Runge-Kutta step, in the words of the specification *)

(** [y + c k], element by element. *)
Definition rk_stage (y : list num) (c : num) (k : list num) : list num :=
  zip_with (λ yi ki, yi + c * ki)%num y k.

(** [k1 + 2 k2 + 2 k3 + k4], element by element. *)
Definition rk4_slope (k1 k2 k3 k4 : list num) : list num :=
  zip_with nadd
    (zip_with nadd (zip_with (λ a b, a + Fin 2 * b)%num k1 k2)
       ((λ b, Fin 2 * b)%num <$> k3))
    k4.

(** [y + (dt / 6) (k1 + 2 k2 + 2 k3 + k4)] with [dt = 0.1]. *)
Definition rk4_update (y k1 k2 k3 k4 : list num) : list num :=
  zip_with (λ yi s, yi + Fin (0.1 / 6) * s)%num y (rk4_slope k1 k2 k3 k4).

(** ** Lines and circles of the real plane *)

Definition on_line (a b q : R * R) : Prop :=
  ((q.1 - a.1) * (b.2 - a.2) = (q.2 - a.2) * (b.1 - a.1))%R.

Definition on_circle (c : R * R) (r : R) (q : R * R) : Prop :=
  ((q.1 - c.1) * (q.1 - c.1) + (q.2 - c.2) * (q.2 - c.2) = r * r)%R.

Definition Rdist (a q : R * R) : R :=
  sqrt ((q.1 - a.1) * (q.1 - a.1) + (q.2 - a.2) * (q.2 - a.2)).

(** A point of the real plane as an array of two finite numbers. *)
Definition fin2 (p : R * R) : vec2 := (Fin p.1, Fin p.2).

(** The quadratic of a line [v = m u + c0] against the circle of centre
    [(u0, v0)] and radius [r], as [_firstCircleIntersect] writes it. *)
Definition Rquad_a (m : R) : R := (- 1 - m * m)%R.
Definition Rquad_b (m c0 u0 v0 : R) : R := (- 2 * m * c0 + 2 * m * v0 + 2 * u0)%R.
Definition Rquad_c (m c0 u0 v0 r : R) : R :=
  (- (c0 * c0) + r * r - u0 * u0 - v0 * v0 + 2 * c0 * v0)%R.
Definition Rquad_d (m c0 u0 v0 r : R) : R :=
  (Rquad_b m c0 u0 v0 * Rquad_b m c0 u0 v0 - 4 * Rquad_a m * Rquad_c m c0 u0 v0 r)%R.

(** The line through [a] and [b]; [vert] tells that the second coordinate is
    the free one. *)
Definition Rind (vert : bool) (p : R * R) : R := if vert then p.2 else p.1.
Definition Rdep (vert : bool) (p : R * R) : R := if vert then p.1 else p.2.
Definition Rline_m (vert : bool) (a b : R * R) : R :=
  ((Rdep vert b - Rdep vert a) / (Rind vert b - Rind vert a))%R.
Definition Rline_c (vert : bool) (a b : R * R) : R :=
  (- Rline_m vert a b * Rind vert a + Rdep vert a)%R.
Definition Rline_pt (vert : bool) (a b : R * R) (x : R) : R * R :=
  if vert then ((Rline_m vert a b * x + Rline_c vert a b)%R, x)
  else (x, (Rline_m vert a b * x + Rline_c vert a b)%R).
Definition Rdisc (vert : bool) (a b c : R * R) (r : R) : R :=
  Rquad_d (Rline_m vert a b) (Rline_c vert a b) (Rind vert c) (Rdep vert c) r.
Definition Rroot (plus : bool) (vert : bool) (a b c : R * R) (r : R) : R :=
  let qb := Rquad_b (Rline_m vert a b) (Rline_c vert a b) (Rind vert c) (Rdep vert c) in
  let s := sqrt (Rdisc vert a b c r) in
  ((if plus then - qb + s else - qb - s) / (2 * Rquad_a (Rline_m vert a b)))%R.

(** The discriminant of a line against a circle.  The point [a + s (b - a)]
    is on the circle of centre [c] and radius [r] when
    [|b - a|^2 s^2 + 2 ((b - a) . (a - c)) s + |a - c|^2 - r^2 = 0]; this is
    a quarter of the discriminant of that quadratic in [s]. *)
Definition line_circle_disc (a b c : R * R) (r : R) : R :=
  let dx := (b.1 - a.1)%R in
  let dy := (b.2 - a.2)%R in
  let ex := (a.1 - c.1)%R in
  let ey := (a.2 - c.2)%R in
  ((dx * ex + dy * ey) * (dx * ex + dy * ey)
   - (dx * dx + dy * dy) * (ex * ex + ey * ey - r * r))%R.

(** ** Invariants of the layout *)

(** No reference of the layout or of a stored constraint dangles: what
    Python guarantees of every reference. *)
Definition valid_refs (w : World) : Prop :=
  (∀ r, r ∈ _masses (layout w) → is_Some (mass_store w !! r))
  ∧ (∀ c, c ∈ _constraints (layout w) → is_Some (constraint_store w !! c))
  ∧ (∀ c k r, constraint_store w !! c = Some k → r ∈ masses k →
       is_Some (mass_store w !! r)).

(** The tag id of the constraint behind a reference. *)
Definition constraint_tag (w : World) (c : cref) : option Z :=
  _tag_id <$> constraint_store w !! c.

(** Every mass referenced by a constraint of the layout is owned by it. *)
Definition owned (w : World) : Prop :=
  ∀ c k r, c ∈ _constraints (layout w) → constraint_store w !! c = Some k →
           r ∈ masses k → r ∈ _masses (layout w).

(** The names of the masses of the layout, in insertion order. *)
Definition mass_names (w : World) : list string :=
  omap (λ r, name <$> mass_store w !! r) (_masses (layout w)).

(** No two masses of the layout share a name. *)
Definition unique_names (w : World) : Prop := NoDup (mass_names w).

(** [a <= b]; false as soon as one side is [nan]. *)
Definition nle (a b : num) : bool :=
  match a, b with
  | Fin x, Fin y => negb (Rltb y x)
  | NaN, _ | _, NaN => false
  | NInf, _ => true
  | _, PInf => true
  | _, _ => false
  end.

(** Every pair of distinct masses of the layout is at least the safe
    distance apart, up to the tolerance [eps]. *)
Definition safe_apart (eps : num) (w : World) : Prop :=
  ∀ i j mi mj, i ∈ _masses (layout w) → j ∈ _masses (layout w) → i ≠ j →
               mass_store w !! i = Some mi → mass_store w !! j = Some mj →
               nle (SAFE_DISTANCE - eps)%num (_distance mi mj) = true.

(** The two masses behind [i] and [j] do not compare nearer than the safe
    distance. *)
Definition not_near (w : World) (i j : mref) : Prop :=
  ∀ mi mj, mass_store w !! i = Some mi → mass_store w !! j = Some mj →
           nlt (_distance mi mj) SAFE_DISTANCE = false.

(** The masses that keep their place between two worlds. *)
Definition same_place (w w' : World) (r : mref) : Prop :=
  pos <$> mass_store w' !! r = pos <$> mass_store w !! r.

(** What [initialiseState] has to leave alone: the flag, the energy log,
    the hook and the record of its calls, the integrator. *)
Definition same_notification (w w' : World) : Prop :=
  _system_changed (layout w') = _system_changed (layout w)
  ∧ _energy_log (layout w') = _energy_log (layout w)
  ∧ _post_state_change_fcn (layout w') = _post_state_change_fcn (layout w)
  ∧ hook_calls w' = hook_calls w
  ∧ _ode (layout w') = _ode (layout w).

(** ** The cuts of the model *)

(** A computation that does not end on the cut of a loop of the model. *)
Definition not_cut {A} (m : res A) : Prop := m ≠ Raise OutOfFuel.

(** ** The greedy completion score of the ordering phase *)

(** Placing [m] completes [c]: [m] takes part in [c] and no other
    participant of [c] is still unplaced. *)
Definition completes (c : Constraint) (unplaced : list mref) (m : mref) : bool :=
  bool_decide (m ∈ masses c)
  && bool_decide (remaining c (filter (λ r, r ≠ m) unplaced) = 0).

(** The number of pending constraints that placing [m] completes. *)
Definition completion_score (pending : list Constraint) (unplaced : list mref)
    (m : mref) : nat :=
  length (filter (λ c, completes c unplaced m = true) pending).

(** The first element with the largest score: ties break on list order. *)
Fixpoint first_max (score : mref → nat) (l : list mref) : option mref :=
  match l with
  | [] => None
  | m :: l' =>
      match first_max score l' with
      | Some m' => if score m <? score m' then Some m' else Some m
      | None => Some m
      end
  end.

(** The mass the ordering phase is said to choose. *)
Definition greedy_choice (pending : list Constraint) (unplaced : list mref)
    : option mref :=
  first_max (completion_score pending unplaced) unplaced.

(** ** What the operations of the layout leave alone *)

(** The loop of [_pushState] from the mass of index [k] on. *)
Definition push_from (y : list num) (k : nat) (h : mstore) (l : list mref) : res mstore :=
  foldM (push_one y) h (imap (λ i r, (k + i, r)) l).

(** What [_pullState] reads of a list of masses. *)
Definition pull_parts (h : mstore) (l : list mref) : res (list (list num)) :=
  mapM (λ r, m ← get_mass h r; mret [(pos m).1; (pos m).2; (vel m).1; (vel m).2]) l.

(** Two stores that hold the same masses up to their accelerations. *)
Definition same_but_acc (h h' : mstore) : Prop :=
  length h' = length h
  ∧ ∀ r m, h !! r = Some m → ∃ a, h' !! r = Some (set_acc m a).

(** A store keeps its fixed masses as they are. *)
Definition keeps_fixed (h h' : mstore) : Prop :=
  ∀ r m, h !! r = Some m → fixed m = true → h' !! r = Some m.

(** The mass that [addConstraint] binds a participant to: the mass of the
    layout that [getMass] finds under its name, or the participant itself. *)
Definition rebound (w : World) (r : mref) : mref :=
  match the_mass w r with
  | Ok m => match getMass w (name m) with
            | Ok (Some r') => r'
            | _ => r
            end
  | Raise _ => r
  end.

(** Two stores that hold the same mass objects: the same names, classes and
    masses behind the same references. *)
Definition same_objects (h h' : mstore) : Prop :=
  length h' = length h
  ∧ ∀ r m, h !! r = Some m →
      ∃ m', h' !! r = Some m' ∧ name m' = name m ∧ fixed m' = fixed m ∧ _mass m' = _mass m.

(** What the ordering phase and the placement phase may change of a world:
    the two lists of the layout and the positions of the masses. *)
Definition same_but_placement (w w' : World) : Prop :=
  constraint_store w' = constraint_store w
  ∧ length (mass_store w') = length (mass_store w)
  ∧ ∀ r m, mass_store w !! r = Some m → ∃ p, mass_store w' !! r = Some (set_pos m p).

(** A mass at rest inside the square window of side [s] around the
    origin. *)
Definition at_rest_in_window (s : R) (m : Mass) : Prop :=
  ∃ x y, pos m = (Fin x, Fin y)
         ∧ (- (s / 2) <= x <= s / 2)%R ∧ (- (s / 2) <= y <= s / 2)%R
         ∧ vel m = vzero ∧ acc m = vzero.

(** * Example worlds *)

(** The array of two [nan], and the state vector of two masses at rest at
    the origin. *)
Definition nan2 : vec2 := (NaN, NaN).
Definition zeros8 : list num := replicate 8 (Fin 0).

(** ** Two masses on the same spot *)

(** [MassFixed("a", np.zeros(2))] or [Mass("a")], and [Mass("b")]: both at
    the origin, at rest, bound by no constraint. *)
Definition first_mass (fx : bool) : Mass :=
  if fx then new_MassFixed "a" vzero else new_Mass "a" None None None.

Definition pair_world0 (fx : bool) : World :=
  mkWorld [first_mass fx; new_Mass "b" None None None] []
    (new_SpatialLayout false) [].

(** [layout.addMass(a); layout.addMass(b)] *)
Definition pair_world (fx : bool) : res World :=
  w ← addMass (pair_world0 fx) 0; addMass w 1.

(** The worlds that the two masses go through during one [step]. *)
Definition pair_state (a b : Mass) (changed bounced : bool) (la y : list num) (t : num)
    : World :=
  mkWorld [a; b] []
    (mkSpatialLayout [] [0; 1] changed bounced None None la (mkRungeKutta45 y t)) [].

(** The two masses after the step: the first one has lost its position. *)
Definition first_mass_after (fx : bool) : Mass :=
  mkMass "a" (Fin 1) fx nan2 nan2 vzero.
Definition second_mass_after : Mass :=
  mkMass "b" (Fin 1) false vzero nan2 vzero.

(** ** One mass that glides against friction *)

Definition glide_state (p v a : vec2) : World :=
  mkWorld [mkMass "a" (Fin 1) false p v a] []
    (mkSpatialLayout [] [0] false false None None []
       (mkRungeKutta45 [Fin 0; Fin 0; Fin 1; Fin 0] (Fin 0))) [].

Definition glide_k1 : list num := [Fin 1; Fin 0; Fin (-1); Fin 0].
Definition glide_k2 : list num := [Fin 0.95; Fin 0; Fin (-0.95); Fin 0].
Definition glide_k3 : list num := [Fin 0.9525; Fin 0; Fin (-0.9525); Fin 0].
Definition glide_k4 : list num := [Fin 0.90475; Fin 0; Fin (-0.90475); Fin 0].

(** ** Three masses and one distance constraint between the first and the
    last *)

Definition order_world0 : World :=
  mkWorld [new_Mass "a" None None None; new_Mass "b" None None None;
           new_Mass "c" None None None]
    [ConstraintDistance 0 2 (Fin 1) (Fin 1) (-1)]
    (new_SpatialLayout false) [].

(** [layout.addMass(a); layout.addMass(b); layout.addConstraint(c0)] *)
Definition order_world : res World :=
  w ← addMass order_world0 0; w ← addMass w 1; addConstraint w 0.

(** The world these calls build, and the same world with the third mass at
    the position [p]. *)
Definition order_world_at (p : vec2) : World :=
  mkWorld [new_Mass "a" None None None; new_Mass "b" None None None;
           new_Mass "c" (Some p) None None]
    [ConstraintDistance 0 2 (Fin 1) (Fin 1) (-1)]
    (mkSpatialLayout [0] [0; 1; 2] true false None None [] (mkRungeKutta45 [] (Fin 0)))
    [].

(** ** A tagged constraint and its replacement *)

(** The layout owns [a] and [b] through a constraint tagged 7; the caller
    has built a second constraint tagged 7 between two fresh mass objects,
    one named like [a], one with a new name. *)
Definition retag_world0 : World :=
  mkWorld [new_Mass "a" None None None; new_Mass "b" None None None;
           new_Mass "a" None None None; new_Mass "c" None None None]
    [ConstraintDistance 0 1 (Fin 1) (Fin 1) 7;
     ConstraintDistance 2 3 (Fin 2) (Fin 1) 7]
    (new_SpatialLayout true) [].

Definition retag_world : res World := addConstraint retag_world0 0.

(** Three constraints tagged 7, two tagged 3, and a fresh one tagged 7, all
    between the same two masses. *)
Definition tags_world0 : World :=
  mkWorld [new_Mass "a" None None None; new_Mass "b" None None None]
    [ConstraintDistance 0 1 (Fin 1) (Fin 1) 7;
     ConstraintDistance 0 1 (Fin 1) (Fin 1) 7;
     ConstraintDistance 0 1 (Fin 1) (Fin 1) 7;
     ConstraintDistance 0 1 (Fin 1) (Fin 1) 3;
     ConstraintDistance 0 1 (Fin 1) (Fin 1) 3;
     ConstraintDistance 0 1 (Fin 2) (Fin 1) 7]
    (new_SpatialLayout false) [].

Definition tags_world : res World := addConstraints tags_world0 [0; 1; 2; 3; 4].

(** The world these calls build. *)
Definition tags_world_built : World :=
  set_layout tags_world0
    (mkSpatialLayout [0; 1; 2; 3; 4] [0; 1] true false None None []
       (mkRungeKutta45 [] (Fin 0))).

(** ** Two mass objects with one name *)

Definition twin_world0 : World :=
  mkWorld [new_Mass "a" None None None; new_Mass "a" None None None] []
    (new_SpatialLayout true) [].

Definition twin_world : res World := addMass twin_world0 0.

(** ** Layouts without constraints *)

(** Two free masses at rest, one unit apart. *)
Definition apart_state (changed : bool) (la y : list num) (t : num) : World :=
  mkWorld [new_Mass "a" None None None; new_Mass "b" (Some (Fin 1, Fin 0)) None None] []
    (mkSpatialLayout [] [0; 1]%nat changed false None None la (mkRungeKutta45 y t)) [].

(** Their state vector. *)
Definition apart_y : list num :=
  [Fin 0; Fin 0; Fin 0; Fin 0; Fin 1; Fin 0; Fin 0; Fin 0].

(** A layout that holds one free mass, the first of the store, and no
    constraint. *)
Definition lone_world (m : Mass) (rest : mstore) (cs : list Constraint)
    (changed bounced : bool) (elog : option EnergyLog) (fcn : option hook)
    (la y : list num) (t : num) (calls : list hook) : World :=
  mkWorld (m :: rest) cs
    (mkSpatialLayout [] [0%nat] changed bounced elog fcn la (mkRungeKutta45 y t)) calls.

(** A fixed mass alone in a layout. *)
Definition home_state (v a : vec2) : World :=
  mkWorld [mkMass "home" (Fin 1) true vzero v a] []
    (mkSpatialLayout [] [0] true false None None [] (mkRungeKutta45 [] (Fin 0))) [].

(** ** A constraint without masses *)

(** A constraint in a layout that has lost its masses. *)
Definition massless_world : World :=
  set_layout order_world0 (set_constraints (new_SpatialLayout false) [0]).

(** * Properties *)

Local Open Scope R_scope.

(** ** Deciding comparisons of reals *)

Lemma Rltb_true a b : a < b → Rltb a b = true.
Proof. intros H. unfold Rltb. destruct (Rlt_dec a b); [done | contradiction]. Qed.

Lemma Rltb_false a b : ¬ a < b → Rltb a b = false.
Proof. intros H. unfold Rltb. destruct (Rlt_dec a b); [contradiction | done]. Qed.

Lemma Reqb_true a b : a = b → Reqb a b = true.
Proof. intros H. unfold Reqb. destruct (Req_dec_T a b); [done | contradiction]. Qed.

Lemma Reqb_false a b : a ≠ b → Reqb a b = false.
Proof. intros H. unfold Reqb. destruct (Req_dec_T a b); [contradiction | done]. Qed.

(** ** Arithmetic on finite numbers *)

Lemma ndiv_fin x y : y ≠ 0 → ndiv (Fin x) (Fin y) = Fin (x / y).
Proof. intros H. cbn [ndiv]. by rewrite Reqb_false. Qed.

Lemma nsqrt_fin x : 0 <= x → nsqrt (Fin x) = Fin (sqrt x).
Proof. intros H. cbn [nsqrt]. rewrite Rltb_false; [done | lra]. Qed.

Lemma sum_squares_nonneg x y : 0 <= x * x + y * y.
Proof. nra. Qed.

Lemma hypot2_fin x y : hypot2 (Fin x, Fin y) = Fin (sqrt (x * x + y * y)).
Proof. unfold hypot2. cbn [fst snd nsquare nadd]. apply nsqrt_fin, sum_squares_nonneg. Qed.

Lemma distance_pos_fin a b c d :
  distance_pos (Fin a, Fin b) (Fin c, Fin d)
  = Fin (sqrt ((a - c) * (a - c) + (b - d) * (b - d))).
Proof. unfold distance_pos, vsub. cbn [fst snd nsub nadd nopp]. apply hypot2_fin. Qed.

(** ** Propagation of [nan] *)

Lemma nadd_nan_l x : nadd NaN x = NaN.
Proof. by destruct x. Qed.
Lemma nadd_nan_r x : nadd x NaN = NaN.
Proof. by destruct x. Qed.
Lemma nsub_nan_l x : nsub NaN x = NaN.
Proof. by destruct x. Qed.
Lemma nsub_nan_r x : nsub x NaN = NaN.
Proof. by destruct x. Qed.
Lemma nmul_nan_l x : nmul NaN x = NaN.
Proof. by destruct x. Qed.
Lemma nmul_nan_r x : nmul x NaN = NaN.
Proof. by destruct x. Qed.
Lemma ndiv_nan_l x : ndiv NaN x = NaN.
Proof. by destruct x. Qed.
Lemma ndiv_nan_r x : ndiv x NaN = NaN.
Proof. by destruct x. Qed.
Lemma nlt_nan_l x : nlt NaN x = false.
Proof. by destruct x. Qed.
Lemma nlt_nan_r x : nlt x NaN = false.
Proof. by destruct x. Qed.
Lemma nle_nan_r x : nle x NaN = false.
Proof. by destruct x. Qed.
Lemma narctan2_nan_l x : narctan2 NaN x = NaN.
Proof. by destruct x. Qed.
Lemma narctan2_nan_r x : narctan2 x NaN = NaN.
Proof. by destruct x. Qed.

Create Rewrite HintDb nan.
#[local] Hint Rewrite nadd_nan_l nadd_nan_r nsub_nan_l nsub_nan_r nmul_nan_l nmul_nan_r
  ndiv_nan_l ndiv_nan_r nlt_nan_l nlt_nan_r narctan2_nan_l narctan2_nan_r : nan.

Ltac nan_simpl :=
  unfold nan2, hypot2, vadd, vsub, vscale, vopp;
  repeat (progress (cbn [fst snd nopp nsquare nsqrt ncos nsin nabs nmod];
                    autorewrite with nan)).

(** ** The result monad and its loops *)

Lemma bind_Ok {A B} (m : res A) (f : A → res B) (b : B) :
  m ≫= f = Ok b → ∃ a, m = Ok a ∧ f a = Ok b.
Proof. destruct m as [a|e]; cbn; [eauto | discriminate]. Qed.

Ltac inv_bind H :=
  let a := fresh "x" in
  let Ha := fresh "H" a in
  apply bind_Ok in H as (a & Ha & H).

Lemma mapM_cons {A B} (f : A → res B) x l :
  mapM f (x :: l) = y ← f x; k ← mapM f l; mret (y :: k).
Proof. reflexivity. Qed.

Lemma mapM_Ok_length {A B} (f : A → res B) l r :
  mapM f l = Ok r → length r = length l.
Proof.
  revert r. induction l as [|x l IH]; intros r H; cbn in H.
  - by injection H as <-.
  - inv_bind H. inv_bind H. injection H as <-. cbn. f_equal. by apply IH.
Qed.

Lemma mapM_Ok_Forall2 {A B} (f : A → res B) l r :
  mapM f l = Ok r → Forall2 (λ x y, f x = Ok y) l r.
Proof.
  revert r. induction l as [|x l IH]; intros r H; cbn in H.
  - injection H as <-. constructor.
  - inv_bind H. inv_bind H. injection H as <-. constructor; auto.
Qed.

Lemma mapM_total {A B} (f : A → res B) (l : list A) :
  (∀ x, x ∈ l → ∃ y, f x = Ok y) → ∃ r, mapM f l = Ok r.
Proof.
  induction l as [|x l IH]; intros H; [by eexists|].
  destruct (H x) as [y Hy]; [by left|].
  destruct IH as [r Hr]; [intros; apply H; by right|].
  exists (y :: r). by rewrite mapM_cons, Hy, Hr.
Qed.

Lemma foldM_invariant {A B} (P : A → Prop) (f : A → B → res A) l a a' :
  (∀ a b a', P a → f a b = Ok a' → P a') →
  P a → foldM f a l = Ok a' → P a'.
Proof.
  intros Hf. revert a. induction l as [|x l IH]; intros a Ha H; cbn in H.
  - by injection H as <-.
  - inv_bind H. eapply IH; [|exact H]. eapply Hf; eauto.
Qed.

Lemma zip_arrays_Ok f u v :
  length u = length v → zip_arrays f u v = Ok (zip_with f u v).
Proof.
  revert v. induction u as [|x u IH]; intros [|y v] Hl; try discriminate; [done|].
  cbn. rewrite IH by (cbn in Hl; lia). done.
Qed.

(** ** Wrapping of angles *)

Lemma Rfloor_mod_range a b : 0 < b → 0 <= Rfloor_mod a b < b.
Proof.
  intros Hb. unfold Rfloor_mod.
  destruct (base_Int_part (a / b)) as [H1 H2].
  assert (Ha : a = b * (a / b)) by (field; lra).
  split.
  - apply Rmult_le_compat_l with (r := b) in H1; lra.
  - assert (b * (a / b - 1) < b * IZR (Int_part (a / b))).
    { apply Rmult_lt_compat_l; lra. }
    lra.
Qed.

Lemma Rfloor_mod_small a b : 0 <= a < b → Rfloor_mod a b = a.
Proof.
  intros [H0 H1]. unfold Rfloor_mod.
  assert (Hb : 0 < b) by lra.
  assert (Hq : 0 <= a / b < 1).
  { split.
    - apply Rmult_le_pos; [lra|]. left. now apply Rinv_0_lt_compat.
    - apply Rmult_lt_reg_r with b; [lra|]. unfold Rdiv. rewrite Rmult_assoc, Rinv_l; lra. }
  assert (Hz : Int_part (a / b) = 0%Z).
  { symmetry. apply Int_part_spec. simpl. lra. }
  rewrite Hz. simpl. lra.
Qed.

Lemma angleWrap_fin x :
  _angleWrap (Fin x) = Fin (Rfloor_mod (x + PI) (2 * PI) - PI).
Proof.
  pose proof PI_RGT_0 as Hpi.
  unfold _angleWrap, npi. cbn [nadd nmul nmod].
  rewrite Reqb_false by lra.
  destruct (Rfloor_mod_range (x + PI) (2 * PI)) as [H0 H1]; [lra|].
  cbn [nlt]. rewrite Rltb_false by lra.
  cbn [nsub nadd nopp]. reflexivity.
Qed.

(** C7.  For every real [x], [wrap(x)] is a finite number of the interval
    [[-pi, pi)], and wrapping it again changes nothing. *)
Theorem angleWrap_range_idempotent (x : R) :
  ∃ y : R,
    _angleWrap (Fin x) = Fin y ∧ - PI <= y < PI ∧ _angleWrap (Fin y) = Fin y.
Proof.
  pose proof PI_RGT_0 as Hpi.
  destruct (Rfloor_mod_range (x + PI) (2 * PI)) as [H0 H1]; [lra|].
  exists (Rfloor_mod (x + PI) (2 * PI) - PI).
  split; [apply angleWrap_fin|]. split; [lra|].
  rewrite angleWrap_fin. f_equal.
  rewrite Rfloor_mod_small by lra. lra.
Qed.

(** ** The first intersection of a line and a circle *)

(** The quadratic of a line [v = m u + c0] against a circle. *)
Section Quadratic.
Variables m c0 u0 v0 r : R.
Hypothesis Hd : 0 <= Rquad_d m c0 u0 v0 r.

Lemma quad_factor x :
  (x - u0) * (x - u0) + (m * x + c0 - v0) * (m * x + c0 - v0) - r * r
  = - Rquad_a m
    * (x - (- Rquad_b m c0 u0 v0 + sqrt (Rquad_d m c0 u0 v0 r)) / (2 * Rquad_a m))
    * (x - (- Rquad_b m c0 u0 v0 - sqrt (Rquad_d m c0 u0 v0 r)) / (2 * Rquad_a m)).
Proof using Hd.
  assert (Hqa : Rquad_a m ≠ 0) by (unfold Rquad_a; nra).
  pose proof (sqrt_sqrt _ Hd) as Hs.
  set (s := sqrt (Rquad_d m c0 u0 v0 r)) in *.
  transitivity (- (Rquad_a m * x * x + Rquad_b m c0 u0 v0 * x + Rquad_c m c0 u0 v0 r));
    [unfold Rquad_a, Rquad_b, Rquad_c; ring|].
  assert (Hqc : Rquad_c m c0 u0 v0 r
                = (Rquad_b m c0 u0 v0 * Rquad_b m c0 u0 v0 - s * s) / (4 * Rquad_a m)).
  { rewrite Hs. unfold Rquad_d. field. exact Hqa. }
  rewrite Hqc. field. exact Hqa.
Qed.

Lemma quad_root_on_circle x :
  x = (- Rquad_b m c0 u0 v0 + sqrt (Rquad_d m c0 u0 v0 r)) / (2 * Rquad_a m)
  ∨ x = (- Rquad_b m c0 u0 v0 - sqrt (Rquad_d m c0 u0 v0 r)) / (2 * Rquad_a m) →
  (x - u0) * (x - u0) + (m * x + c0 - v0) * (m * x + c0 - v0) = r * r.
Proof using Hd.
  intros Hx. pose proof (quad_factor x) as Hf.
  destruct Hx as [Hx | Hx]; rewrite <- Hx in Hf.
  - replace (x - x) with 0 in Hf by ring. rewrite Rmult_0_r, Rmult_0_l in Hf. lra.
  - replace (x - x) with 0 in Hf by ring. rewrite Rmult_0_r in Hf. lra.
Qed.

Lemma quad_circle_root x :
  (x - u0) * (x - u0) + (m * x + c0 - v0) * (m * x + c0 - v0) = r * r →
  x = (- Rquad_b m c0 u0 v0 + sqrt (Rquad_d m c0 u0 v0 r)) / (2 * Rquad_a m)
  ∨ x = (- Rquad_b m c0 u0 v0 - sqrt (Rquad_d m c0 u0 v0 r)) / (2 * Rquad_a m).
Proof using Hd.
  intros Hx. pose proof (quad_factor x) as Hf.
  assert (Hqa : Rquad_a m ≠ 0) by (unfold Rquad_a; nra).
  rewrite Hx in Hf. replace (r * r - r * r) with 0 in Hf by ring.
  symmetry in Hf. rewrite Rmult_assoc in Hf.
  apply Rmult_integral in Hf as [Hf | Hf]; [lra|].
  apply Rmult_integral in Hf as [Hf | Hf]; [left | right]; lra.
Qed.
End Quadratic.

(** The coefficients that [_firstCircleIntersect] computes, for finite
    points on a line that is not degenerate. *)
Section Intersect.
Variables (a b c : R * R) (r : R) (vert : bool).
Hypothesis Huse : fci_use_vertical (fin2 a) (fin2 b) = vert.
Hypothesis Hind : Rind vert b - Rind vert a ≠ 0.

Lemma fci_m_fin : fci_m (fin2 a) (fin2 b) = Fin (Rline_m vert a b).
Proof using All.
  unfold fci_m. rewrite Huse. unfold fci_disp, fin2, Rline_m, Rind, Rdep in *.
  cbn [vsub fst snd nsub nadd nopp].
  destruct vert; (rewrite ndiv_fin; [reflexivity | exact Hind]).
Qed.

Lemma fci_c_fin : fci_c (fin2 a) (fin2 b) = Fin (Rline_c vert a b).
Proof using All.
  unfold fci_c. rewrite Huse, fci_m_fin. unfold Rline_c, Rind, Rdep, fin2.
  destruct vert; reflexivity.
Qed.

Lemma fci_discriminant_fin :
  fci_discriminant (fin2 a) (fin2 b) (fin2 c) (Fin r) = Fin (Rdisc vert a b c r).
Proof using All.
  unfold fci_discriminant, fci_quad_a, fci_quad_b, fci_quad_c.
  rewrite Huse, fci_m_fin, fci_c_fin.
  unfold Rdisc, Rquad_d, Rquad_a, Rquad_b, Rquad_c, Rind, Rdep, fin2.
  destruct vert; cbn; apply (f_equal Fin); ring.
Qed.

Lemma fci_point_fin x : fci_point (fin2 a) (fin2 b) (Fin x) = fin2 (Rline_pt vert a b x).
Proof using All.
  unfold fci_point. rewrite Huse, fci_m_fin, fci_c_fin. unfold Rline_pt, fin2.
  destruct vert; reflexivity.
Qed.

Lemma pt_on_line x : on_line a b (Rline_pt vert a b x).
Proof using All.
  unfold on_line, Rline_pt, Rline_c, Rline_m. unfold Rind, Rdep in Hind |- *.
  destruct vert; cbn [fst snd]; field; exact Hind.
Qed.

Hypothesis Hd : 0 <= Rdisc vert a b c r.

Lemma fci_roots_fin :
  fci_root_1 (fin2 a) (fin2 b) (fin2 c) (Fin r) = Fin (Rroot true vert a b c r)
  ∧ fci_root_2 (fin2 a) (fin2 b) (fin2 c) (Fin r) = Fin (Rroot false vert a b c r).
Proof using All.
  unfold fci_root_1, fci_root_2. rewrite fci_discriminant_fin, nsqrt_fin by exact Hd.
  unfold fci_quad_a, fci_quad_b. rewrite Huse, fci_m_fin, fci_c_fin.
  unfold Rroot, Rquad_a, Rquad_b, Rind, Rdep, fin2.
  destruct vert; cbn [fst snd nadd nsub nmul nopp nsquare];
    (rewrite !ndiv_fin by nra); split; apply (f_equal Fin); f_equal; ring.
Qed.

Lemma pt_on_circle plus : on_circle c r (Rline_pt vert a b (Rroot plus vert a b c r)).
Proof using All.
  assert (Hc := quad_root_on_circle (Rline_m vert a b) (Rline_c vert a b)
                  (Rind vert c) (Rdep vert c) r Hd (Rroot plus vert a b c r)).
  unfold on_circle, Rline_pt.
  assert (Hr : Rroot plus vert a b c r = Rroot true vert a b c r
               ∨ Rroot plus vert a b c r = Rroot false vert a b c r)
    by (destruct plus; auto).
  specialize (Hc Hr). unfold Rind, Rdep in Hc.
  destruct vert; cbn [fst snd]; lra.
Qed.

Lemma line_circle_pt q :
  on_line a b q → on_circle c r q →
  q = Rline_pt vert a b (Rroot true vert a b c r)
  ∨ q = Rline_pt vert a b (Rroot false vert a b c r).
Proof using All.
  intros Hl Hc.
  assert (Hq : Rdep vert q = Rline_m vert a b * Rind vert q + Rline_c vert a b).
  { unfold on_line in Hl. unfold Rline_c, Rline_m. unfold Rind, Rdep in Hind |- *.
    destruct vert; cbn [fst snd] in *.
    - apply (Rmult_eq_reg_r (b.2 - a.2)); [|exact Hind]. field_simplify; [lra | exact Hind].
    - apply (Rmult_eq_reg_r (b.1 - a.1)); [|exact Hind]. field_simplify; [lra | exact Hind]. }
  assert (Hx : Rind vert q = Rroot true vert a b c r
               ∨ Rind vert q = Rroot false vert a b c r).
  { apply (quad_circle_root _ _ (Rind vert c) (Rdep vert c) r Hd).
    rewrite <- Hq. unfold on_circle in Hc. unfold Rind, Rdep.
    destruct vert; cbn [fst snd] in *; lra. }
  unfold Rline_pt. destruct q as [qx qy]. unfold Rind, Rdep in Hq, Hx.
  destruct vert; cbn [fst snd] in *; destruct Hx as [Hx | Hx]; [left | right | left | right];
    rewrite <- Hx, <- Hq; reflexivity.
Qed.

Lemma hypot2_vsub_fin p : hypot2 (vsub (fin2 p) (fin2 a)) = Fin (Rdist a p).
Proof using All. unfold vsub, fin2. cbn [fst snd nsub nadd nopp]. apply hypot2_fin. Qed.

Lemma fci_result :
  _firstCircleIntersect (fin2 a) (fin2 b) (fin2 c) (Fin r)
  = Ok (fin2 (if Rltb (Rdist a (Rline_pt vert a b (Rroot true vert a b c r)))
                      (Rdist a (Rline_pt vert a b (Rroot false vert a b c r)))
              then Rline_pt vert a b (Rroot true vert a b c r)
              else Rline_pt vert a b (Rroot false vert a b c r))).
Proof using All.
  unfold _firstCircleIntersect. rewrite fci_discriminant_fin. cbn [nlt].
  rewrite Rltb_false by lra.
  unfold fci_intersect_1, fci_intersect_2.
  destruct fci_roots_fin as [-> ->]. rewrite !fci_point_fin, !hypot2_vsub_fin.
  cbn [nlt]. by destruct (Rltb _ _).
Qed.
End Intersect.

Lemma fci_nearest_of_line (a b c : R * R) (r d : R) (vert : bool) :
  fci_use_vertical (fin2 a) (fin2 b) = vert →
  Rind vert b - Rind vert a ≠ 0 →
  fci_discriminant (fin2 a) (fin2 b) (fin2 c) (Fin r) = Fin d → 0 <= d →
  ∃ p : R * R,
    _firstCircleIntersect (fin2 a) (fin2 b) (fin2 c) (Fin r) = Ok (fin2 p)
    ∧ on_line a b p ∧ on_circle c r p
    ∧ ∀ q, on_line a b q → on_circle c r q → Rdist a p <= Rdist a q.
Proof.
  intros Huse Hind Hdisc Hd.
  rewrite (fci_discriminant_fin a b c r vert Huse Hind) in Hdisc.
  injection Hdisc as <-.
  eexists. split; [apply (fci_result a b c r vert Huse Hind Hd)|].
  set (p1 := Rline_pt vert a b (Rroot true vert a b c r)).
  set (p2 := Rline_pt vert a b (Rroot false vert a b c r)).
  assert (H1 : on_line a b p1 ∧ on_circle c r p1).
  { split; [apply (pt_on_line a b c r vert) | apply (pt_on_circle a b c r vert)];
      assumption. }
  assert (H2 : on_line a b p2 ∧ on_circle c r p2).
  { split; [apply (pt_on_line a b c r vert) | apply (pt_on_circle a b c r vert)];
      assumption. }
  unfold Rltb. destruct (Rlt_dec (Rdist a p1) (Rdist a p2)) as [Hlt | Hge].
  - destruct H1 as [? ?]. repeat split; try assumption.
    intros q Hl Hc.
    destruct (line_circle_pt a b c r vert Huse Hind Hd q Hl Hc) as [-> | ->];
      fold p1 p2; lra.
  - destruct H2 as [? ?]. repeat split; try assumption.
    intros q Hl Hc.
    destruct (line_circle_pt a b c r vert Huse Hind Hd q Hl Hc) as [-> | ->];
      fold p1 p2; lra.
Qed.

Lemma on_line_dep (a b : R * R) (vert : bool) (q : R * R) :
  Rind vert b - Rind vert a ≠ 0 → on_line a b q →
  Rdep vert q = Rline_m vert a b * Rind vert q + Rline_c vert a b.
Proof.
  intros Hind Hl. unfold on_line in Hl. unfold Rline_c, Rline_m.
  unfold Rind, Rdep in Hind |- *. destruct vert; cbn [fst snd] in *.
  - apply (Rmult_eq_reg_r (b.2 - a.2)); [|exact Hind]. field_simplify; [lra | exact Hind].
  - apply (Rmult_eq_reg_r (b.1 - a.1)); [|exact Hind]. field_simplify; [lra | exact Hind].
Qed.

Lemma quad_has_root m c0 u0 v0 r x :
  (x - u0) * (x - u0) + (m * x + c0 - v0) * (m * x + c0 - v0) = r * r →
  0 <= Rquad_d m c0 u0 v0 r.
Proof.
  intros Hx. unfold Rquad_d.
  set (A := Rquad_a m). set (B := Rquad_b m c0 u0 v0). set (C := Rquad_c m c0 u0 v0 r).
  assert (Hq : A * x * x + B * x + C = 0).
  { unfold A, B, C, Rquad_a, Rquad_b, Rquad_c.
    transitivity (- ((x - u0) * (x - u0) + (m * x + c0 - v0) * (m * x + c0 - v0) - r * r));
      [ring | rewrite Hx; ring]. }
  replace (B * B - 4 * A * C) with ((2 * A * x + B) * (2 * A * x + B) - 4 * A * (A * x * x + B * x + C))
    by ring.
  rewrite Hq. pose proof (Rle_0_sqr (2 * A * x + B)) as Hs. unfold Rsqr in Hs. lra.
Qed.

Lemma line_has_direction (a b : R * R) :
  a ≠ b →
  Rind (fci_use_vertical (fin2 a) (fin2 b)) b - Rind (fci_use_vertical (fin2 a) (fin2 b)) a ≠ 0.
Proof.
  intros Hne. destruct a as [ax ay], b as [bx by_].
  unfold fci_use_vertical, fci_disp, fin2, Rind. cbn [vsub fst snd nsub nadd nopp nabs nlt].
  fold (Rminus bx ax) (Rminus by_ ay). unfold Rltb.
  destruct (Rlt_dec _ _) as [Hlt|Hge]; cbn [fst snd].
  - intros Hz. rewrite Hz, Rabs_R0 in Hlt. pose proof (Rabs_pos (bx - ax)). lra.
  - intros Hz. rewrite Hz, Rabs_R0 in Hge.
    assert (Hy : by_ - ay = 0).
    { destruct (Req_dec (by_ - ay) 0) as [|Hn]; [done|]. apply Rabs_pos_lt in Hn. lra. }
    apply Hne. f_equal; lra.
Qed.

(** The discriminant that [_firstCircleIntersect] computes, for the line in
    slope form, is the discriminant of the line against the circle over the
    square of half the extent of the line along its free coordinate. *)
Lemma Rdisc_line_circle (vert : bool) (a b c : R * R) (r : R) :
  Rind vert b - Rind vert a ≠ 0 →
  Rdisc vert a b c r
  = 4 / ((Rind vert b - Rind vert a) * (Rind vert b - Rind vert a))
    * line_circle_disc a b c r.
Proof.
  intros Hind.
  unfold Rdisc, Rquad_d, Rquad_a, Rquad_b, Rquad_c, Rline_c, Rline_m, line_circle_disc.
  unfold Rind, Rdep in *. destruct vert; cbn [fst snd] in *; field; exact Hind.
Qed.

(** C9.  For a line through two different finite points [a] and [b] and a
    circle of finite centre and radius, the discriminant that
    [_firstCircleIntersect] computes is a positive multiple of the
    discriminant of the line against the circle.  The function raises its
    [ValueError] exactly when that discriminant is negative, which is when
    the line misses the circle.  When it is not negative the function returns
    a point that is on the line and on the circle, and no point of the line
    and the circle is nearer to [a]. *)
Theorem firstCircleIntersect_nearest (a b c : R * R) (r : R) :
  a ≠ b →
  (∃ k : R, 0 < k
     ∧ fci_discriminant (fin2 a) (fin2 b) (fin2 c) (Fin r)
       = Fin (k * line_circle_disc a b c r))
  ∧ (_firstCircleIntersect (fin2 a) (fin2 b) (fin2 c) (Fin r) = Raise ValueError
     ↔ line_circle_disc a b c r < 0)
  ∧ (line_circle_disc a b c r < 0 ↔ ¬ ∃ q : R * R, on_line a b q ∧ on_circle c r q)
  ∧ (0 <= line_circle_disc a b c r →
     ∃ p : R * R,
       _firstCircleIntersect (fin2 a) (fin2 b) (fin2 c) (Fin r) = Ok (fin2 p)
       ∧ on_line a b p ∧ on_circle c r p
       ∧ ∀ q, on_line a b q → on_circle c r q → Rdist a p <= Rdist a q).
Proof.
  intros Hne. pose proof (line_has_direction a b Hne) as Hind.
  set (vert := fci_use_vertical (fin2 a) (fin2 b)) in *.
  assert (Huse : fci_use_vertical (fin2 a) (fin2 b) = vert) by reflexivity.
  pose proof (fci_discriminant_fin a b c r vert Huse Hind) as Hdisc.
  pose proof (Rdisc_line_circle vert a b c r Hind) as Hgeo.
  set (e := Rind vert b - Rind vert a) in *.
  set (D := line_circle_disc a b c r) in *.
  assert (He : 0 < e * e) by nra.
  assert (Hk : 0 < 4 / (e * e)).
  { apply Rdiv_lt_0_compat; lra. }
  assert (Hsign : Rdisc vert a b c r < 0 ↔ D < 0).
  { rewrite Hgeo. split; intros H; nra. }
  split; [|split; [|split]].
  - exists (4 / (e * e)). split; [exact Hk|]. by rewrite Hdisc, Hgeo.
  - rewrite <- Hsign. split.
    + unfold _firstCircleIntersect. rewrite Hdisc. cbn [nlt]. unfold Rltb.
      destruct (Rlt_dec _ _); [done | discriminate].
    + intros Hlt. unfold _firstCircleIntersect. rewrite Hdisc. cbn [nlt].
      by rewrite Rltb_true.
  - rewrite <- Hsign. split.
    + intros Hlt (q & Hl & Hc).
      pose proof (on_line_dep a b vert q Hind Hl) as Hq.
      assert (0 <= Rdisc vert a b c r); [|lra].
      apply (quad_has_root _ _ _ _ _ (Rind vert q)). rewrite <- Hq.
      unfold on_circle in Hc. unfold Rind, Rdep. destruct vert; cbn [fst snd] in *; lra.
    + intros Hno. destruct (Rlt_dec (Rdisc vert a b c r) 0) as [|Hge]; [done|].
      exfalso. apply Hno.
      assert (Hd : 0 <= Rdisc vert a b c r) by lra.
      exists (Rline_pt vert a b (Rroot true vert a b c r)). split.
      * apply (pt_on_line a b c r vert); assumption.
      * apply (pt_on_circle a b c r vert); assumption.
  - intros HD.
    assert (Hd : 0 <= Rdisc vert a b c r).
    { destruct (Rlt_dec (Rdisc vert a b c r) 0) as [Hlt|]; [|lra].
      apply Hsign in Hlt. lra. }
    apply (fci_nearest_of_line a b c r (Rdisc vert a b c r) vert); assumption.
Qed.

(** Evaluation of the program on a given world: everything is unfolded but
    the operations of the reals, then the numbers are compared. *)
Ltac run :=
  cbv -[Rplus Rmult Ropp Rinv Rminus Rdiv IZR Q2R sqrt cos sin atan Rabs Int_part PI
        Rltb Reqb].

Ltac real_eq := first [reflexivity | lra | nra | (field; lra)].
Ltac fin_eq := repeat (f_equal; try real_eq).

(** A line from the origin along the second axis meets the circle of centre
    [(0, 2)] and radius 1 at [(0, 1)] and at [(0, 3)]. *)
Lemma firstCircleIntersect_nearest_witness :
  (∃ k : R, 0 < k
     ∧ fci_discriminant (fin2 (0, 0)) (fin2 (0, 1)) (fin2 (0, 2)) (Fin 1)
       = Fin (k * line_circle_disc (0, 0) (0, 1) (0, 2) 1))
  ∧ (_firstCircleIntersect (fin2 (0, 0)) (fin2 (0, 1)) (fin2 (0, 2)) (Fin 1)
     = Raise ValueError
     ↔ line_circle_disc (0, 0) (0, 1) (0, 2) 1 < 0)
  ∧ (line_circle_disc (0, 0) (0, 1) (0, 2) 1 < 0
     ↔ ¬ ∃ q : R * R, on_line (0, 0) (0, 1) q ∧ on_circle (0, 2) 1 q)
  ∧ (0 <= line_circle_disc (0, 0) (0, 1) (0, 2) 1 →
     ∃ p : R * R,
       _firstCircleIntersect (fin2 (0, 0)) (fin2 (0, 1)) (fin2 (0, 2)) (Fin 1)
       = Ok (fin2 p)
       ∧ on_line (0, 0) (0, 1) p ∧ on_circle (0, 2) 1 p
       ∧ ∀ q, on_line (0, 0) (0, 1) q → on_circle (0, 2) 1 q →
              Rdist (0, 0) p <= Rdist (0, 0) q).
Proof.
  apply (firstCircleIntersect_nearest (0, 0) (0, 1) (0, 2) 1).
  intros [= H]. lra.
Defined.

(** ** The integrator *)

Lemma pushState_frame w y w' :
  _pushState w y = Ok w' →
  layout w' = layout w ∧ constraint_store w' = constraint_store w
  ∧ hook_calls w' = hook_calls w.
Proof. unfold _pushState. intros H. inv_bind H. by injection H as <-. Qed.

Lemma refreshForces_frame w w' :
  _refreshForces w = Ok w' →
  layout w' = layout w ∧ constraint_store w' = constraint_store w
  ∧ hook_calls w' = hook_calls w.
Proof. unfold _refreshForces. intros H. inv_bind H. inv_bind H. by injection H as <-. Qed.

Lemma concat_length_4 (parts : list (list num)) :
  Forall (λ p, length p = 4%nat) parts → length (concat parts) = (4 * length parts)%nat.
Proof.
  induction 1 as [|p parts Hp _ IH]; [done|].
  cbn [concat]. rewrite length_app, Hp, IH. cbn [length]. lia.
Qed.

(** The derivative changes masses only, and returns four numbers a mass. *)
Lemma stateDerivative_frame w t y w' k :
  _stateDerivative w t y = Ok (w', k) →
  layout w' = layout w ∧ constraint_store w' = constraint_store w
  ∧ hook_calls w' = hook_calls w
  ∧ length k = (4 * length (_masses (layout w)))%nat.
Proof.
  unfold _stateDerivative. intros H.
  inv_bind H. inv_bind H. inv_bind H. inv_bind H. injection H as <- <-.
  apply pushState_frame in Hx as (Hl1 & Hc1 & Hh1).
  apply refreshForces_frame in Hx0 as (Hl2 & Hc2 & Hh2).
  repeat split; try congruence.
  pose proof (mapM_Ok_length _ _ _ Hx1) as Hlen.
  match goal with
  | Hc : concatenate ?p = Ok ?d |- _ =>
      assert (d = concat p) as -> by (destruct p; [discriminate | by injection Hc])
  end.
  rewrite concat_length_4; [congruence|].
  apply mapM_Ok_Forall2 in Hx1.
  clear -Hx1. induction Hx1 as [|r p rs ps Hr _ IH]; constructor; [|exact IH].
  inv_bind Hr. by injection Hr as <-.
Qed.

(** [(1/6) s dt] is [(dt/6) s], whatever the number [s]. *)
Lemma scale_sixth (s : num) :
  (Fin (1 / 6) * s * INTEGRATION_DT)%num = (Fin (0.1 / 6) * s)%num.
Proof.
  unfold INTEGRATION_DT. destruct s as [x| | |]; cbn [nmul]; unfold inf_times.
  - f_equal. lra.
  - rewrite (Reqb_false (1 / 6)), (Reqb_false (0.1 / 6)) by lra.
    rewrite (Rltb_true 0 (1 / 6)), (Rltb_true 0 (0.1 / 6)) by lra. cbn.
    unfold inf_times. rewrite Reqb_false by lra. rewrite Rltb_true by lra. done.
  - rewrite (Reqb_false (1 / 6)), (Reqb_false (0.1 / 6)) by lra.
    rewrite (Rltb_true 0 (1 / 6)), (Rltb_true 0 (0.1 / 6)) by lra. cbn.
    unfold inf_times. rewrite Reqb_false by lra. rewrite Rltb_true by lra. done.
  - done.
Qed.

(** C8.  [integrate] makes one classical Runge-Kutta step of [dt = 0.1],
    whatever the derivative [f]: with [k1], [k2], [k3], [k4] the values of
    [f] at [y], [y + dt/2 k1], [y + dt/2 k2] and [y + dt k3], all four taken
    at the time [t] of the integrator, the integrator is left with
    [y + dt/6 (k1 + 2 k2 + 2 k3 + k4)], which is returned, and with the clock
    [t_new] it was called with, whatever that is.  The derivative may write
    the world, the integrator apart: each evaluation starts from the world
    the one before has left.  Its arrays have the length of [y]. *)
Theorem integrate_rk4 (f : World → num → list num → res (World * list num))
    (w w1 w2 w3 w4 : World) (k1 k2 k3 k4 : list num) (t_new : num) :
  let y := ode_y (_ode (layout w)) in
  let t := ode_t (_ode (layout w)) in
  f w t y = Ok (w1, k1) →
  f w1 t (rk_stage y (Fin 0.05) k1) = Ok (w2, k2) →
  f w2 t (rk_stage y (Fin 0.05) k2) = Ok (w3, k3) →
  f w3 t (rk_stage y (Fin 0.1) k3) = Ok (w4, k4) →
  _ode (layout w1) = _ode (layout w) → _ode (layout w2) = _ode (layout w) →
  _ode (layout w3) = _ode (layout w) → _ode (layout w4) = _ode (layout w) →
  length k1 = length y → length k2 = length y →
  length k3 = length y → length k4 = length y →
  integrate f w t_new
  = Ok (set_layout w4
          (set_ode (layout w4) (mkRungeKutta45 (rk4_update y k1 k2 k3 k4) t_new)),
        rk4_update y k1 k2 k3 k4).
Proof.
  intros y t H1 H2 H3 H4 Ho1 Ho2 Ho3 Ho4 Hk1 Hk2 Hk3 Hk4.
  assert (Hstage : ∀ c k, length k = length y →
            arr_add y (arr_scale c k) = Ok (rk_stage y c k)).
  { intros c k Hk. unfold arr_add, arr_scale, rk_stage.
    rewrite zip_arrays_Ok by (rewrite length_fmap; congruence).
    by rewrite zip_with_fmap_r. }
  unfold integrate. fold y t. rewrite H1. cbn [mbind res_bind].
  rewrite Ho1. fold y t.
  replace (INTEGRATION_DT * Fin 0.5)%num with (Fin 0.05)
    by (unfold INTEGRATION_DT; cbn [nmul]; f_equal; lra).
  rewrite Hstage by done. cbn [mbind res_bind]. rewrite H2. cbn [mbind res_bind].
  rewrite Ho2. fold y t.
  rewrite Hstage by done. cbn [mbind res_bind]. rewrite H3. cbn [mbind res_bind].
  rewrite Ho3. fold y t.
  rewrite Hstage by done. cbn [mbind res_bind].
  change (rk_stage y INTEGRATION_DT k3) with (rk_stage y (Fin 0.1) k3). rewrite H4.
  cbn [mbind res_bind]. rewrite Ho4. fold y t.
  unfold arr_add, arr_scale, arr_scale_r.
  rewrite zip_arrays_Ok by (rewrite length_fmap; congruence). cbn [mbind res_bind].
  rewrite zip_arrays_Ok
    by (rewrite length_zip_with, !length_fmap; lia). cbn [mbind res_bind].
  rewrite zip_arrays_Ok
    by (rewrite !length_zip_with, !length_fmap; lia). cbn [mbind res_bind].
  rewrite zip_arrays_Ok
    by (rewrite !length_fmap, !length_zip_with, !length_fmap; lia). cbn [mbind res_bind].
  assert (Hy : zip_with nadd y
                 ((λ x, x * INTEGRATION_DT)%num <$>
                    ((λ x, Fin (1 / 6) * x)%num <$>
                       zip_with nadd
                         (zip_with nadd (zip_with nadd k1 ((λ x, Fin 2 * x)%num <$> k2))
                            ((λ x, Fin 2 * x)%num <$> k3)) k4))
               = rk4_update y k1 k2 k3 k4).
  { unfold rk4_update, rk4_slope. rewrite <- list_fmap_compose.
    rewrite zip_with_fmap_r. rewrite (zip_with_fmap_r nadd _ k1 k2).
    apply zip_with_ext; [|done..]. intros a b. unfold compose. by rewrite scale_sixth. }
  rewrite Hy. reflexivity.
Qed.

(** One mass that starts at the origin with the velocity [(1, 0)] and is
    slowed down by friction alone; the call is the one [step] makes. *)
Lemma integrate_rk4_witness :
  integrate _stateDerivative (glide_state vzero (Fin 1, Fin 0) vzero)
    (Fin 0 + INTEGRATION_DT)%num
  = Ok (set_layout
          (glide_state (Fin 0.09525, Fin 0) (Fin 0.90475, Fin 0) (Fin (-0.90475), Fin 0))
          (set_ode
             (layout
                (glide_state (Fin 0.09525, Fin 0) (Fin 0.90475, Fin 0)
                   (Fin (-0.90475), Fin 0)))
             (mkRungeKutta45
                (rk4_update [Fin 0; Fin 0; Fin 1; Fin 0] glide_k1 glide_k2 glide_k3 glide_k4)
                (Fin 0 + INTEGRATION_DT)%num)),
        rk4_update [Fin 0; Fin 0; Fin 1; Fin 0] glide_k1 glide_k2 glide_k3 glide_k4).
Proof.
  apply (integrate_rk4 _stateDerivative (glide_state vzero (Fin 1, Fin 0) vzero)
           (glide_state vzero (Fin 1, Fin 0) (Fin (-1), Fin 0))
           (glide_state (Fin 0.05, Fin 0) (Fin 0.95, Fin 0) (Fin (-0.95), Fin 0))
           (glide_state (Fin 0.0475, Fin 0) (Fin 0.9525, Fin 0) (Fin (-0.9525), Fin 0))
           (glide_state (Fin 0.09525, Fin 0) (Fin 0.90475, Fin 0) (Fin (-0.90475), Fin 0)));
    try reflexivity.
  - run. fin_eq.
  - run. fin_eq.
  - run. fin_eq.
  - run. fin_eq.
Defined.

(** Called with the time 5 on a clock that shows 0, [integrate] makes the
    same step of [dt = 0.1] and leaves the clock at 5, not at [0 + dt]. *)
Lemma integrate_clock_counterexample :
  ∃ w' y',
    integrate _stateDerivative (glide_state vzero (Fin 1, Fin 0) vzero) (Fin 5)
    = Ok (w', y')
    ∧ ode_t (_ode (layout (glide_state vzero (Fin 1, Fin 0) vzero))) = Fin 0
    ∧ ode_t (_ode (layout w')) = Fin 5
    ∧ ode_t (_ode (layout w')) ≠ (Fin 0 + INTEGRATION_DT)%num.
Proof.
  eexists _, _. split.
  - run. reflexivity.
  - split; [reflexivity|]. split; [reflexivity|].
    cbn. unfold INTEGRATION_DT. intros [= H]. lra.
Qed.

(** ** Marking the state as changed *)

Ltac in_list := repeat first [apply list_elem_of_here | apply list_elem_of_further].

Lemma get_mass_total (h : mstore) r : is_Some (h !! r) → ∃ m, get_mass h r = Ok m.
Proof. intros [m Hm]. exists m. unfold get_mass. by rewrite Hm. Qed.

Lemma totalEnergy_total (h : mstore) (c : Constraint) :
  (∀ r, r ∈ masses c → is_Some (h !! r)) →
  ∃ e, Constraint_totalEnergy h c = Ok e.
Proof.
  intros Hv. unfold Constraint_totalEnergy, displacement, length_.
  destruct c as [a b l k t | a b l k t | a b c l k t]; cbn [masses] in Hv.
  - destruct (get_mass_total h a) as [ma ->]; [apply Hv; in_list|].
    destruct (get_mass_total h b) as [mb ->]; [apply Hv; in_list|]. by eexists.
  - destruct (get_mass_total h a) as [ma ->]; [apply Hv; in_list|].
    destruct (get_mass_total h b) as [mb ->]; [apply Hv; in_list|]. by eexists.
  - destruct (get_mass_total h a) as [ma ->]; [apply Hv; in_list|].
    destruct (get_mass_total h b) as [mb ->]; [apply Hv; in_list|].
    destruct (get_mass_total h c) as [mc ->]; [apply Hv; in_list|]. by eexists.
Qed.

(** Without a dangling reference [markStateChanged] returns; it sets the
    flag and touches neither masses nor constraints. *)
Lemma markStateChanged_total (w : World) (changed reset : bool) :
  valid_refs w →
  ∃ w', markStateChanged w changed reset = Ok w'
    ∧ _constraints (layout w') = _constraints (layout w)
    ∧ _masses (layout w') = _masses (layout w)
    ∧ mass_store w' = mass_store w
    ∧ constraint_store w' = constraint_store w
    ∧ _system_changed (layout w') = changed.
Proof.
  intros (Hm & Hc & Hk). unfold markStateChanged.
  set (w1 := set_layout w (set_system_changed (layout w) changed)).
  set (w2 := if reset then resetEnergyLog w1 else w1).
  assert (H2 : _constraints (layout w2) = _constraints (layout w)
               ∧ _masses (layout w2) = _masses (layout w)
               ∧ mass_store w2 = mass_store w
               ∧ constraint_store w2 = constraint_store w
               ∧ _system_changed (layout w2) = changed).
  { unfold w2, w1, resetEnergyLog. destruct reset; [|done].
    cbn. by destruct (_energy_log (layout w)). }
  destruct H2 as (E1 & E2 & E3 & E4 & E5).
  assert (H3 : ∃ w3, logEnergy w2 = Ok w3
               ∧ _constraints (layout w3) = _constraints (layout w)
               ∧ _masses (layout w3) = _masses (layout w)
               ∧ mass_store w3 = mass_store w
               ∧ constraint_store w3 = constraint_store w
               ∧ _system_changed (layout w3) = changed).
  { unfold logEnergy. destruct (_energy_log (layout w2)) as [e|]; [|by eexists].
    unfold EnergyLog_logEnergy.
    destruct (mapM_total (λ r, m ← the_mass w2 r; mret (Mass_totalEnergy m))
                (_masses (layout w2))) as [ks ->].
    { intros r Hr. unfold the_mass. rewrite E3.
      destruct (get_mass_total (mass_store w) r) as [m ->]; [apply Hm; congruence|].
      by eexists. }
    destruct (mapM_total
                (λ c, c' ← get_constraint w2 c; Constraint_totalEnergy (mass_store w2) c')
                (_constraints (layout w2))) as [ps ->].
    { intros c Hin. unfold get_constraint. rewrite E4, E3.
      destruct (Hc c) as [k Hk']; [congruence|]. rewrite Hk'. cbn.
      apply totalEnergy_total. intros r Hr. by eapply Hk. }
    eexists. split; [reflexivity|]. by cbn. }
  destruct H3 as (w3 & -> & F1 & F2 & F3 & F4 & F5). cbn [mbind res_bind].
  destruct (_post_state_change_fcn (layout w3)); eexists; (split; [reflexivity|]); by cbn.
Qed.

(** ** Replacing the constraints of a tag *)

Lemma mapM_get_constraint w cs :
  (∀ c, c ∈ cs → is_Some (constraint_store w !! c)) →
  ∃ ks, mapM (get_constraint w) cs = Ok ks
        ∧ Forall2 (λ c k, constraint_store w !! c = Some k) cs ks.
Proof.
  induction cs as [|c cs IH]; intros Hv; [exists []; by split|].
  destruct (Hv c) as [k Hk]; [by left|].
  destruct IH as (ks & Hks & Hall); [intros; apply Hv; by right|].
  exists (k :: ks). split; [|by constructor].
  rewrite mapM_cons, Hks. unfold get_constraint. by rewrite Hk.
Qed.

Lemma mapM_pair_constraint w cs :
  (∀ c, c ∈ cs → is_Some (constraint_store w !! c)) →
  ∃ ks, mapM (λ c, c' ← get_constraint w c; mret (c, c')) cs = Ok ks
        ∧ Forall2 (λ c k, k.1 = c ∧ constraint_store w !! c = Some k.2) cs ks.
Proof.
  induction cs as [|c cs IH]; intros Hv; [exists []; by split|].
  destruct (Hv c) as [k Hk]; [by left|].
  destruct IH as (ks & Hks & Hall); [intros; apply Hv; by right|].
  exists ((c, k) :: ks). split; [|by constructor].
  rewrite mapM_cons, Hks. unfold get_constraint. by rewrite Hk.
Qed.

Lemma filter_by_tag w t cs ks :
  Forall2 (λ c (k : cref * Constraint), k.1 = c ∧ constraint_store w !! c = Some k.2) cs ks →
  (filter (λ cc : cref * Constraint, _tag_id cc.2 ≠ t) ks).*1
  = filter (λ c, constraint_tag w c ≠ Some t) cs.
Proof.
  induction 1 as [|c [c' k] cs ks [Hc Hk] _ IH]; [done|]. cbn in Hc, Hk. subst c'.
  assert (Htag : constraint_tag w c = Some (_tag_id k)).
  { unfold constraint_tag. by rewrite Hk. }
  rewrite !filter_cons. cbn [snd].
  destruct (decide (_tag_id k ≠ t)) as [Hne|He].
  - rewrite decide_True by (rewrite Htag; congruence). cbn. by rewrite IH.
  - rewrite decide_False by (rewrite Htag; intros Hn; apply He; congruence). exact IH.
Qed.

(** C5.  For a non-empty list [cs] of constraints that all carry the tag
    [t >= 0], [updateConstraints(cs)] returns; the layout then holds the
    constraints it held whose tag is not [t], in their order, followed by
    [cs]; every constraint with another tag is still there; the masses and
    the stored objects are unchanged; the system-changed flag is set. *)
Theorem updateConstraints_replaces_tag (w : World) (cs : list cref) (t : Z) :
  valid_refs w →
  cs ≠ [] → (0 <= t)%Z →
  (∀ c, c ∈ cs → constraint_tag w c = Some t) →
  ∃ w',
    updateConstraints w cs = Ok w'
    ∧ _constraints (layout w')
      = filter (λ c, constraint_tag w c ≠ Some t) (_constraints (layout w)) ++ cs
    ∧ (∀ c, c ∈ _constraints (layout w) → constraint_tag w c ≠ Some t →
            c ∈ _constraints (layout w'))
    ∧ _masses (layout w') = _masses (layout w)
    ∧ mass_store w' = mass_store w
    ∧ constraint_store w' = constraint_store w
    ∧ _system_changed (layout w') = true.
Proof.
  intros Hvalid Hne Ht Htag.
  assert (Hcs : ∀ c, c ∈ cs → is_Some (constraint_store w !! c)).
  { intros c Hc. specialize (Htag c Hc). unfold constraint_tag in Htag.
    destruct (constraint_store w !! c); [by eexists | discriminate]. }
  destruct (mapM_get_constraint w cs Hcs) as (ks & Hks & Hall).
  assert (Htags : Forall (λ k, _tag_id k = t) ks).
  { clear -Hall Htag. induction Hall as [|c k cs ks Hk _ IH]; constructor.
    - specialize (Htag c ltac:(by left)). unfold constraint_tag in Htag.
      rewrite Hk in Htag. by injection Htag.
    - apply IH. intros; apply Htag; by right. }
  destruct Hvalid as (Hm & Hc & Hk).
  destruct (mapM_pair_constraint w (_constraints (layout w)) Hc) as (kept & Hkept & Hall2).
  unfold updateConstraints. rewrite Hks. cbn [mbind res_bind].
  destruct ks as [|k0 ks]; [by inversion Hall; subst|].
  cbn [head of_option mbind res_bind].
  pose proof (Forall_inv Htags) as Hk0. rewrite Hk0.
  replace (0 <=? t)%Z with true by (symmetry; by apply Z.leb_le). cbn [negb].
  replace (forallb (λ c, (_tag_id c =? t)%Z) (k0 :: ks)) with true.
  2:{ symmetry. apply forallb_forall. intros k Hin. apply Z.eqb_eq.
      rewrite Forall_forall in Htags. apply Htags. by apply list_elem_of_In. }
  cbn [negb]. rewrite Hkept. cbn [mbind res_bind].
  rewrite (filter_by_tag w t _ _ Hall2).
  set (new := filter (λ c, constraint_tag w c ≠ Some t) (_constraints (layout w)) ++ cs).
  destruct (markStateChanged_total
              (set_layout w (set_constraints (layout w) new)) true false)
    as (w' & Hw' & E1 & E2 & E3 & E4 & E5).
  { repeat split; cbn.
    - exact Hm.
    - intros c Hin. unfold new in Hin. apply elem_of_app in Hin as [Hin | Hin].
      + apply list_elem_of_filter in Hin as [_ Hin]. by apply Hc.
      + by apply Hcs.
    - exact Hk. }
  exists w'. split; [exact Hw'|]. cbn in E1, E2, E3, E4.
  repeat split; try done.
  intros c Hin Hnt. rewrite E1. unfold new. apply elem_of_app. left.
  by apply list_elem_of_filter.
Qed.

Ltac each_member H :=
  repeat (apply elem_of_cons in H as [-> | H]); [.. | by apply elem_of_nil in H].

Lemma tags_world_eq : tags_world = Ok tags_world_built.
Proof. run. reflexivity. Qed.

Lemma tags_world_valid : valid_refs tags_world_built.
Proof.
  repeat split.
  - intros r Hr. cbn in Hr. each_member Hr; by eexists.
  - intros c Hc. cbn in Hc. each_member Hc; by eexists.
  - intros c k r Hk Hr. cbn in Hk.
    do 6 (destruct c as [|c]; [injection Hk as <-; cbn in Hr; each_member Hr; by eexists|]).
    discriminate.
Qed.

(** Three constraints tagged 7 and two tagged 3; a fresh constraint tagged 7
    replaces the three. *)
Lemma updateConstraints_replaces_tag_witness :
  tags_world = Ok tags_world_built
  ∧ ∃ w', updateConstraints tags_world_built [5%nat] = Ok w'
          ∧ _constraints (layout w') = [3; 4; 5]%nat
          ∧ _masses (layout w') = [0; 1]%nat
          ∧ _system_changed (layout w') = true.
Proof.
  split; [exact tags_world_eq|].
  destruct (updateConstraints_replaces_tag tags_world_built [5%nat] 7)
    as (w' & Hw' & Hc & _ & Hm & _ & _ & Hf).
  - exact tags_world_valid.
  - discriminate.
  - lia.
  - intros c Hc. each_member Hc. reflexivity.
  - exists w'.
    repeat split; [exact Hw' | rewrite Hc; reflexivity | rewrite Hm; reflexivity | exact Hf].
Defined.

(** ** Initial placement leaves the notification state alone *)

Lemma same_notification_refl w : same_notification w w.
Proof. by repeat split. Qed.

Lemma same_notification_trans w1 w2 w3 :
  same_notification w1 w2 → same_notification w2 w3 → same_notification w1 w3.
Proof. unfold same_notification. intros (?&?&?&?&?) (?&?&?&?&?). repeat split; congruence. Qed.

Lemma order_turn_notification w cs ms w' cs' ms' :
  order_turn w cs ms = Ok (w', cs', ms') → same_notification w w'.
Proof.
  unfold order_turn. intros H. repeat inv_bind H.
  injection H as <- <- <-.
  match goal with
  | Hf : foldM _ (?w0, _) _ = Ok ?r |- _ =>
      apply (foldM_invariant (λ a : World * list cref, same_notification w a.1)) in Hf;
        [exact Hf | | by repeat split]
  end.
  intros [wa ca] c [wb cb] Ha Hstep. cbn in *.
  inv_bind Hstep. injection Hstep as <- <-.
  eapply same_notification_trans; [exact Ha|]. by repeat split.
Qed.

Lemma order_loop_notification fuel w cs ms w' cs' ms' :
  order_loop fuel w cs ms = Ok (w', cs', ms') → same_notification w w'.
Proof.
  revert w cs ms. induction fuel as [|fuel IH]; intros w cs ms H; cbn in H.
  - destruct (_constraints (layout w)), (_masses (layout w)); try discriminate.
    injection H as <- <- <-. apply same_notification_refl.
  - destruct (_constraints (layout w)) eqn:Ec, (_masses (layout w)) eqn:Em;
      [injection H as <- <- <-; apply same_notification_refl | ..];
      (inv_bind H; destruct x as [[w1 cs1] ms1];
       eapply same_notification_trans;
       [eapply order_turn_notification; rewrite ?Ec, ?Em; exact Hx | eapply IH; exact H]).
Qed.

Lemma place_mass_notification w cs m w' cs' :
  place_mass (w, cs) m = Ok (w', cs') → same_notification w w'.
Proof.
  unfold place_mass. intros H. repeat inv_bind H. injection H as <- <-.
  by repeat split.
Qed.

(** C10.  [initialiseState] never marks the state as changed: when it
    returns, the system-changed flag, the energy log, the hook, the record of
    its calls and the integrator are what they were.  So the next [step]
    re-seeds the integrator from the positions just computed if the flag was
    set before the call, and integrates from the stale state vector if it was
    not. *)
Theorem initialiseState_keeps_notification (w w' : World) :
  initialiseState w = Ok w' →
  same_notification w w'
  ∧ ∀ fuel,
      step fuel w' = if _system_changed (layout w)
                     then reseed w' ≫= step_integrate fuel
                     else step_integrate fuel w'.
Proof.
  unfold initialiseState. intros H. inv_bind H. destruct x as [[w1 cs] ms].
  inv_bind H. injection H as <-.
  assert (Hs : same_notification w x.1).
  { eapply same_notification_trans; [eapply order_loop_notification; exact Hx|].
    apply (foldM_invariant (λ a : World * list cref, same_notification w1 a.1)) in Hx0;
      [exact Hx0 | | apply same_notification_refl].
    intros [wa ca] m [wb cb] Ha Hstep. cbn in *.
    eapply same_notification_trans; [exact Ha|]. eapply place_mass_notification; exact Hstep. }
  split; [exact Hs|].
  intros fuel. unfold step. destruct Hs as (-> & _). by destruct (_system_changed (layout w)).
Qed.

Lemma order_world_eq : order_world = Ok (order_world_at vzero).
Proof. run. reflexivity. Qed.

(** The third mass is placed one unit from the first, as its constraint
    suggests. *)
Lemma order_world_initialise :
  initialiseState (order_world_at vzero) = Ok (order_world_at (Fin 1, Fin 0)).
Proof.
  run.
  rewrite !(Reqb_false (0 + 1) 0) by lra.
  rewrite !(Reqb_true 0 0) by lra.
  cbv iota beta.
  rewrite !(Reqb_false (0 + (0 + 1)) 0) by lra.
  fin_eq.
Qed.

(** Three masses, one constraint: the flag that the additions have set is
    still set after the placement. *)
Lemma initialiseState_keeps_notification_witness :
  same_notification (order_world_at vzero) (order_world_at (Fin 1, Fin 0))
  ∧ ∀ fuel,
      step fuel (order_world_at (Fin 1, Fin 0))
      = if _system_changed (layout (order_world_at vzero))
        then reseed (order_world_at (Fin 1, Fin 0)) ≫= step_integrate fuel
        else step_integrate fuel (order_world_at (Fin 1, Fin 0)).
Proof.
  apply (initialiseState_keeps_notification (order_world_at vzero)
           (order_world_at (Fin 1, Fin 0))).
  exact order_world_initialise.
Defined.

Local Close Scope R_scope.

(** ** The ordering phase of the initial placement *)

Lemma foldl_min_const (s : nat) (l : list nat) :
  Forall (λ x, x = s) l → foldl Nat.min s l = s.
Proof.
  induction 1 as [|x l -> _ IH]; [done|]. cbn. by rewrite Nat.min_id.
Qed.

(** The score of [scores_of] is the same for every mass, so its minimum is
    found at the head of the list: the ordering loop takes the masses in the
    order of the list. *)
Lemma order_turn_takes_first w cs ms w' cs' ms' :
  order_turn w cs ms = Ok (w', cs', ms') →
  ∃ m rest, _masses (layout w) = m :: rest ∧ ms' = ms ++ [m]
            ∧ _masses (layout w') = rest.
Proof.
  unfold order_turn. intros H.
  inv_bind H. rename x into pending.
  destruct (_masses (layout w)) as [|m rest] eqn:Em; [cbn in H; discriminate|].
  set (s := foldl Nat.add 0
              ((λ c, if decide (remaining c (m :: rest) = 1) then 1 else 0) <$> pending)).
  assert (Hsc : scores_of pending (m :: rest) = s :: ((λ _, s) <$> rest)) by reflexivity.
  rewrite Hsc in H. cbn [min_score mbind res_bind] in H.
  rewrite foldl_min_const in H by (apply Forall_fmap, Forall_true; done).
  cbn [list_find] in H. rewrite decide_True in H by done.
  cbn [fmap option_fmap option_map fst of_option mbind res_bind lookup list_lookup] in H.
  cbn [list_remove] in H. rewrite decide_True in H by done.
  cbn [mbind res_bind] in H.
  inv_bind H. inv_bind H. injection H as <- <- <-.
  exists m, rest. split; [done|]. split; [done|].
  match goal with
  | Hf : foldM _ (?w0, _) _ = Ok ?r |- _ =>
      apply (foldM_invariant (λ a : World * list cref, _masses (layout a.1) = rest)) in Hf;
        [exact Hf | | done]
  end.
  intros [wa ca] c [wb cb] Ha Hstep. cbn in *.
  inv_bind Hstep. by injection Hstep as <- <-.
Qed.

(** *** The cut of the ordering loop is never reached *)

Lemma bind_not_cut {A B} (m : res A) (f : A → res B) :
  not_cut m → (∀ a, m = Ok a → not_cut (f a)) → not_cut (m ≫= f).
Proof.
  destruct m as [a|e]; cbn; intros Hm Hf; [by apply Hf|].
  unfold not_cut in *. congruence.
Qed.

Lemma mapM_not_cut {A B} (f : A → res B) l :
  (∀ x, not_cut (f x)) → not_cut (mapM f l).
Proof.
  intros Hf. induction l as [|x l IH]; [done|]. rewrite mapM_cons.
  apply bind_not_cut; [apply Hf|]. intros y _. by apply bind_not_cut.
Qed.

Lemma foldM_not_cut {A B} (f : A → B → res A) l a :
  (∀ a x, not_cut (f a x)) → not_cut (foldM f a l).
Proof.
  intros Hf. revert a. induction l as [|x l IH]; intros a; [done|]. cbn [foldM].
  apply bind_not_cut; [apply Hf|]. intros a' _. apply IH.
Qed.

Lemma of_option_not_cut {A} (o : option A) e : e ≠ OutOfFuel → not_cut (of_option o e).
Proof. intros He. destruct o; [done|]. unfold not_cut. cbn. congruence. Qed.

Lemma list_remove_not_cut x l : not_cut (list_remove x l).
Proof.
  induction l as [|y l IH]; [done|]. cbn [list_remove].
  destruct (decide (y = x)); [done|]. by apply bind_not_cut.
Qed.

Lemma order_turn_not_cut w cs ms : not_cut (order_turn w cs ms).
Proof.
  unfold order_turn.
  apply bind_not_cut; [apply mapM_not_cut; intros c; by apply of_option_not_cut|].
  intros pending _.
  apply bind_not_cut; [by destruct (scores_of _ _)|]. intros lowest _.
  apply bind_not_cut; [by apply of_option_not_cut|]. intros idx _.
  apply bind_not_cut; [by apply of_option_not_cut|]. intros m_best _.
  apply bind_not_cut; [apply list_remove_not_cut|]. intros left _.
  apply bind_not_cut.
  { apply mapM_not_cut; intros c.
    apply bind_not_cut; [by apply of_option_not_cut | done]. }
  intros both _.
  apply bind_not_cut; [|done].
  apply foldM_not_cut. intros [wa ca] c.
  apply bind_not_cut; [apply list_remove_not_cut | done].
Qed.

Lemma order_loop_not_cut fuel w cs ms :
  length (_masses (layout w)) < fuel → not_cut (order_loop fuel w cs ms).
Proof.
  revert w cs ms. induction fuel as [|fuel IH]; intros w cs ms Hlt; [lia|].
  cbn [order_loop].
  destruct (_constraints (layout w)) as [|c0 cl] eqn:Ec, (_masses (layout w)) as [|m0 ml] eqn:Em;
    [done | ..].
  all: apply bind_not_cut; [apply order_turn_not_cut|]; intros [[w' cs'] ms'] Hturn.
  all: apply order_turn_takes_first in Hturn as (m & rest & E1 & _ & E2).
  all: rewrite Em in E1; [discriminate || (injection E1 as -> ->)..].
  all: apply IH; rewrite E2; cbn [length] in Hlt; lia.
Qed.

Lemma get_mass_not_cut (h : mstore) r : not_cut (get_mass h r).
Proof. by apply of_option_not_cut. Qed.

Lemma placementSuggestion_not_cut h c m : not_cut (placementSuggestion h c m).
Proof.
  destruct c; cbn [placementSuggestion]; repeat case_decide; try done.
  all: repeat (apply bind_not_cut; [apply get_mass_not_cut | intros ? _]); done.
Qed.

Lemma place_step_not_cut h st p : not_cut (place_step h st p).
Proof.
  unfold place_step.
  apply bind_not_cut; [by apply of_option_not_cut|]. intros ref _.
  apply bind_not_cut; [apply get_mass_not_cut|]. intros mr _.
  apply bind_not_cut; [|by intros [? ?] _].
  destruct (s_r p), (s_th p); try done; [|by apply of_option_not_cut].
  apply bind_not_cut; [|done].
  destruct (neqb _ _); [done|].
  apply bind_not_cut; [|done]. unfold la_norm. by destruct (_ && _).
Qed.

Lemma place_mass_not_cut acc m : not_cut (place_mass acc m).
Proof.
  destruct acc as [w cs]. unfold place_mass.
  apply bind_not_cut.
  { apply mapM_not_cut; intros c.
    apply bind_not_cut; [by apply of_option_not_cut | done]. }
  intros both _.
  apply bind_not_cut; [apply mapM_not_cut; intros c; apply placementSuggestion_not_cut|].
  intros ps _.
  apply bind_not_cut.
  { apply mapM_not_cut; intros p.
    apply bind_not_cut; [by apply of_option_not_cut|]. intros r _.
    apply bind_not_cut; [apply get_mass_not_cut | done]. }
  intros named _.
  apply bind_not_cut.
  { apply mapM_not_cut; intros kg. unfold merge_group.
    apply bind_not_cut; [by apply of_option_not_cut | done]. }
  intros ps_merged _.
  apply bind_not_cut; [apply foldM_not_cut; intros; apply place_step_not_cut|].
  intros st _.
  apply bind_not_cut; [apply get_mass_not_cut | done].
Qed.

(** [initialiseState] gives its ordering loop one turn more than there are
    masses: the loop is never cut, and the model returns or raises what the
    program does. *)
Lemma initialiseState_not_cut w : not_cut (initialiseState w).
Proof.
  unfold initialiseState.
  apply bind_not_cut; [apply order_loop_not_cut; lia|]. intros [[w1 cs] ms] _.
  apply bind_not_cut; [|done].
  apply foldM_not_cut. intros; apply place_mass_not_cut.
Qed.

(** C2.  Three masses [a], [b], [c] and one constraint between [a] and [c].
    At the second turn of the ordering loop [b] and [c] are unplaced;
    placing [b] completes no constraint and placing [c] completes one, so
    the mass that completes the most is [c].  The program places [b]: the
    order it computes is the order of insertion. *)
Theorem ordering_ignores_completion_score :
  ∃ w1 w2 cs1 cs2 pending,
    order_world = Ok (order_world_at vzero)
    ∧ order_turn (order_world_at vzero) [] [] = Ok (w1, cs1, [0])
    ∧ _masses (layout w1) = [1; 2]
    ∧ mapM (get_constraint w1) (_constraints (layout w1)) = Ok pending
    ∧ completion_score pending [1; 2] 1 = 0
    ∧ completion_score pending [1; 2] 2 = 1
    ∧ greedy_choice pending [1; 2] = Some 2
    ∧ order_turn w1 cs1 [0] = Ok (w2, cs2, [0; 1])
    ∧ (∃ w3 cs3, order_loop 4 (order_world_at vzero) [] [] = Ok (w3, cs3, [0; 1; 2])).
Proof.
  do 5 eexists.
  split; [exact order_world_eq|].
  split; [run; reflexivity|].
  split; [reflexivity|].
  split; [run; reflexivity|].
  split; [run; reflexivity|].
  split; [run; reflexivity|].
  split; [run; reflexivity|].
  split; [run; reflexivity|].
  do 2 eexists. run. reflexivity.
Qed.


(** ** Ownership of the masses that constraints refer to *)

(** C3.  The layout owns [a] and [b].  [updateConstraints] with a constraint
    between two fresh masses, one named ["a"] and one named ["c"], leaves the
    layout with a constraint whose two masses it does not own, where
    [addConstraint] with the same constraint binds it to the owned mass [a]
    and adds the new mass. *)
Theorem updateConstraints_adds_no_mass :
  ∃ w w' w'',
    retag_world = Ok w ∧ owned w
    ∧ updateConstraints w [1] = Ok w'
    ∧ _constraints (layout w') = [1]
    ∧ _masses (layout w') = [0; 1]
    ∧ constraint_store w' !! 1 = Some (ConstraintDistance 2 3 (Fin 2) (Fin 1) 7)
    ∧ ¬ owned w'
    ∧ addConstraint w 1 = Ok w''
    ∧ _masses (layout w'') = [0; 1; 3]
    ∧ constraint_store w'' !! 1 = Some (ConstraintDistance 0 3 (Fin 2) (Fin 1) 7).
Proof.
  do 3 eexists.
  split; [run; reflexivity|].
  split.
  { intros c k r Hc Hk Hr. cbn in Hc. apply list_elem_of_singleton in Hc as ->.
    cbn in Hk. injection Hk as <-. cbn in Hr |- *.
    repeat (apply elem_of_cons in Hr as [-> | Hr]; [in_list|]). by apply elem_of_nil in Hr. }
  split; [run; reflexivity|].
  split; [reflexivity|].
  split; [reflexivity|].
  split; [reflexivity|].
  split.
  { intros H. specialize (H 1 (ConstraintDistance 2 3 (Fin 2) (Fin 1) 7) 2).
    cbn in H. specialize (H ltac:(in_list) eq_refl ltac:(in_list)).
    repeat (apply elem_of_cons in H as [H | H]; [discriminate|]). by apply elem_of_nil in H. }
  split; [run; reflexivity|].
  split; reflexivity.
Qed.

(** ** Uniqueness of the names of the masses *)

(** C6.  The layout owns a mass named ["a"].  [addMass] with another mass
    object named ["a"] appends it: two masses of the layout share a name. *)
Theorem addMass_admits_duplicate_name :
  ∃ w w',
    twin_world = Ok w ∧ unique_names w
    ∧ addMass w 1 = Ok w'
    ∧ _masses (layout w') = [0; 1]
    ∧ mass_names w' = ["a"; "a"]%string
    ∧ ¬ unique_names w'.
Proof.
  do 2 eexists.
  split; [run; reflexivity|].
  split. { unfold unique_names. run. apply NoDup_singleton. }
  split; [run; reflexivity|].
  split; [reflexivity|].
  split; [reflexivity|].
  unfold unique_names. intros H. change (NoDup ["a"; "a"]%string) in H.
  apply NoDup_cons in H as [H _]. apply H. by left.
Qed.


Local Open Scope R_scope.

(** ** A step of length zero against a mass that is too near *)

Lemma angleWrap_nan : _angleWrap NaN = NaN.
Proof. reflexivity. Qed.

Lemma reflectedDirection_nan s o : _reflectedDirection s nan2 o = NaN.
Proof. unfold _reflectedDirection. nan_simpl. apply angleWrap_nan. Qed.

Lemma reflectedPosition_nan s st d : _reflectedPosition s st nan2 d = nan2.
Proof. unfold _reflectedPosition. nan_simpl. reflexivity. Qed.

Lemma rotateVectorTo_nan v : _rotateVectorTo v NaN = nan2.
Proof. unfold _rotateVectorTo. nan_simpl. reflexivity. Qed.

Lemma distance_pos_nan_l p : distance_pos nan2 p = NaN.
Proof. unfold distance_pos. nan_simpl. reflexivity. Qed.

Lemma distance_pos_nan_r p : distance_pos p nan2 = NaN.
Proof. unfold distance_pos. nan_simpl. reflexivity. Qed.

(** A slope that is [nan] makes the intersection [nan], and raises
    nothing. *)
Lemma fci_of_nan_slope a b c r :
  fci_m a b = NaN → _firstCircleIntersect a b c r = Ok nan2.
Proof.
  intros Hm.
  assert (Hc : fci_c a b = NaN).
  { unfold fci_c. rewrite Hm. destruct (fci_use_vertical a b); nan_simpl; reflexivity. }
  assert (Hqa : fci_quad_a a b = NaN).
  { unfold fci_quad_a. rewrite Hm. nan_simpl. reflexivity. }
  assert (Hd : fci_discriminant a b c r = NaN).
  { unfold fci_discriminant. rewrite Hqa. nan_simpl. reflexivity. }
  assert (Hr1 : fci_root_1 a b c r = NaN).
  { unfold fci_root_1. rewrite Hqa. nan_simpl. reflexivity. }
  assert (Hr2 : fci_root_2 a b c r = NaN).
  { unfold fci_root_2. rewrite Hqa. nan_simpl. reflexivity. }
  assert (Hp : fci_point a b NaN = nan2).
  { unfold fci_point. rewrite Hm, Hc. destruct (fci_use_vertical a b); reflexivity. }
  unfold _firstCircleIntersect, fci_intersect_1, fci_intersect_2.
  rewrite Hd, Hr1, Hr2, Hp. nan_simpl. reflexivity.
Qed.

(** A step of length zero: the line from the mass to where it wants to be
    has no direction, and its slope is [0/0]. *)
Lemma fci_m_same_point (px py sx sy : R) :
  sx = 0 → sy = 0 →
  fci_m (Fin px, Fin py) (vadd (Fin px, Fin py) (Fin sx, Fin sy)) = NaN.
Proof.
  intros -> ->. unfold fci_m, fci_use_vertical, fci_disp.
  cbn [vadd vsub fst snd nadd nsub nopp nabs nlt].
  replace (px + 0 + - px) with 0 by lra. replace (py + 0 + - py) with 0 by lra.
  rewrite Rltb_false by lra. cbn [ndiv]. rewrite !Reqb_true by reflexivity. reflexivity.
Qed.

(** No mass is nearer than the safe distance to a place that is [nan]. *)
Lemma find_unsafe_nan h mass ms :
  (∀ r, r ∈ ms → is_Some (h !! r)) →
  find_unsafe h mass nan2 ms = Ok None.
Proof.
  induction ms as [|r ms IH]; intros Hv; [reflexivity|].
  cbn [find_unsafe]. destruct (decide (r = mass)).
  - apply IH. intros; apply Hv; by right.
  - destruct (Hv r) as [m Hm]; [by left|].
    unfold get_mass. rewrite Hm. cbn [of_option mbind res_bind].
    rewrite distance_pos_nan_l. cbn [nlt].
    apply IH. intros; apply Hv; by right.
Qed.

(** A mass that is asked to stay where it is, within the safe distance of
    another mass [u]: it is sent to [nan], with its velocity and the
    velocity of [u]. *)
Lemma stepSafely_degenerate fuel w mass u m mu px py sx sy :
  the_mass w mass = Ok m → pos m = (Fin px, Fin py) → sx = 0 → sy = 0 →
  find_unsafe (mass_store w) mass (vadd (pos m) (Fin sx, Fin sy)) (_masses (layout w))
    = Ok (Some u) →
  the_mass w u = Ok mu → u ≠ mass →
  (∀ r, r ∈ _masses (layout w) → (r < length (mass_store w))%nat) →
  _stepSafely (S (S fuel)) w mass (Fin sx, Fin sy)
  = Ok (set_mass_store (set_layout w (set_bounced_last_step (layout w) true))
          (<[mass := set_pos (set_vel m nan2) nan2]>
             (<[u := set_vel mu nan2]> (mass_store w)))).
Proof.
  intros Hm Hpos Hsx Hsy Hfind Hmu Hne Hvalid.
  assert (Hlt : (mass < length (mass_store w))%nat).
  { unfold the_mass, get_mass in Hm. destruct (mass_store w !! mass) eqn:E; [|discriminate].
    by eapply lookup_lt_Some. }
  cbn [_stepSafely]. rewrite Hm. cbn [mbind res_bind]. rewrite Hfind. cbn [mbind res_bind].
  rewrite Hmu. cbn [mbind res_bind].
  rewrite Hpos at 1 2. rewrite (fci_of_nan_slope _ _ _ _ (fci_m_same_point px py sx sy Hsx Hsy)).
  cbn [mbind res_bind].
  rewrite !reflectedDirection_nan, !rotateVectorTo_nan, reflectedPosition_nan.
  set (h2 := <[u := set_vel mu nan2]> (<[mass := set_vel m nan2]> (mass_store w))).
  assert (Hh2 : h2 !! mass = Some (set_vel m nan2)).
  { unfold h2. rewrite list_lookup_insert_ne by done.
    apply list_lookup_insert_eq. exact Hlt. }
  unfold upd_mass. rewrite Hh2.
  unfold the_mass, set_mass_store, set_layout. cbn [mass_store layout].
  unfold get_mass. rewrite list_lookup_insert_eq by (unfold h2; rewrite !length_insert; exact Hlt).
  cbn [of_option mbind res_bind pos set_pos].
  replace (vadd nan2 (vsub nan2 nan2)) with nan2 by reflexivity.
  rewrite find_unsafe_nan.
  2:{ intros r Hr. apply lookup_lt_is_Some. unfold h2. rewrite !length_insert. by apply Hvalid. }
  cbn [mbind res_bind mret res_ret]. f_equal. f_equal.
  rewrite list_insert_insert_eq. unfold h2.
  rewrite (list_insert_insert_ne _ mass u) by done.
  rewrite list_insert_insert_eq. rewrite (list_insert_insert_ne _ u mass) by done.
  reflexivity.
Qed.

(** A mass with nothing in its way takes its step. *)
Lemma stepSafely_clear fuel w mass m step :
  the_mass w mass = Ok m →
  find_unsafe (mass_store w) mass (vadd (pos m) step) (_masses (layout w)) = Ok None →
  _stepSafely (S fuel) w mass step
  = Ok (set_mass_store w (<[mass := set_pos m (vadd (pos m) step)]> (mass_store w))).
Proof. intros Hm Hf. cbn [_stepSafely]. rewrite Hm. cbn [mbind res_bind]. by rewrite Hf. Qed.

Lemma distance_pos_same a b c d :
  a = c → b = d → nlt (distance_pos (Fin a, Fin b) (Fin c, Fin d)) SAFE_DISTANCE = true.
Proof.
  intros -> ->. rewrite distance_pos_fin. cbn [nlt SAFE_DISTANCE].
  replace ((c - c) * (c - c) + (d - d) * (d - d)) with 0 by ring.
  rewrite sqrt_0. apply Rltb_true. lra.
Qed.

(** *** What a step does guarantee *)

Lemma nsquare_nsub_sym a b : nsquare (nsub a b) = nsquare (nsub b a).
Proof.
  destruct a, b; try reflexivity.
  cbn [nsub nopp nadd nsquare]. apply (f_equal Fin). ring.
Qed.

Lemma distance_pos_sym a b : distance_pos a b = distance_pos b a.
Proof.
  unfold distance_pos, hypot2, vsub. cbn [fst snd].
  by rewrite (nsquare_nsub_sym a.1), (nsquare_nsub_sym a.2).
Qed.

Lemma not_near_sym w i j : not_near w i j → not_near w j i.
Proof.
  intros H mj mi Hj Hi. unfold _distance. rewrite distance_pos_sym. by apply H.
Qed.

Lemma find_unsafe_None h mass desired ms r mr :
  find_unsafe h mass desired ms = Ok None →
  r ∈ ms → r ≠ mass → h !! r = Some mr →
  nlt (distance_pos desired (pos mr)) SAFE_DISTANCE = false.
Proof.
  intros H Hin Hne Hr. induction ms as [|r' ms IH]; [by apply elem_of_nil in Hin|].
  cbn [find_unsafe] in H. destruct (decide (r' = mass)) as [->|Hr'].
  - apply elem_of_cons in Hin as [->|Hin]; [done | by apply IH].
  - inv_bind H. destruct (nlt (distance_pos desired (pos x)) SAFE_DISTANCE) eqn:E;
      [discriminate|].
    apply elem_of_cons in Hin as [->|Hin]; [|by apply IH].
    unfold get_mass in Hx. rewrite Hr in Hx. injection Hx as <-. exact E.
Qed.

Lemma not_near_same_place w w' i j :
  same_place w w' i → same_place w w' j → not_near w i j → not_near w' i j.
Proof.
  unfold same_place. intros Hi Hj H mi mj Ei Ej. rewrite Ei in Hi. rewrite Ej in Hj.
  destruct (mass_store w !! i) as [mi0|] eqn:Fi; [|discriminate].
  destruct (mass_store w !! j) as [mj0|] eqn:Fj; [|discriminate].
  cbn in Hi, Hj. injection Hi as Hi. injection Hj as Hj.
  unfold _distance. rewrite Hi, Hj. by apply H.
Qed.

Lemma upd_mass_lookup_ne (h : mstore) (r mass : mref) (f : Mass → Mass) :
  r ≠ mass → upd_mass h mass f !! r = h !! r.
Proof.
  intros Hr. unfold upd_mass. destruct (h !! mass); [|done].
  by rewrite list_lookup_insert_ne.
Qed.

(** When [_stepSafely] returns, the mass it has moved is clear of every
    other mass of the layout, and no other mass has moved. *)
Lemma stepSafely_apart fuel w mass step w' :
  _stepSafely fuel w mass step = Ok w' →
  _masses (layout w') = _masses (layout w)
  ∧ (∀ r, r ≠ mass → same_place w w' r)
  ∧ (∀ r, r ∈ _masses (layout w') → r ≠ mass → not_near w' mass r).
Proof.
  revert w step. induction fuel as [|fuel IH]; intros w step H; [discriminate|].
  cbn [_stepSafely] in H. inv_bind H. rename x into m. inv_bind H.
  assert (Hlt : (mass < length (mass_store w))%nat).
  { unfold the_mass, get_mass in Hx. destruct (mass_store w !! mass) eqn:E; [|discriminate].
    by eapply lookup_lt_Some. }
  destruct x as [u|].
  - inv_bind H. rename x into mu. inv_bind H. rename x into intersect.
    apply IH in H as (Hms & Hplace & Hnear). cbn in Hms.
    split; [exact Hms|]. split; [|exact Hnear].
    intros r Hr. specialize (Hplace r Hr). unfold same_place in *. rewrite Hplace.
    cbn [mass_store set_layout set_mass_store]. rewrite upd_mass_lookup_ne by done.
    destruct (decide (r = u)) as [->|Hru].
    + unfold the_mass, get_mass in Hx1.
      destruct (mass_store w !! u) as [mu'|] eqn:Eu; [|discriminate].
      injection Hx1 as ->.
      rewrite list_lookup_insert_eq by (rewrite length_insert; by eapply lookup_lt_Some).
      reflexivity.
    + by rewrite !list_lookup_insert_ne.
  - injection H as <-. cbn [layout mass_store set_mass_store].
    split; [reflexivity|]. split.
    + intros r Hr. unfold same_place. cbn [mass_store set_mass_store].
      by rewrite list_lookup_insert_ne.
    + intros r Hin Hr mi mj Hi Hj. cbn [mass_store set_mass_store] in Hi, Hj.
      rewrite list_lookup_insert_eq in Hi by exact Hlt. injection Hi as <-.
      rewrite list_lookup_insert_ne in Hj by done.
      unfold _distance. cbn [pos set_pos].
      by eapply find_unsafe_None.
Qed.

Lemma imap_pair_snd {A} (g : nat → nat) (l : list A) :
  (imap (λ i x, (g i, x)) l).*2 = l.
Proof.
  revert g. induction l as [|x l IH]; intros g; [done|].
  cbn. f_equal. apply (IH (g ∘ S)).
Qed.

(** The loop of [_pushStateSafely] over the masses: once a mass has had its
    turn it is clear of the masses that had theirs before. *)
Lemma steps_apart fuel (y : list num) (l : list (nat * mref)) :
  ∀ (seen : list mref) (w w' : World),
    foldM (λ w im, let '(i, r) := (im : nat * mref) in
                   d ← slice2 y (i * 4);
                   _stepSafely fuel w r d) w l = Ok w' →
    NoDup (seen ++ l.*2) →
    (∀ r, r ∈ seen ++ l.*2 → r ∈ _masses (layout w)) →
    (∀ i j, i ∈ seen → j ∈ seen → i ≠ j → not_near w i j) →
    _masses (layout w') = _masses (layout w)
    ∧ ∀ i j, i ∈ seen ++ l.*2 → j ∈ seen ++ l.*2 → i ≠ j → not_near w' i j.
Proof.
  induction l as [|[k r] l IH]; intros seen w w' H Hnd Hin Hseen.
  - injection H as <-. cbn [fmap list_fmap]. rewrite app_nil_r. done.
  - cbn [foldM] in H. inv_bind H. rename x into w1. inv_bind Hx.
    apply stepSafely_apart in Hx as (Hms & Hplace & Hnear).
    cbn [fmap list_fmap snd] in *.
    replace (seen ++ r :: l.*2) with ((seen ++ [r]) ++ l.*2) in *
      by (by rewrite <- app_assoc).
    assert (Hr : r ∉ seen).
    { intros Hr. apply NoDup_app in Hnd as (Hnd & _ & _).
      apply NoDup_app in Hnd as (_ & Hnd & _). apply (Hnd r Hr). by left. }
    apply (IH (seen ++ [r])) in H as (Hms' & Hall); [| exact Hnd | by rewrite Hms | ].
    + split; [congruence | exact Hall].
    + intros i j Hi Hj Hij.
      apply elem_of_app in Hi as [Hi|Hi]; apply elem_of_app in Hj as [Hj|Hj].
      * apply (not_near_same_place w); [apply Hplace | apply Hplace | by apply Hseen];
          intros ->; contradiction.
      * apply list_elem_of_singleton in Hj as ->. apply not_near_sym.
        apply Hnear; [|done]. rewrite Hms. apply Hin. apply elem_of_app. left.
        apply elem_of_app. by left.
      * apply list_elem_of_singleton in Hi as ->.
        apply Hnear; [|done]. rewrite Hms. apply Hin. apply elem_of_app. left.
        apply elem_of_app. by left.
      * apply list_elem_of_singleton in Hi as ->. apply list_elem_of_singleton in Hj as ->.
        done.
Qed.

Lemma imap_pair_masses (l : list mref) : (imap pair l).*2 = l.
Proof. exact (imap_pair_snd (λ i, i) l). Qed.

Lemma pushStateSafely_apart fuel w y_a y_b w' :
  NoDup (_masses (layout w)) →
  _pushStateSafely fuel w y_a y_b = Ok w' →
  _masses (layout w') = _masses (layout w)
  ∧ ∀ i j, i ∈ _masses (layout w) → j ∈ _masses (layout w) → i ≠ j → not_near w' i j.
Proof.
  intros Hnd H. unfold _pushStateSafely in H.
  inv_bind H. rename x into w1. inv_bind H. rename x into y_delta. inv_bind H.
  apply pushState_frame in Hx as (Hl & _ & _).
  apply (steps_apart _ _ _ []) in H; cbn [app layout set_mass_store set_layout
                                            set_bounced_last_step _masses] in *.
  - rewrite imap_pair_masses, Hl in H. exact H.
  - by rewrite imap_pair_masses, Hl.
  - intros r. by rewrite imap_pair_masses.
  - intros i j Hi. by apply elem_of_nil in Hi.
Qed.

Lemma integrate_masses w t w' y :
  integrate _stateDerivative w t = Ok (w', y) →
  _masses (layout w') = _masses (layout w).
Proof.
  unfold integrate. intros H.
  apply bind_Ok in H as ([w1 k1] & E1 & H). apply bind_Ok in H as (y2 & _ & H).
  apply bind_Ok in H as ([w2 k2] & E2 & H). apply bind_Ok in H as (y3 & _ & H).
  apply bind_Ok in H as ([w3 k3] & E3 & H). apply bind_Ok in H as (y4 & _ & H).
  apply bind_Ok in H as ([w4 k4] & E4 & H). do 4 inv_bind H.
  injection H as <- _.
  apply stateDerivative_frame in E1 as (E1 & _).
  apply stateDerivative_frame in E2 as (E2 & _).
  apply stateDerivative_frame in E3 as (E3 & _).
  apply stateDerivative_frame in E4 as (E4 & _).
  cbn. congruence.
Qed.

Lemma logEnergy_masses w w' :
  logEnergy w = Ok w' →
  _masses (layout w') = _masses (layout w) ∧ mass_store w' = mass_store w.
Proof.
  unfold logEnergy. intros H.
  destruct (_energy_log (layout w)); [inv_bind H|]; cbn in H; by injection H as <-.
Qed.

Lemma markStateChanged_masses w changed reset w' :
  markStateChanged w changed reset = Ok w' →
  _masses (layout w') = _masses (layout w) ∧ mass_store w' = mass_store w.
Proof.
  unfold markStateChanged. intros H. inv_bind H. rename x into w1.
  apply logEnergy_masses in Hx as [E1 E2].
  assert (H1 : _masses (layout w1) = _masses (layout w) ∧ mass_store w1 = mass_store w).
  { rewrite E1, E2. destruct reset; [unfold resetEnergyLog|]; cbn; [|done].
    by destruct (_energy_log (layout w)). }
  destruct H1 as [<- <-].
  destruct (_post_state_change_fcn (layout w1)); cbn in H; by injection H as <-.
Qed.

(** When [step] returns, no two distinct masses of the layout compare
    nearer than the safe distance. *)
Lemma step_never_near fuel w w' :
  NoDup (_masses (layout w)) →
  step fuel w = Ok w' →
  _masses (layout w') = _masses (layout w)
  ∧ ∀ i j, i ∈ _masses (layout w') → j ∈ _masses (layout w') → i ≠ j → not_near w' i j.
Proof.
  intros Hnd H. unfold step in H. inv_bind H. rename x into w0.
  assert (H0 : _masses (layout w0) = _masses (layout w)).
  { destruct (_system_changed (layout w)); [|by injection Hx as <-].
    unfold reseed in Hx. inv_bind Hx. by injection Hx as <-. }
  unfold step_integrate in H. inv_bind H. destruct x as [w1 state_next].
  inv_bind H. rename x into w2.
  apply integrate_masses in Hx0.
  apply pushStateSafely_apart in Hx1 as (E2 & Hall);
    cbn [layout set_layout _masses set_log_a] in *; [|congruence].
  apply markStateChanged_masses in H as (E3 & E4).
  split; [congruence|].
  intros i j Hi Hj Hij mi mj. rewrite E4. apply Hall; congruence.
Qed.

(** So the barrier holds after [step] unless a distance has become [nan]. *)
Lemma step_safe_unless_nan fuel w w' :
  NoDup (_masses (layout w)) →
  step fuel w = Ok w' →
  (∀ i j mi mj, i ∈ _masses (layout w') → j ∈ _masses (layout w') →
                mass_store w' !! i = Some mi → mass_store w' !! j = Some mj →
                _distance mi mj ≠ NaN) →
  safe_apart (Fin 0) w'.
Proof.
  intros Hnd H Hnan i j mi mj Hi Hj Hij Ei Ej.
  destruct (step_never_near _ _ _ Hnd H) as [_ Hall].
  specialize (Hall i j Hi Hj Hij mi mj Ei Ej). specialize (Hnan i j mi mj Hi Hj Ei Ej).
  destruct (_distance mi mj) as [d| | |]; try done.
  cbn [SAFE_DISTANCE nsub nopp nadd nle nlt] in *.
  unfold Rltb in *. destruct (Rlt_dec d 0.2); [discriminate|].
  destruct (Rlt_dec d (0.2 + - 0)); [lra | reflexivity].
Qed.

Ltac run_to_step :=
  cbv -[Rplus Rmult Ropp Rinv Rminus Rdiv IZR Q2R sqrt cos sin atan Rabs Int_part PI
        Rltb Reqb _stepSafely].
Ltac run_to_distance :=
  cbv -[Rplus Rmult Ropp Rinv Rminus Rdiv IZR Q2R sqrt cos sin atan Rabs Int_part PI
        Rltb Reqb distance_pos SAFE_DISTANCE nlt].

(** *** One step of the two masses on the same spot *)

Lemma pair_world_eq fx :
  pair_world fx = Ok (pair_state (first_mass fx) (new_Mass "b" None None None)
                        true false [] [] (Fin 0)).
Proof. destruct fx; run; reflexivity. Qed.

Lemma pair_reseed fx :
  reseed (pair_state (first_mass fx) (new_Mass "b" None None None) true false [] [] (Fin 0))
  = Ok (pair_state (first_mass fx) (new_Mass "b" None None None)
          false false [] zeros8 (Fin 0)).
Proof. destruct fx; run; reflexivity. Qed.

Lemma pair_integrate fx :
  integrate _stateDerivative
    (pair_state (first_mass fx) (new_Mass "b" None None None) false false [] zeros8 (Fin 0))
    (Fin 0 + INTEGRATION_DT)%num
  = Ok (pair_state (first_mass fx) (new_Mass "b" None None None)
          false false [] zeros8 (Fin 0.1), zeros8).
Proof. destruct fx; run; fin_eq. Qed.

Lemma pair_push fx :
  _pushStateSafely 2
    (pair_state (first_mass fx) (new_Mass "b" None None None)
       false false [Fin 0.1] zeros8 (Fin 0.1))
    zeros8 zeros8
  = Ok (pair_state (first_mass_after fx) second_mass_after
          false true [Fin 0.1] zeros8 (Fin 0.1)).
Proof.
  destruct fx.
  all: run_to_step.
  all: erewrite (stepSafely_degenerate 0 _ 0%nat 1%nat _ _ 0 0 (0 + - 0) (0 + - 0));
    [ | reflexivity | reflexivity | lra | lra | | reflexivity | lia | ].
  all: try (erewrite stepSafely_clear; [ | reflexivity | ];
            [run; fin_eq | run_to_distance; rewrite (distance_pos_nan_r (_, _)); reflexivity]).
  all: try (run_to_distance; rewrite distance_pos_same by lra; reflexivity).
  all: intros r Hr; cbn in Hr |- *;
    repeat (apply elem_of_cons in Hr as [-> | Hr]; [lia|]); by apply elem_of_nil in Hr.
Qed.

Lemma pair_step fx :
  step 2 (pair_state (first_mass fx) (new_Mass "b" None None None) true false [] [] (Fin 0))
  = Ok (pair_state (first_mass_after fx) second_mass_after
          true true [Fin 0.1] zeros8 (Fin 0.1)).
Proof.
  unfold step.
  change (_system_changed (layout (pair_state _ _ true false [] [] (Fin 0)))) with true.
  cbn match. rewrite pair_reseed. cbn [mbind res_bind].
  unfold step_integrate.
  change (ode_t (_ode (layout (pair_state (first_mass fx) (new_Mass "b" None None None)
                                 false false [] zeros8 (Fin 0))))) with (Fin 0).
  rewrite pair_integrate. cbn [mbind res_bind].
  change (ode_y (_ode (layout (pair_state (first_mass fx) (new_Mass "b" None None None)
                                 false false [] zeros8 (Fin 0))))) with zeros8.
  change (set_layout _ _)
    with (pair_state (first_mass fx) (new_Mass "b" None None None)
            false false [Fin 0.1] zeros8 (Fin 0.1)).
  rewrite pair_push. cbn [mbind res_bind]. destruct fx; run; reflexivity.
Qed.

(** C1.  Two free masses at rest on the same spot, bound by no constraint.
    [step] returns; the first mass is then at [(nan, nan)], its distance to
    the second is [nan], and [nan >= d_safe - eps] holds for no tolerance
    [eps]. *)
Theorem step_breaks_safe_distance :
  ∃ w w',
    pair_world false = Ok w ∧ step 2 w = Ok w'
    ∧ _masses (layout w') = [0; 1]%nat
    ∧ (∃ m0 m1, mass_store w' !! 0%nat = Some m0 ∧ mass_store w' !! 1%nat = Some m1
                ∧ pos m0 = nan2 ∧ _distance m0 m1 = NaN)
    ∧ ∀ eps, ¬ safe_apart eps w'.
Proof.
  do 2 eexists.
  split; [apply pair_world_eq|]. split; [apply pair_step|].
  split; [reflexivity|]. split.
  - do 2 eexists. do 3 (split; [reflexivity|]). reflexivity.
  - intros eps H.
    specialize (H 0%nat 1%nat (first_mass_after false) second_mass_after).
    cbn in H. specialize (H ltac:(in_list) ltac:(in_list) ltac:(lia) eq_refl eq_refl).
    change (_distance (first_mass_after false) second_mass_after) with NaN in H.
    rewrite nle_nan_r in H. discriminate.
Qed.

(** C4.  A fixed mass and a free mass at rest on the same spot.  [step]
    returns; the fixed mass, which was at the origin with no velocity, is
    then at [(nan, nan)] with the velocity [(nan, nan)]. *)
Theorem step_moves_fixed_mass :
  ∃ w w' m m',
    pair_world true = Ok w ∧ step 2 w = Ok w'
    ∧ mass_store w !! 0%nat = Some m ∧ fixed m = true
    ∧ pos m = vzero ∧ vel m = vzero ∧ acc m = vzero
    ∧ mass_store w' !! 0%nat = Some m' ∧ fixed m' = true
    ∧ pos m' = nan2 ∧ vel m' = nan2 ∧ pos m' ≠ pos m ∧ vel m' ≠ vel m.
Proof.
  do 4 eexists.
  split; [apply pair_world_eq|]. split; [apply pair_step|].
  do 9 (split; [reflexivity|]).
  split; discriminate.
Qed.

(** * Further properties of the layout *)

(** ** Distances and unit vectors *)

Lemma sqrt_sum_squares_zero x y : sqrt (x * x + y * y) = 0 ↔ x = 0 ∧ y = 0.
Proof.
  split.
  - intros H. apply sqrt_eq_0 in H; [|apply sum_squares_nonneg]. split; nra.
  - intros [-> ->]. replace (0 * 0 + 0 * 0) with 0 by ring. apply sqrt_0.
Qed.

Lemma sqrt_sum_squares_pos x y : ¬ (x = 0 ∧ y = 0) → 0 < sqrt (x * x + y * y).
Proof.
  intros H. pose proof (sqrt_pos (x * x + y * y)) as Hp.
  destruct (Req_dec (sqrt (x * x + y * y)) 0) as [Hz|Hz]; [|lra].
  apply sqrt_sum_squares_zero in Hz. contradiction.
Qed.

(** X1.  [_distance] does not depend on the order of the two masses and is
    never negative.  Between two finite positions it is the Euclidean
    distance, a finite number that is zero exactly when the positions are
    the same. *)
Theorem distance_symmetric_nonnegative (a b ma mb : Mass) (p q : R * R) :
  _distance a b = _distance b a
  ∧ nlt (_distance a b) (Fin 0) = false
  ∧ _distance (set_pos ma (fin2 p)) (set_pos mb (fin2 q)) = Fin (Rdist q p)
  ∧ 0 <= Rdist q p
  ∧ (Rdist q p = 0 ↔ p = q).
Proof.
  split; [unfold _distance; apply distance_pos_sym|].
  split.
  { unfold _distance, distance_pos, hypot2.
    destruct (nsquare (vsub (pos a) (pos b)).1 + nsquare (vsub (pos a) (pos b)).2)%num
      as [s| | |] eqn:E; cbn [nsqrt]; try reflexivity.
    destruct (Rltb s 0); [reflexivity|]. cbn [nlt]. apply Rltb_false.
    pose proof (sqrt_pos s). lra. }
  split; [unfold _distance, fin2; cbn [pos set_pos]; apply distance_pos_fin|].
  split; [apply sqrt_pos|].
  unfold Rdist. rewrite sqrt_sum_squares_zero. destruct p as [px py], q as [qx qy].
  cbn [fst snd]. split.
  - intros [? ?]. f_equal; lra.
  - intros [= -> ->]. lra.
Qed.

(** X2.  [_uv]: for two masses on the same spot the fallback [(1, 0)]; for
    two different finite positions a vector of length one that, scaled by
    the distance, is the difference of the positions, and that is reversed
    when the masses are swapped. *)
Theorem uv_is_unit_vector (ma mb : Mass) (p q : R * R) :
  let a := set_pos ma (fin2 p) in
  let b := set_pos mb (fin2 q) in
  _uv a (set_pos mb (fin2 p)) = (Fin 1, Fin 0)
  ∧ (p ≠ q →
     hypot2 (_uv a b) = Fin 1
     ∧ vscale (_distance a b) (_uv a b) = vsub (pos a) (pos b)
     ∧ _uv b a = vopp (_uv a b)).
Proof.
  destruct p as [px py], q as [qx qy]. cbn zeta. unfold _uv, _distance, fin2, array_equal.
  cbn [pos set_pos fst snd neqb]. split.
  - by rewrite !Reqb_true.
  - intros Hne.
    assert (Hd : ¬ (px - qx = 0 ∧ py - qy = 0)).
    { intros [? ?]. apply Hne. f_equal; lra. }
    assert (Hd' : ¬ (qx - px = 0 ∧ qy - py = 0)).
    { intros [? ?]. apply Hne. f_equal; lra. }
    assert (Hab : Reqb px qx && Reqb py qy = false).
    { unfold Reqb. destruct (Req_dec_T px qx), (Req_dec_T py qy); try reflexivity.
      exfalso. apply Hne. by f_equal. }
    assert (Hba : Reqb qx px && Reqb qy py = false).
    { unfold Reqb. destruct (Req_dec_T qx px), (Req_dec_T qy py); try reflexivity.
      exfalso. apply Hne. by f_equal. }
    rewrite Hab, Hba. unfold vsub. cbn [fst snd nsub nadd nopp].
    fold (Rminus px qx) (Rminus py qy) (Rminus qx px) (Rminus qy py).
    rewrite !hypot2_fin, distance_pos_fin.
    pose proof (sqrt_sum_squares_pos _ _ Hd) as Hs.
    pose proof (sqrt_sum_squares_pos _ _ Hd') as Hs'.
    assert (Hss : sqrt ((qx - px) * (qx - px) + (qy - py) * (qy - py))
                  = sqrt ((px - qx) * (px - qx) + (py - qy) * (py - qy))) by (f_equal; ring).
    rewrite Hss in *. clear Hss Hs'.
    set (s := sqrt ((px - qx) * (px - qx) + (py - qy) * (py - qy))) in *.
    assert (Hsq : s * s = (px - qx) * (px - qx) + (py - qy) * (py - qy)).
    { apply sqrt_sqrt, sum_squares_nonneg. }
    unfold vdivs, vscale, vopp. cbn [fst snd].
    rewrite !ndiv_fin by lra. cbn [nmul nopp]. rewrite hypot2_fin.
    split; [|split].
    + apply (f_equal Fin).
      replace ((px - qx) / s * ((px - qx) / s) + (py - qy) / s * ((py - qy) / s))
        with (((px - qx) * (px - qx) + (py - qy) * (py - qy)) / (s * s)) by (field; lra).
      rewrite <- Hsq. replace (s * s / (s * s)) with 1 by (field; lra). apply sqrt_1.
    + f_equal; apply (f_equal Fin); field; lra.
    + f_equal; apply (f_equal Fin); field; lra.
Qed.

Lemma uv_is_unit_vector_witness :
  hypot2 (_uv (set_pos (new_Mass "a" None None None) (fin2 (3, 4)))
              (set_pos (new_Mass "b" None None None) (fin2 (0, 0)))) = Fin 1.
Proof.
  apply (proj2 (uv_is_unit_vector (new_Mass "a" None None None)
                  (new_Mass "b" None None None) (3, 4) (0, 0))).
  intros [= H _]. lra.
Defined.

(** ** Angles *)

Lemma Int_part_shift (x : R) (n : Z) : Int_part (x + IZR n) = (Int_part x + n)%Z.
Proof.
  symmetry. apply Int_part_spec. rewrite plus_IZR.
  destruct (base_Int_part x). lra.
Qed.

Lemma Rfloor_mod_shift (a b : R) (n : Z) :
  b ≠ 0 → Rfloor_mod (a + b * IZR n) b = Rfloor_mod a b.
Proof.
  intros Hb. unfold Rfloor_mod.
  replace ((a + b * IZR n) / b) with (a / b + IZR n) by (field; exact Hb).
  rewrite Int_part_shift, plus_IZR. ring.
Qed.

(** X3.  [_angleWrap] moves a real angle by a whole number of turns, gives
    the same result for two angles that differ by whole turns, and leaves an
    angle of [[-pi, pi)] as it is; an angle that is no number ([nan] or an
    infinity) is wrapped to [nan]. *)
Theorem angleWrap_whole_turns (x : R) (n : Z) :
  (∃ k : Z, _angleWrap (Fin x) = Fin (x - 2 * PI * IZR k))
  ∧ _angleWrap (Fin (x + 2 * PI * IZR n)) = _angleWrap (Fin x)
  ∧ (- PI <= x < PI → _angleWrap (Fin x) = Fin x)
  ∧ _angleWrap NaN = NaN ∧ _angleWrap PInf = NaN ∧ _angleWrap NInf = NaN.
Proof.
  pose proof PI_RGT_0 as Hpi.
  split; [|split; [|split]].
  - exists (Int_part ((x + PI) / (2 * PI))). rewrite angleWrap_fin.
    apply (f_equal Fin). unfold Rfloor_mod. ring.
  - rewrite !angleWrap_fin. apply (f_equal Fin).
    replace (x + 2 * PI * IZR n + PI) with (x + PI + 2 * PI * IZR n) by ring.
    rewrite Rfloor_mod_shift by lra. reflexivity.
  - intros Hx. rewrite angleWrap_fin. apply (f_equal Fin).
    rewrite Rfloor_mod_small by lra. ring.
  - repeat split; reflexivity.
Qed.

Lemma angleWrap_whole_turns_witness : _angleWrap (Fin 0) = Fin 0.
Proof.
  apply (angleWrap_whole_turns 0 0). pose proof PI_RGT_0. lra.
Defined.

(** ** Rotations and reflections *)

Lemma sqrt_square_nonneg r : 0 <= r → sqrt (r * r) = r.
Proof. intros Hr. apply sqrt_square. exact Hr. Qed.

Lemma cos_sin_square t : cos t * cos t + sin t * sin t = 1.
Proof. pose proof (sin2_cos2 t) as H. unfold Rsqr in H. lra. Qed.

Lemma hypot2_polar r t : hypot2 (Fin (r * cos t), Fin (r * sin t)) = Fin (Rabs r).
Proof.
  rewrite hypot2_fin. apply (f_equal Fin).
  replace (r * cos t * (r * cos t) + r * sin t * (r * sin t))
    with (r * r * (cos t * cos t + sin t * sin t)) by ring.
  rewrite cos_sin_square, Rmult_1_r. fold (Rsqr r). apply sqrt_Rsqr_abs.
Qed.

(** X4.  [_rotateVectorTo] keeps the length of a finite vector, and rotating
    twice is rotating once to the last angle. *)
Theorem rotateVectorTo_keeps_length (v : R * R) (angle angle' : R) :
  hypot2 (_rotateVectorTo (fin2 v) (Fin angle)) = hypot2 (fin2 v)
  ∧ _rotateVectorTo (_rotateVectorTo (fin2 v) (Fin angle)) (Fin angle')
    = _rotateVectorTo (fin2 v) (Fin angle').
Proof.
  assert (H : hypot2 (_rotateVectorTo (fin2 v) (Fin angle)) = hypot2 (fin2 v)).
  { unfold _rotateVectorTo, fin2. rewrite hypot2_fin. cbn [ncos nsin nmul].
    rewrite hypot2_polar. apply (f_equal Fin). apply Rabs_pos_eq, sqrt_pos. }
  split; [exact H|].
  unfold _rotateVectorTo at 1 3. by rewrite H.
Qed.

(** X5.  [_reflectedPosition]: when the step is at least as long as the way
    from the start to the point of reflection, the returned point lies
    beyond the point of reflection by what is left of the step, so the path
    through the point of reflection is as long as the step. *)
Theorem reflectedPosition_spends_the_step (start_point step reflect_point : R * R)
    (reflect_direction : R) :
  Rdist start_point reflect_point <= Rdist (0, 0) step →
  ∃ q : R * R,
    _reflectedPosition (fin2 start_point) (fin2 step) (fin2 reflect_point)
      (Fin reflect_direction) = fin2 q
    ∧ Rdist start_point reflect_point + Rdist reflect_point q = Rdist (0, 0) step.
Proof.
  intros Hlen. destruct start_point as [sx sy], step as [dx dy], reflect_point as [rx ry].
  unfold _reflectedPosition, fin2, vsub, vadd, vscale. cbn [fst snd nsub nadd nopp].
  rewrite !hypot2_fin. cbn [ncos nsin nmul nadd nopp nsub].
  eexists (_, _). split; [reflexivity|].
  unfold Rdist in *. cbn [fst snd] in *.
  set (L := sqrt (dx * dx + dy * dy)).
  set (d := sqrt ((rx + - sx) * (rx + - sx) + (ry + - sy) * (ry + - sy))).
  assert (HL : L = sqrt ((dx - 0) * (dx - 0) + (dy - 0) * (dy - 0))) by (unfold L; f_equal; ring).
  assert (Hd : d = sqrt ((rx - sx) * (rx - sx) + (ry - sy) * (ry - sy)))
    by (unfold d; f_equal; ring).
  rewrite <- HL, <- Hd in *.
  replace ((rx + (L + - d) * cos reflect_direction - rx)
           * (rx + (L + - d) * cos reflect_direction - rx)
           + (ry + (L + - d) * sin reflect_direction - ry)
             * (ry + (L + - d) * sin reflect_direction - ry))
    with ((L - d) * (L - d)
          * (cos reflect_direction * cos reflect_direction
             + sin reflect_direction * sin reflect_direction)) by ring.
  rewrite cos_sin_square, Rmult_1_r, sqrt_square_nonneg by lra. ring.
Qed.

Lemma reflectedPosition_spends_the_step_witness :
  ∃ q : R * R,
    _reflectedPosition (fin2 (0, 0)) (fin2 (2, 0)) (fin2 (1, 0)) (Fin 0) = fin2 q
    ∧ Rdist (0, 0) (1, 0) + Rdist (1, 0) q = Rdist (0, 0) (2, 0).
Proof.
  apply (reflectedPosition_spends_the_step (0, 0) (2, 0) (1, 0) 0).
  unfold Rdist. cbn [fst snd].
  replace ((1 - 0) * (1 - 0) + (0 - 0) * (0 - 0)) with (1 * 1) by ring.
  replace ((2 - 0) * (2 - 0) + (0 - 0) * (0 - 0)) with (2 * 2) by ring.
  rewrite !sqrt_square by lra. lra.
Defined.

(** ** The angle of a vector *)

Lemma sqrt_one_plus_square x y :
  x ≠ 0 → sqrt (x * x + y * y) = Rabs x * sqrt (1 + (y / x)²).
Proof.
  intros Hx. rewrite <- sqrt_Rsqr_abs, <- sqrt_mult.
  - f_equal. unfold Rsqr. field. exact Hx.
  - apply Rle_0_sqr.
  - pose proof (Rle_0_sqr (y / x)). lra.
Qed.

Lemma atan_quotient x y :
  x ≠ 0 →
  cos (atan (y / x)) = Rabs x / sqrt (x * x + y * y)
  ∧ sin (atan (y / x)) = y / x * Rabs x / sqrt (x * x + y * y).
Proof.
  intros Hx. rewrite cos_atan, sin_atan, (sqrt_one_plus_square x y Hx).
  assert (0 < Rabs x) by (by apply Rabs_pos_lt).
  assert (0 < sqrt (1 + (y / x)²)).
  { apply sqrt_lt_R0. pose proof (Rle_0_sqr (y / x)). lra. }
  split; field; split; lra.
Qed.

(** [atan2] gives the direction of the vector [(x, y)], as an angle of
    [(-pi, pi]]. *)
Lemma Ratan2_polar (y x : R) :
  ¬ (x = 0 ∧ y = 0) →
  - PI < Ratan2 y x <= PI
  ∧ cos (Ratan2 y x) = x / sqrt (x * x + y * y)
  ∧ sin (Ratan2 y x) = y / sqrt (x * x + y * y).
Proof.
  intros Hne. pose proof PI_RGT_0 as Hpi.
  assert (Hs : 0 < sqrt (x * x + y * y)).
  { pose proof (sqrt_pos (x * x + y * y)).
    destruct (Req_dec (sqrt (x * x + y * y)) 0) as [Hz|Hz]; [|lra].
    apply sqrt_eq_0 in Hz; [|nra]. exfalso. apply Hne. split; nra. }
  unfold Ratan2, Rltb.
  destruct (Rlt_dec 0 x) as [Hx|Hx].
  - destruct (atan_quotient x y) as [Hc Hsn]; [lra|].
    rewrite Rabs_pos_eq in Hc, Hsn by lra.
    pose proof (atan_bound (y / x)).
    split; [lra|]. rewrite Hc, Hsn. split; [reflexivity | field; lra].
  - destruct (Rlt_dec x 0) as [Hx'|Hx'].
    + destruct (atan_quotient x y) as [Hc Hsn]; [lra|].
      rewrite Rabs_left in Hc, Hsn by lra.
      pose proof (atan_bound (y / x)) as Hb.
      destruct (Rlt_dec y 0) as [Hy|Hy].
      * assert (0 < atan (y / x)).
        { rewrite <- atan_0. apply atan_increasing.
          replace (y / x) with ((- y) * / (- x)) by (field; lra).
          apply Rmult_lt_0_compat; [lra|]. apply Rinv_0_lt_compat. lra. }
        split; [lra|].
        rewrite cos_minus, sin_minus, cos_PI, sin_PI, Hc, Hsn. split; field; lra.
      * assert (atan (y / x) <= 0).
        { destruct (Req_dec y 0) as [->|Hy0].
          - replace (0 / x) with 0 by (field; lra). rewrite atan_0. lra.
          - left. rewrite <- atan_0. apply atan_increasing.
            replace (y / x) with (- (y * / (- x))) by (field; lra).
            assert (0 < y * / (- x)); [|lra].
            apply Rmult_lt_0_compat; [lra|]. apply Rinv_0_lt_compat. lra. }
        split; [lra|].
        rewrite neg_cos, neg_sin, Hc, Hsn. split; field; lra.
    + assert (x = 0) as -> by lra.
      replace (0 * 0 + y * y) with (y * y) in * by ring.
      destruct (Rlt_dec 0 y) as [Hy|Hy].
      * rewrite sqrt_square by lra. rewrite cos_PI2, sin_PI2.
        split; [lra|]. split; field; lra.
      * destruct (Rlt_dec y 0) as [Hy'|Hy']; [|exfalso; apply Hne; split; lra].
        replace (y * y) with ((- y) * (- y)) by ring. rewrite sqrt_square by lra.
        rewrite cos_neg, sin_neg, cos_PI2, sin_PI2.
        split; [lra|]. split; field; lra.
Qed.

(** X6.  The angle of a mass [a] relative to a mass [b] at another finite
    position is an angle [th] of [[-pi, pi)] in whose direction [a] lies: [a]
    is at [b + d (cos th, sin th)], where [d] is their distance. *)
Theorem angle_points_to_mass (ma mb : Mass) (p q : R * R) :
  p ≠ q →
  ∃ th : R,
    _angle (set_pos ma (fin2 p)) (set_pos mb (fin2 q)) None = Fin th
    ∧ - PI <= th < PI
    ∧ p.1 = q.1 + Rdist q p * cos th
    ∧ p.2 = q.2 + Rdist q p * sin th.
Proof.
  intros Hne. destruct p as [px py], q as [qx qy]. pose proof PI_RGT_0 as Hpi.
  assert (Hd : ¬ (px - qx = 0 ∧ py - qy = 0)).
  { intros [? ?]. apply Hne. f_equal; lra. }
  destruct (Ratan2_polar (py - qy) (px - qx) Hd) as (Hrange & Hc & Hsn).
  unfold _angle, fin2, vsub. cbn [pos set_pos fst snd nsub nadd nopp narctan2].
  fold (Rminus px qx) (Rminus py qy).
  set (t := Ratan2 (py - qy) (px - qx)) in *.
  unfold Rdist. cbn [fst snd].
  pose proof (sqrt_sum_squares_pos _ _ Hd) as Hs.
  rewrite angleWrap_fin.
  destruct (Req_dec t PI) as [Ht|Ht].
  - exists (- PI). rewrite Ht in *.
    replace (PI + PI) with (0 + 2 * PI * IZR 1) by (simpl; ring).
    rewrite Rfloor_mod_shift by lra.
    rewrite Rfloor_mod_small by lra.
    split; [apply (f_equal Fin); ring|]. split; [lra|].
    rewrite cos_neg, sin_neg, cos_PI, sin_PI. rewrite cos_PI in Hc. rewrite sin_PI in Hsn.
    set (s := sqrt ((px - qx) * (px - qx) + (py - qy) * (py - qy))) in *.
    assert (px - qx = -1 * s) by (rewrite Hc; field; lra).
    assert (py - qy = 0 * s) by (rewrite Hsn; field; lra).
    split; lra.
  - exists t. rewrite Rfloor_mod_small by lra.
    split; [apply (f_equal Fin); ring|]. split; [lra|].
    set (s := sqrt ((px - qx) * (px - qx) + (py - qy) * (py - qy))) in *.
    assert (px - qx = cos t * s) by (rewrite Hc; field; lra).
    assert (py - qy = sin t * s) by (rewrite Hsn; field; lra).
    split; lra.
Qed.

(** ** The direction of a reflection *)

Lemma cos_sin_turns (x : R) (k : Z) :
  cos (x - 2 * PI * IZR k) = cos x ∧ sin (x - 2 * PI * IZR k) = sin x.
Proof.
  destruct (Z_le_gt_dec 0 k) as [Hk|Hk].
  - rewrite <- (Z2Nat.id k Hk), <- INR_IZR_INZ.
    set (n := Z.to_nat k). set (y := x - 2 * PI * INR n).
    replace x with (y + 2 * INR n * PI) by (unfold y; ring).
    by rewrite cos_period, sin_period.
  - assert (Hn : (0 <= - k)%Z) by lia.
    replace (IZR k) with (- IZR (- k)) by (rewrite opp_IZR; ring).
    rewrite <- (Z2Nat.id (- k) Hn), <- INR_IZR_INZ.
    set (n := Z.to_nat (- k)).
    replace (x - 2 * PI * - INR n) with (x + 2 * INR n * PI) by ring.
    by rewrite cos_period, sin_period.
Qed.

(** The reflection of a unit vector [(a, b)] at the line that is orthogonal
    to the unit vector [(u, v)]. *)
Lemma mirror_algebra (a b u v : R) :
  u * u + v * v = 1 →
  (- u) * (a * u + b * v) + (- v) * (b * u - a * v) = a - 2 * (a * u + b * v) * u
  ∧ (- v) * (a * u + b * v) - (- u) * (b * u - a * v) = b - 2 * (a * u + b * v) * v.
Proof.
  intros H. split.
  - transitivity (a * (u * u + v * v) - 2 * (a * u + b * v) * u); [ring|].
    rewrite H. ring.
  - transitivity (b * (u * u + v * v) - 2 * (a * u + b * v) * v); [ring|].
    rewrite H. ring.
Qed.

Lemma unit_components (x y : R) :
  ¬ (x = 0 ∧ y = 0) →
  x / sqrt (x * x + y * y) * (x / sqrt (x * x + y * y))
  + y / sqrt (x * x + y * y) * (y / sqrt (x * x + y * y)) = 1.
Proof.
  intros Hne. pose proof (sqrt_sum_squares_pos x y Hne) as Hs.
  pose proof (sqrt_sqrt (x * x + y * y) (sum_squares_nonneg x y)) as Hq.
  set (d := sqrt (x * x + y * y)) in *.
  transitivity ((x * x + y * y) / (d * d)); [field; lra|].
  rewrite Hq. field. rewrite <- Hq. nra.
Qed.

(** X7.  [_reflectedDirection] obeys the law of reflection.  For a start
    point and a centre that both differ from the point of reflection, the
    returned direction is an angle of [[-pi, pi)], and its unit vector is the
    unit vector of the incoming way, from the start to the point of
    reflection, mirrored at the tangent: its component along the line to the
    centre is reversed and the other one is kept. *)
Theorem reflectedDirection_is_mirror (s p o : R * R) :
  s ≠ p → o ≠ p →
  let nx := (o.1 - p.1) / Rdist p o in
  let ny := (o.2 - p.2) / Rdist p o in
  let ix := (p.1 - s.1) / Rdist s p in
  let iy := (p.2 - s.2) / Rdist s p in
  ∃ th : R,
    _reflectedDirection (fin2 s) (fin2 p) (fin2 o) = Fin th
    ∧ - PI <= th < PI
    ∧ cos th = ix - 2 * (ix * nx + iy * ny) * nx
    ∧ sin th = iy - 2 * (ix * nx + iy * ny) * ny.
Proof.
  destruct s as [s1 s2], p as [p1 p2], o as [o1 o2]. intros Hs Ho.
  cbv zeta. unfold Rdist. cbn [fst snd].
  set (nx := (o1 - p1) / sqrt ((o1 - p1) * (o1 - p1) + (o2 - p2) * (o2 - p2))).
  set (ny := (o2 - p2) / sqrt ((o1 - p1) * (o1 - p1) + (o2 - p2) * (o2 - p2))).
  set (ix := (p1 - s1) / sqrt ((p1 - s1) * (p1 - s1) + (p2 - s2) * (p2 - s2))).
  set (iy := (p2 - s2) / sqrt ((p1 - s1) * (p1 - s1) + (p2 - s2) * (p2 - s2))).
  pose proof PI_RGT_0 as Hpi.
  assert (Hr : ¬ (o1 - p1 = 0 ∧ o2 - p2 = 0)).
  { intros [H1 H2]. apply Ho. f_equal; lra. }
  assert (Hi : ¬ (p1 - s1 = 0 ∧ p2 - s2 = 0)).
  { intros [H1 H2]. apply Hs. f_equal; lra. }
  assert (Hr' : ¬ (- (o1 - p1) = 0 ∧ - (o2 - p2) = 0)) by (intros [? ?]; apply Hr; lra).
  destruct (Ratan2_polar (o2 - p2) (o1 - p1) Hr) as (_ & HcB & HsB).
  destruct (Ratan2_polar (- (o2 - p2)) (- (o1 - p1)) Hr') as (_ & HcA & HsA).
  destruct (Ratan2_polar (p2 - s2) (p1 - s1) Hi) as (_ & HcC & HsC).
  replace (- (o1 - p1) * - (o1 - p1) + - (o2 - p2) * - (o2 - p2))
    with ((o1 - p1) * (o1 - p1) + (o2 - p2) * (o2 - p2)) in HcA, HsA by ring.
  pose proof (sqrt_sum_squares_pos _ _ Hr) as Hdr.
  pose proof (unit_components _ _ Hr) as Hu.
  fold nx ny in Hu.
  set (A := Ratan2 (- (o2 - p2)) (- (o1 - p1))) in *.
  set (B := Ratan2 (o2 - p2) (o1 - p1)) in *.
  set (C := Ratan2 (p2 - s2) (p1 - s1)) in *.
  unfold _reflectedDirection, fin2, vsub. cbn [fst snd nsub nadd nopp narctan2].
  fold A B C.
  rewrite angleWrap_fin.
  set (x := A + - (C + - B)).
  exists (Rfloor_mod (x + PI) (2 * PI) - PI).
  split; [reflexivity|].
  destruct (Rfloor_mod_range (x + PI) (2 * PI)) as [H0 H1]; [lra|].
  split; [lra|].
  replace (Rfloor_mod (x + PI) (2 * PI) - PI)
    with (x - 2 * PI * IZR (Int_part ((x + PI) / (2 * PI))))
    by (unfold Rfloor_mod; ring).
  destruct (cos_sin_turns x (Int_part ((x + PI) / (2 * PI)))) as [-> ->].
  unfold x. replace (A + - (C + - B)) with (A - (C - B)) by ring.
  rewrite (cos_minus A (C - B)), (sin_minus A (C - B)), (cos_minus C B), (sin_minus C B).
  rewrite HcA, HsA, HcB, HsB, HcC, HsC.
  fold nx ny ix iy.
  replace (- (o1 - p1) / sqrt ((o1 - p1) * (o1 - p1) + (o2 - p2) * (o2 - p2)))
    with (- nx) by (unfold nx; field; lra).
  replace (- (o2 - p2) / sqrt ((o1 - p1) * (o1 - p1) + (o2 - p2) * (o2 - p2)))
    with (- ny) by (unfold ny; field; lra).
  destruct (mirror_algebra ix iy nx ny Hu) as [E1 E2].
  split; [rewrite <- E1 | rewrite <- E2]; ring.
Qed.

(** A way straight to the centre is reflected straight back. *)
Lemma reflectedDirection_is_mirror_witness :
  ∃ th : R,
    _reflectedDirection (fin2 (0, 0)) (fin2 (1, 0)) (fin2 (2, 0)) = Fin th
    ∧ - PI <= th < PI
    ∧ cos th = (1 - 0) / Rdist (0, 0) (1, 0)
               - 2 * ((1 - 0) / Rdist (0, 0) (1, 0) * ((2 - 1) / Rdist (1, 0) (2, 0))
                      + (0 - 0) / Rdist (0, 0) (1, 0) * ((0 - 0) / Rdist (1, 0) (2, 0)))
                 * ((2 - 1) / Rdist (1, 0) (2, 0))
    ∧ sin th = (0 - 0) / Rdist (0, 0) (1, 0)
               - 2 * ((1 - 0) / Rdist (0, 0) (1, 0) * ((2 - 1) / Rdist (1, 0) (2, 0))
                      + (0 - 0) / Rdist (0, 0) (1, 0) * ((0 - 0) / Rdist (1, 0) (2, 0)))
                 * ((0 - 0) / Rdist (1, 0) (2, 0)).
Proof.
  apply (reflectedDirection_is_mirror (0, 0) (1, 0) (2, 0)).
  - intros [= H]. lra.
  - intros [= H]. lra.
Defined.

Local Close Scope R_scope.

(** ** The state vector and the masses *)

Lemma push_from_cons y k h r l :
  push_from y k h (r :: l) = h' ← push_one y h (k, r); push_from y (S k) h' l.
Proof.
  unfold push_from. cbn [imap foldM]. rewrite Nat.add_0_r.
  assert (E : imap ((λ i r0, (k + i, r0)) ∘ S) l = imap (λ i r0, (S k + i, r0)) l).
  { apply imap_ext. intros i x _. cbn. f_equal. lia. }
  by rewrite E.
Qed.

Lemma push_one_Ok y h k r h' :
  push_one y h (k, r) = Ok h' →
  ∃ m a b c d,
    h !! r = Some m
    ∧ y !! (k * 4) = Some a ∧ y !! S (k * 4) = Some b
    ∧ y !! (k * 4 + 2) = Some c ∧ y !! S (k * 4 + 2) = Some d
    ∧ h' = <[r := set_vel (set_pos m (a, b)) (c, d)]> h.
Proof.
  unfold push_one, slice2, get_mass. intros H.
  destruct (h !! r) as [m|] eqn:Em; [|discriminate].
  destruct (y !! (k * 4)) as [a|]; [|discriminate].
  destruct (y !! S (k * 4)) as [b|]; [|discriminate].
  destruct (y !! (k * 4 + 2)) as [c|]; [|discriminate].
  destruct (y !! S (k * 4 + 2)) as [d|]; [|discriminate].
  cbn in H. injection H as <-. by exists m, a, b, c, d.
Qed.

Lemma push_from_frame y l : ∀ k h h',
  push_from y k h l = Ok h' →
  length h' = length h ∧ ∀ r, r ∉ l → h' !! r = h !! r.
Proof.
  induction l as [|x l IH]; intros k h h' H.
  - by injection H as <-.
  - rewrite push_from_cons in H. inv_bind H. rename x0 into h1.
    apply push_one_Ok in Hx0 as (m & a & b & c & d & Em & _ & _ & _ & _ & ->).
    apply IH in H as [Hlen Hfr]. rewrite length_insert in Hlen. split; [exact Hlen|].
    intros r Hr. rewrite Hfr by (intros ?; apply Hr; by right).
    apply list_lookup_insert_ne. intros ->. apply Hr. by left.
Qed.

Lemma push_then_pull y l : ∀ k h h',
  NoDup l → push_from y k h l = Ok h' →
  ∃ parts, pull_parts h' l = Ok parts
           ∧ concat parts = take (4 * length l) (drop (k * 4) y).
Proof.
  induction l as [|x l IH]; intros k h h' Hnd H.
  - exists []. split; [reflexivity|]. by rewrite take_0.
  - apply NoDup_cons in Hnd as [Hx Hnd].
    rewrite push_from_cons in H. inv_bind H. rename x0 into h1.
    apply push_one_Ok in Hx0 as (m & a & b & c & d & Em & Ea & Eb & Ec & Ed & ->).
    destruct (IH _ _ _ Hnd H) as (parts & Hparts & Hcat).
    apply push_from_frame in H as [Hlen Hfr].
    exists ([a; b; c; d] :: parts). split.
    + unfold pull_parts in *. rewrite mapM_cons. cbn beta. unfold get_mass in Hparts |- *.
      rewrite (Hfr x Hx), list_lookup_insert_eq by (by eapply lookup_lt_Some).
      cbn [of_option mbind res_bind mret res_ret pos vel set_pos set_vel fst snd].
      by rewrite Hparts.
    + cbn [concat length]. rewrite Hcat.
      replace (4 * S (length l)) with (4 + 4 * length l) by lia.
      replace (S k * 4) with (4 + k * 4) by lia.
      replace (k * 4 + 2) with (S (S (k * 4))) in Ec, Ed by lia.
      rewrite (drop_S y a (k * 4)) by exact Ea.
      rewrite (drop_S y b (S (k * 4))) by exact Eb.
      rewrite (drop_S y c (S (S (k * 4)))) by exact Ec.
      rewrite (drop_S y d (S (S (S (k * 4))))) by exact Ed.
      reflexivity.
Qed.

Lemma push_from_total y l : ∀ k h,
  (∀ r, r ∈ l → is_Some (h !! r)) → (k + length l) * 4 <= length y →
  ∃ h', push_from y k h l = Ok h'.
Proof.
  induction l as [|x l IH]; intros k h Hv Hlen; [by eexists|].
  rewrite push_from_cons. cbn [length] in Hlen.
  destruct (Hv x) as [m Em]; [by left|].
  destruct (lookup_lt_is_Some_2 y (k * 4)) as [a Ea]; [lia|].
  destruct (lookup_lt_is_Some_2 y (S (k * 4))) as [b Eb]; [lia|].
  destruct (lookup_lt_is_Some_2 y (k * 4 + 2)) as [c Ec]; [lia|].
  destruct (lookup_lt_is_Some_2 y (S (k * 4 + 2))) as [d Ed]; [lia|].
  unfold push_one, slice2, get_mass. rewrite Em, Ea, Eb, Ec, Ed.
  cbn [of_option mbind res_bind mret res_ret].
  apply IH; [|lia].
  intros r Hr. apply lookup_lt_is_Some. rewrite length_insert.
  apply lookup_lt_is_Some. apply Hv. by right.
Qed.

Lemma push_from_spec y l : ∀ k h h',
  NoDup l → push_from y k h l = Ok h' →
  ∀ i r m, l !! i = Some r → h !! r = Some m →
    ∃ a b c d,
      y !! ((k + i) * 4) = Some a ∧ y !! S ((k + i) * 4) = Some b
      ∧ y !! ((k + i) * 4 + 2) = Some c ∧ y !! S ((k + i) * 4 + 2) = Some d
      ∧ h' !! r = Some (set_vel (set_pos m (a, b)) (c, d)).
Proof.
  induction l as [|x l IH]; intros k h h' Hnd H i r m Hi Hm; [done|].
  apply NoDup_cons in Hnd as [Hx Hnd].
  rewrite push_from_cons in H. apply bind_Ok in H as (h1 & H1 & H).
  apply push_one_Ok in H1 as (m0 & a & b & c & d & Em & Ea & Eb & Ec & Ed & ->).
  destruct i as [|i].
  - injection Hi as ->.
    assert (Some m0 = Some m) as [= ->] by (rewrite <- Em; exact Hm).
    exists a, b, c, d. rewrite Nat.add_0_r. do 4 (split; [done|]).
    apply push_from_frame in H as [_ Hfr]. rewrite (Hfr r Hx).
    apply list_lookup_insert_eq. by eapply lookup_lt_Some.
  - cbn in Hi.
    assert (Hr : r ≠ x).
    { intros ->. apply Hx. by eapply list_elem_of_lookup_2. }
    replace (k + S i) with (S k + i) by lia.
    apply (IH (S k) _ h' Hnd H i r m Hi).
    rewrite list_lookup_insert_ne by done. exact Hm.
Qed.

(** X8.  A state vector of four numbers a mass, pushed into a layout that
    holds at least one mass and no mass twice, is what [_pullState] reads
    back.  The push gives the mass of index [i] the position
    [(y[4i], y[4i+1])] and the velocity [(y[4i+2], y[4i+3])] and leaves its
    name, its class, its mass and its acceleration alone; it touches no mass
    outside the layout and nothing else of the layout. *)
Theorem pushState_then_pullState (w : World) (y : list num) :
  NoDup (_masses (layout w)) →
  _masses (layout w) ≠ [] →
  (∀ r, r ∈ _masses (layout w) → is_Some (mass_store w !! r)) →
  length y = 4 * length (_masses (layout w)) →
  ∃ w', _pushState w y = Ok w'
        ∧ _pullState w' = Ok y
        ∧ layout w' = layout w ∧ constraint_store w' = constraint_store w
        ∧ hook_calls w' = hook_calls w
        ∧ length (mass_store w') = length (mass_store w)
        ∧ (∀ i r m, _masses (layout w) !! i = Some r → mass_store w !! r = Some m →
             ∃ a b c d,
               y !! (i * 4) = Some a ∧ y !! S (i * 4) = Some b
               ∧ y !! (i * 4 + 2) = Some c ∧ y !! S (i * 4 + 2) = Some d
               ∧ mass_store w' !! r = Some (set_vel (set_pos m (a, b)) (c, d)))
        ∧ (∀ r, r ∉ _masses (layout w) → mass_store w' !! r = mass_store w !! r).
Proof.
  intros Hnd Hne Hv Hlen.
  destruct (push_from_total y (_masses (layout w)) 0 (mass_store w) Hv) as [h' Hh']; [lia|].
  assert (Hpush : _pushState w y = Ok (set_mass_store w h')).
  { unfold _pushState. unfold push_from in Hh'. cbn [Nat.add] in Hh'.
    change (imap pair (_masses (layout w))) with (imap (λ i r, (i, r)) (_masses (layout w))).
    by rewrite Hh'. }
  exists (set_mass_store w h'). split; [exact Hpush|].
  destruct (push_from_frame _ _ _ _ _ Hh') as [Hl Hfr].
  split; [|do 3 (split; [done|]); split; [exact Hl|]; split; [|exact Hfr]].
  - destruct (push_then_pull _ _ _ _ _ Hnd Hh') as (parts & Hparts & Hcat).
    unfold _pullState, the_mass. cbn [layout mass_store set_mass_store].
    unfold pull_parts in Hparts. rewrite Hparts. cbn [mbind res_bind].
    unfold concatenate. destruct parts as [|p parts].
    + apply mapM_Ok_length in Hparts. destruct (_masses (layout w)); [done | discriminate].
    + f_equal. rewrite Hcat. change (drop (0 * 4) y) with y. rewrite <- Hlen.
      apply take_ge. lia.
  - intros i r m Hi Hm.
    apply (push_from_spec y _ 0 _ h' Hnd Hh' i r m Hi Hm).
Qed.

Lemma apart_refs (changed : bool) (la y : list num) (t : num) :
  ∀ r, r ∈ _masses (layout (apart_state changed la y t)) →
       is_Some (mass_store (apart_state changed la y t) !! r).
Proof. intros r Hr. cbn in Hr. each_member Hr; by eexists. Qed.

(** Two masses and a state vector of eight numbers. *)
Lemma pushState_then_pullState_witness :
  ∃ w', _pushState (apart_state false [] [] (Fin 0))
          [Fin 1; Fin 2; Fin 3; Fin 4; Fin 5; Fin 6; Fin 7; Fin 8] = Ok w'
        ∧ _pullState w' = Ok [Fin 1; Fin 2; Fin 3; Fin 4; Fin 5; Fin 6; Fin 7; Fin 8]
        ∧ layout w' = layout (apart_state false [] [] (Fin 0))
        ∧ constraint_store w' = constraint_store (apart_state false [] [] (Fin 0))
        ∧ hook_calls w' = hook_calls (apart_state false [] [] (Fin 0))
        ∧ length (mass_store w') = length (mass_store (apart_state false [] [] (Fin 0)))
        ∧ (∀ i r m, _masses (layout (apart_state false [] [] (Fin 0))) !! i = Some r →
             mass_store (apart_state false [] [] (Fin 0)) !! r = Some m →
             ∃ a b c d,
               [Fin 1; Fin 2; Fin 3; Fin 4; Fin 5; Fin 6; Fin 7; Fin 8] !! (i * 4) = Some a
               ∧ [Fin 1; Fin 2; Fin 3; Fin 4; Fin 5; Fin 6; Fin 7; Fin 8] !! S (i * 4)
                 = Some b
               ∧ [Fin 1; Fin 2; Fin 3; Fin 4; Fin 5; Fin 6; Fin 7; Fin 8] !! (i * 4 + 2)
                 = Some c
               ∧ [Fin 1; Fin 2; Fin 3; Fin 4; Fin 5; Fin 6; Fin 7; Fin 8] !! S (i * 4 + 2)
                 = Some d
               ∧ mass_store w' !! r = Some (set_vel (set_pos m (a, b)) (c, d)))
        ∧ (∀ r, r ∉ _masses (layout (apart_state false [] [] (Fin 0))) →
             mass_store w' !! r = mass_store (apart_state false [] [] (Fin 0)) !! r).
Proof.
  apply (pushState_then_pullState (apart_state false [] [] (Fin 0))
           [Fin 1; Fin 2; Fin 3; Fin 4; Fin 5; Fin 6; Fin 7; Fin 8]).
  - cbn. apply NoDup_cons. split; [|apply NoDup_singleton].
    intros H. apply list_elem_of_singleton in H. discriminate.
  - discriminate.
  - apply apart_refs.
  - reflexivity.
Defined.

Lemma set_same_state (m : Mass) :
  set_vel (set_pos m ((pos m).1, (pos m).2)) ((vel m).1, (vel m).2) = m.
Proof. destruct m as [n ms f [px py] [vx vy] a]. reflexivity. Qed.

Lemma pull_then_push h l : ∀ k pre parts,
  pull_parts h l = Ok parts → length pre = k * 4 →
  push_from (pre ++ concat parts) k h l = Ok h.
Proof.
  induction l as [|x l IH]; intros k pre parts Hp Hpre; [reflexivity|].
  unfold pull_parts in Hp. rewrite mapM_cons in Hp. cbn beta in Hp.
  apply bind_Ok in Hp as (chunk & Hchunk & Hp).
  apply bind_Ok in Hchunk as (m & Hm & Hchunk). injection Hchunk as <-.
  apply bind_Ok in Hp as (parts' & Hparts & Hp). injection Hp as <-.
  unfold get_mass in Hm. destruct (h !! x) as [m'|] eqn:Em; [|discriminate].
  injection Hm as ->.
  rewrite push_from_cons. unfold push_one, slice2, get_mass. rewrite Em.
  cbn [of_option mbind res_bind concat].
  set (y := pre ++ [(pos m).1; (pos m).2; (vel m).1; (vel m).2] ++ concat parts').
  assert (E0 : y !! (k * 4) = Some (pos m).1).
  { unfold y. rewrite lookup_app_r by lia. by replace (k * 4 - length pre) with 0 by lia. }
  assert (E1 : y !! S (k * 4) = Some (pos m).2).
  { unfold y. rewrite lookup_app_r by lia. by replace (S (k * 4) - length pre) with 1 by lia. }
  assert (E2 : y !! (k * 4 + 2) = Some (vel m).1).
  { unfold y. rewrite lookup_app_r by lia. by replace (k * 4 + 2 - length pre) with 2 by lia. }
  assert (E3 : y !! S (k * 4 + 2) = Some (vel m).2).
  { unfold y. rewrite lookup_app_r by lia.
    by replace (S (k * 4 + 2) - length pre) with 3 by lia. }
  rewrite E0, E1, E2, E3. cbn [mbind res_bind mret res_ret].
  rewrite set_same_state, list_insert_id by exact Em.
  unfold y. rewrite app_assoc. apply IH; [exact Hparts|].
  rewrite length_app. cbn [length]. lia.
Qed.

(** X9.  The state vector that [_pullState] reads holds four numbers a
    mass, and pushing it back leaves every mass as it is. *)
Theorem pullState_then_pushState (w : World) (y : list num) :
  _pullState w = Ok y →
  length y = 4 * length (_masses (layout w)) ∧ _pushState w y = Ok w.
Proof.
  unfold _pullState. intros H. inv_bind H. rename x into parts.
  assert (y = concat parts) as ->
    by (destruct parts; [discriminate | by injection H as <-]).
  split.
  - rewrite concat_length_4; [by rewrite (mapM_Ok_length _ _ _ Hx)|].
    apply mapM_Ok_Forall2 in Hx. clear -Hx.
    induction Hx as [|r p rs ps Hr _ IH]; constructor; [|exact IH].
    inv_bind Hr. by injection Hr as <-.
  - pose proof (pull_then_push (mass_store w) (_masses (layout w)) 0 [] parts Hx eq_refl)
      as Hp.
    unfold _pushState. unfold push_from in Hp. cbn [app Nat.add] in Hp.
    change (imap pair (_masses (layout w))) with (imap (λ i r, (i, r)) (_masses (layout w))).
    rewrite Hp. cbn [mbind res_bind mret res_ret]. by destruct w.
Qed.

(** ** Forces *)

Lemma set_acc_same m : set_acc m (acc m) = m.
Proof. by destruct m. Qed.

Lemma set_acc_twice m a b : set_acc (set_acc m a) b = set_acc m b.
Proof. by destruct m. Qed.

Lemma same_but_acc_refl h : same_but_acc h h.
Proof. split; [done|]. intros r m Hm. exists (acc m). by rewrite set_acc_same. Qed.

Lemma same_but_acc_trans h1 h2 h3 :
  same_but_acc h1 h2 → same_but_acc h2 h3 → same_but_acc h1 h3.
Proof.
  intros [L1 H1] [L2 H2]. split; [congruence|].
  intros r m Hm. destruct (H1 r m Hm) as [a Ha]. destruct (H2 r _ Ha) as [b Hb].
  exists b. by rewrite set_acc_twice in Hb.
Qed.

Lemma same_but_acc_insert (h : mstore) r m a :
  h !! r = Some m → same_but_acc h (<[r := set_acc m a]> h).
Proof.
  intros Hm. split; [apply length_insert|].
  intros r' m' Hm'. destruct (decide (r' = r)) as [->|Hne].
  - rewrite Hm in Hm'. injection Hm' as <-. exists a.
    apply list_lookup_insert_eq. by eapply lookup_lt_Some.
  - exists (acc m'). rewrite set_acc_same. by rewrite list_lookup_insert_ne.
Qed.

Lemma accelerate_spec h r a h' :
  accelerate h r a = Ok h' → same_but_acc h h' ∧ keeps_fixed h h'.
Proof.
  unfold accelerate. intros H. inv_bind H. rename x into m.
  unfold get_mass in Hx. destruct (h !! r) as [m0|] eqn:Em; [|discriminate].
  injection Hx as ->. cbn in H. injection H as <-.
  destruct (fixed m) eqn:Ef.
  - split; [apply same_but_acc_refl | by intros ? ?].
  - split; [by apply same_but_acc_insert|].
    intros r' m' Hm' Hf. rewrite list_lookup_insert_ne; [done|].
    intros Heq. subst.
    assert (Some m = Some m') as [= <-] by (rewrite <- Em; exact Hm').
    rewrite Ef in Hf. discriminate.
Qed.

Lemma keeps_fixed_trans h1 h2 h3 :
  keeps_fixed h1 h2 → keeps_fixed h2 h3 → keeps_fixed h1 h3.
Proof. intros H1 H2 r m Hm Hf. apply H2; [|done]. by apply H1. Qed.

Lemma applyForce_spec h c h' :
  applyForce h c = Ok h' → same_but_acc h h' ∧ keeps_fixed h h'.
Proof.
  intros H. destruct c as [a b l k t | a b l k t | a b c l k t]; cbn [applyForce] in H.
  - do 3 inv_bind H. inv_bind H.
    apply accelerate_spec in Hx2 as [S1 F1]. apply accelerate_spec in H as [S2 F2].
    split; [by eapply same_but_acc_trans | by eapply keeps_fixed_trans].
  - do 3 inv_bind H. inv_bind H.
    apply accelerate_spec in Hx2 as [S1 F1]. apply accelerate_spec in H as [S2 F2].
    split; [by eapply same_but_acc_trans | by eapply keeps_fixed_trans].
  - do 4 inv_bind H. inv_bind H. inv_bind H.
    apply accelerate_spec in Hx3 as [S1 F1]. apply accelerate_spec in Hx4 as [S2 F2].
    apply accelerate_spec in H as [S3 F3].
    split; [eapply same_but_acc_trans; [|exact S3]; by eapply same_but_acc_trans
           | eapply keeps_fixed_trans; [|exact F3]; by eapply keeps_fixed_trans].
Qed.

Lemma forces_spec w cs : ∀ h h',
  foldM (λ h c, c' ← get_constraint w c; applyForce h c') h cs = Ok h' →
  same_but_acc h h' ∧ keeps_fixed h h'.
Proof.
  induction cs as [|c cs IH]; intros h h' H.
  - injection H as <-. split; [apply same_but_acc_refl | by intros ? ?].
  - cbn [foldM] in H. inv_bind H. inv_bind Hx.
    apply applyForce_spec in Hx as [S1 F1]. apply IH in H as [S2 F2].
    split; [by eapply same_but_acc_trans | by eapply keeps_fixed_trans].
Qed.

(** The first loop of [_refreshForces]: the masses it has visited hold their
    friction only; a fixed mass holds no acceleration. *)
Lemma friction_spec ms : ∀ h h',
  foldM (λ h r, m ← get_mass h r; mret (<[r := applyFriction (set_acc m vzero)]> h)) h ms
    = Ok h' →
  same_but_acc h h'
  ∧ ∀ r m, r ∈ ms → h !! r = Some m →
      h' !! r = Some (applyFriction (set_acc m vzero)).
Proof.
  induction ms as [|x ms IH]; intros h h' H.
  - injection H as <-. split; [apply same_but_acc_refl|].
    intros r m Hr. by apply elem_of_nil in Hr.
  - cbn [foldM] in H. apply bind_Ok in H as (h1 & Hh1 & H).
    apply bind_Ok in Hh1 as (mx & Hmx & Hh1). injection Hh1 as <-.
    unfold get_mass in Hmx. destruct (h !! x) as [m0|] eqn:Em; [|discriminate].
    injection Hmx as ->.
    assert (Hfr : applyFriction (set_acc mx vzero)
                  = set_acc mx (acc (applyFriction (set_acc mx vzero)))).
    { unfold applyFriction. destruct mx as [n ms' f p v a]. cbn. by destruct f. }
    assert (Hlt : x < length h) by (by eapply lookup_lt_Some).
    destruct (IH _ _ H) as [S2 Hin].
    split.
    + eapply same_but_acc_trans; [|exact S2]. rewrite Hfr. by apply same_but_acc_insert.
    + intros r m Hr Hm. destruct (decide (r ∈ ms)) as [Hrms|Hrms].
      * destruct (decide (r = x)) as [->|Hne].
        -- rewrite Em in Hm. injection Hm as <-.
           rewrite (Hin x (applyFriction (set_acc mx vzero)) Hrms)
             by (by apply list_lookup_insert_eq).
           f_equal. destruct mx as [n ms' f p v a]. unfold applyFriction. cbn.
           by destruct f.
        -- apply Hin; [done|]. by rewrite list_lookup_insert_ne.
      * apply elem_of_cons in Hr as [->|Hr]; [|contradiction].
        rewrite Em in Hm. injection Hm as <-.
        assert (Hkeep : ∀ l h1 h2,
                  foldM (λ h r, m ← get_mass h r;
                                mret (<[r := applyFriction (set_acc m vzero)]> h)) h1 l
                    = Ok h2 → x ∉ l → h2 !! x = h1 !! x).
        { clear. induction l as [|y l IHl]; intros h1 h2 Hf Hx.
          - by injection Hf as <-.
          - cbn [foldM] in Hf. apply bind_Ok in Hf as (h3 & Hh3 & Hf).
            apply bind_Ok in Hh3 as (my & _ & Hh3). injection Hh3 as <-.
            rewrite (IHl _ _ Hf) by (intros ?; apply Hx; by right).
            apply list_lookup_insert_ne. intros ->. apply Hx. by left. }
        rewrite (Hkeep _ _ _ H Hrms). by apply list_lookup_insert_eq.
Qed.

Lemma refreshForces_acc_only w w' :
  _refreshForces w = Ok w' → same_but_acc (mass_store w) (mass_store w').
Proof.
  unfold _refreshForces. intros H. apply bind_Ok in H as (h1 & H1 & H).
  apply bind_Ok in H as (h2 & H2 & H). injection H as <-. cbn.
  apply friction_spec in H1 as [S1 _]. apply forces_spec in H2 as [S2 _].
  by eapply same_but_acc_trans.
Qed.

(** X10.  [_refreshForces] changes accelerations only, and a fixed mass of
    the layout comes out with no acceleration, whatever constraints pull at
    it. *)
Theorem refreshForces_spares_fixed (w w' : World) :
  _refreshForces w = Ok w' →
  layout w' = layout w
  ∧ (∀ r m, mass_store w !! r = Some m → ∃ a, mass_store w' !! r = Some (set_acc m a))
  ∧ (∀ r m, r ∈ _masses (layout w) → mass_store w !! r = Some m → fixed m = true →
       mass_store w' !! r = Some (set_acc m vzero)).
Proof.
  unfold _refreshForces. intros H. inv_bind H. rename x into h1. inv_bind H. rename x into h2.
  injection H as <-. cbn [layout mass_store set_mass_store].
  apply friction_spec in Hx as [S1 Hin]. apply forces_spec in Hx0 as [S2 F2].
  split; [done|]. split.
  - apply (same_but_acc_trans _ _ _ S1 S2).
  - intros r m Hr Hm Hf. apply F2; [|by destruct m].
    replace (set_acc m vzero) with (applyFriction (set_acc m vzero)); [by apply Hin|].
    unfold applyFriction. destruct m as [n ms f p v a]. cbn in Hf |- *. by rewrite Hf.
Qed.

Local Open Scope R_scope.

(** ** The force of a distance constraint *)

Lemma acc_plus_force (c x y u1 u2 : R) :
  vadd (Fin u1, Fin u2) (vdivs (vscale (Fin c) (Fin x, Fin y)) (Fin 1))
  = (Fin (u1 + c * x / 1), Fin (u2 + c * y / 1)).
Proof.
  unfold vadd, vdivs, vscale. cbn [fst snd nmul ndiv].
  rewrite (Reqb_false 1 0) by lra. reflexivity.
Qed.

Lemma acc_minus_force (c x y u1 u2 : R) :
  vadd (Fin u1, Fin u2) (vdivs (vopp (vscale (Fin c) (Fin x, Fin y))) (Fin 1))
  = (Fin (u1 + - (c * x) / 1), Fin (u2 + - (c * y) / 1)).
Proof.
  unfold vadd, vdivs, vopp, vscale. cbn [fst snd nmul ndiv nopp].
  rewrite (Reqb_false 1 0) by lra. reflexivity.
Qed.

(** X11.  The force of a distance constraint between two free masses at
    finite positions.  The first mass is accelerated by a force [f] and the
    second one by [- f], and nothing else changes.  For masses at different
    positions [f] lies along the line that joins them and is the stiffness
    times the displacement of the distance from the natural length, towards
    the other mass when the spring is stretched; for masses at the same
    position it is the stiffness times the natural length along the first
    axis. *)
Theorem distance_constraint_equal_and_opposite (h : mstore) (a b : mref) (l k : R) (t : Z)
    (ma mb : Mass) (p q u v : R * R) :
  a ≠ b → h !! a = Some ma → h !! b = Some mb →
  fixed ma = false → fixed mb = false → _mass ma = Fin 1 → _mass mb = Fin 1 →
  pos ma = fin2 p → pos mb = fin2 q → acc ma = fin2 u → acc mb = fin2 v →
  ∃ f : R * R,
    applyForce h (ConstraintDistance a b (Fin l) (Fin k) t)
    = Ok (<[b := set_acc mb (fin2 (v.1 - f.1, v.2 - f.2))]>
            (<[a := set_acc ma (fin2 (u.1 + f.1, u.2 + f.2))]> h))
    ∧ (p ≠ q →
       f.1 = - k * (Rdist q p - l) * ((p.1 - q.1) / Rdist q p)
       ∧ f.2 = - k * (Rdist q p - l) * ((p.2 - q.2) / Rdist q p))
    ∧ (p = q → f = (k * l, 0)).
Proof.
  destruct p as [p1 p2], q as [q1 q2], u as [u1 u2], v as [v1 v2].
  intros Hab Ha Hb Hfa Hfb Hma Hmb Hpa Hpb Hua Hub.
  assert (Ga : get_mass h a = Ok ma) by (unfold get_mass; by rewrite Ha).
  assert (Gb : get_mass h b = Ok mb) by (unfold get_mass; by rewrite Hb).
  assert (Gb' : ∀ x, get_mass (<[a := x]> h) b = Ok mb).
  { intros x. rewrite <- Gb. unfold get_mass. f_equal. by apply list_lookup_insert_ne. }
  unfold applyForce, displacement, length_, accelerate.
  rewrite !Ga, !Gb. cbn [mbind res_bind mret res_ret]. rewrite Hfa.
  rewrite Gb'. cbn [mbind res_bind mret res_ret]. rewrite Hfb.
  unfold _distance, _uv, Rdist. cbn [fst snd].
  rewrite Hpa, Hpb, Hua, Hub, Hma, Hmb. unfold fin2. cbn [fst snd].
  rewrite distance_pos_fin.
  set (d := sqrt ((p1 - q1) * (p1 - q1) + (p2 - q2) * (p2 - q2))).
  unfold array_equal, neqb. cbn [fst snd].
  cbn [nopp nmul nsub nadd mret res_ret].
  assert (Hfin : ∀ x y f1 f2 : R,
    - k * (d + - l) * x = f1 → - k * (d + - l) * y = f2 →
    Ok (<[b := set_acc mb
                 (vadd (Fin v1, Fin v2)
                    (vdivs (vopp (vscale (Fin (- k * (d + - l))) (Fin x, Fin y))) (Fin 1)))]>
          (<[a := set_acc ma
                    (vadd (Fin u1, Fin u2)
                       (vdivs (vscale (Fin (- k * (d + - l))) (Fin x, Fin y)) (Fin 1)))]> h))
    = Ok (<[b := set_acc mb (Fin (v1 - (f1, f2).1), Fin (v2 - (f1, f2).2))]>
            (<[a := set_acc ma (Fin (u1 + (f1, f2).1), Fin (u2 + (f1, f2).2))]> h))).
  { intros x y f1 f2 <- <-. rewrite acc_plus_force, acc_minus_force. cbn [fst snd].
    replace (u1 + - k * (d + - l) * x / 1) with (u1 + - k * (d + - l) * x) by field.
    replace (u2 + - k * (d + - l) * y / 1) with (u2 + - k * (d + - l) * y) by field.
    replace (v1 + - (- k * (d + - l) * x) / 1) with (v1 - - k * (d + - l) * x) by field.
    replace (v2 + - (- k * (d + - l) * y) / 1) with (v2 - - k * (d + - l) * y) by field.
    reflexivity. }
  assert (Huv : 0 < d →
    vdivs (vsub (Fin p1, Fin p2) (Fin q1, Fin q2))
      (hypot2 (vsub (Fin p1, Fin p2) (Fin q1, Fin q2)))
    = (Fin ((p1 - q1) / d), Fin ((p2 - q2) / d))).
  { intros Hd. unfold vsub. cbn [fst snd nsub nadd nopp]. rewrite hypot2_fin.
    fold (p1 - q1) (p2 - q2). fold d.
    unfold vdivs. cbn [fst snd ndiv]. rewrite (Reqb_false d 0) by lra. reflexivity. }
  unfold array_equal, neqb. cbn [fst snd].
  destruct (Req_dec p1 q1) as [E1|E1]; [destruct (Req_dec p2 q2) as [E2|E2]|].
  - subst q1 q2. rewrite !Reqb_true by reflexivity. cbn [andb].
    exists (k * l, 0).
    assert (Hd : d = 0).
    { unfold d. replace ((p1 - p1) * (p1 - p1) + (p2 - p2) * (p2 - p2)) with 0 by ring.
      apply sqrt_0. }
    split; [|split; [intros H; by destruct H | done]].
    apply Hfin; rewrite Hd; ring.
  - rewrite (Reqb_false p2 q2), andb_false_r by done.
    assert (Hd : 0 < d) by (apply sqrt_sum_squares_pos; intros [? ?]; lra).
    rewrite Huv by exact Hd.
    eexists (_, _). split; [apply Hfin; reflexivity|].
    split; [|intros [= ? ?]; lra].
    intros _. cbn [fst snd]. split; ring.
  - rewrite (Reqb_false p1 q1) by done. cbn [andb].
    assert (Hd : 0 < d) by (apply sqrt_sum_squares_pos; intros [? ?]; lra).
    rewrite Huv by exact Hd.
    eexists (_, _). split; [apply Hfin; reflexivity|].
    split; [|intros [= ? ?]; lra].
    intros _. cbn [fst snd]. split; ring.
Qed.

(** Two free masses one unit apart, bound by a spring of natural length
    one. *)
Lemma distance_constraint_equal_and_opposite_witness :
  ∃ f : R * R,
    applyForce [new_Mass "a" None None None; new_Mass "b" (Some (Fin 1, Fin 0)) None None]
      (ConstraintDistance 0%nat 1%nat (Fin 1) (Fin 1) (-1))
    = Ok (<[1%nat := set_acc (new_Mass "b" (Some (Fin 1, Fin 0)) None None)
                       (fin2 ((0, 0).1 - f.1, (0, 0).2 - f.2))]>
            (<[0%nat := set_acc (new_Mass "a" None None None)
                          (fin2 ((0, 0).1 + f.1, (0, 0).2 + f.2))]>
               [new_Mass "a" None None None;
                new_Mass "b" (Some (Fin 1, Fin 0)) None None]))
    ∧ ((0, 0) ≠ (1, 0) →
       f.1 = - 1 * (Rdist (1, 0) (0, 0) - 1) * (((0, 0).1 - (1, 0).1) / Rdist (1, 0) (0, 0))
       ∧ f.2 = - 1 * (Rdist (1, 0) (0, 0) - 1)
               * (((0, 0).2 - (1, 0).2) / Rdist (1, 0) (0, 0)))
    ∧ ((0, 0) = (1, 0) → f = (1 * 1, 0)).
Proof.
  apply (distance_constraint_equal_and_opposite
           [new_Mass "a" None None None; new_Mass "b" (Some (Fin 1, Fin 0)) None None]
           0%nat 1%nat 1 1 (-1)%Z (new_Mass "a" None None None)
           (new_Mass "b" (Some (Fin 1, Fin 0)) None None) (0, 0) (1, 0) (0, 0) (0, 0));
    (reflexivity || lia).
Defined.

Local Close Scope R_scope.

(** ** Looking masses up by name *)

Lemma find_by_name_spec (h : mstore) nm ms :
  (∀ r, r ∈ ms → is_Some (h !! r)) →
  ∃ o, find_by_name h nm ms = Ok o
       ∧ match o with
         | Some r =>
             ∃ i m, ms !! i = Some r ∧ h !! r = Some m ∧ name m = nm
                    ∧ ∀ j r' m', j < i → ms !! j = Some r' → h !! r' = Some m' →
                                 name m' ≠ nm
         | None => ∀ r m, r ∈ ms → h !! r = Some m → name m ≠ nm
         end.
Proof.
  induction ms as [|x ms IH]; intros Hv.
  - exists None. split; [reflexivity|]. intros r m Hr. by apply elem_of_nil in Hr.
  - destruct (Hv x) as [mx Emx]; [by left|].
    destruct IH as (o & Ho & Hspec); [intros; apply Hv; by right|].
    cbn [find_by_name]. unfold get_mass. rewrite Emx. cbn [of_option mbind res_bind].
    destruct (String.eqb (name mx) nm) eqn:E.
    + apply String.eqb_eq in E. exists (Some x). split; [reflexivity|].
      exists 0, mx. repeat split; try done. intros j r' m' Hj. lia.
    + apply String.eqb_neq in E. exists o. split; [exact Ho|].
      destruct o as [r|].
      * destruct Hspec as (i & m & Hi & Hm & Hn & Hfirst).
        exists (S i), m. repeat split; try done.
        intros [|j] r' m' Hj Hr' Hm'.
        -- cbn in Hr'. injection Hr' as <-.
           assert (Some mx = Some m') as [= <-] by (rewrite <- Emx; exact Hm'). exact E.
        -- cbn in Hr'. eapply Hfirst; [|exact Hr'|exact Hm']. lia.
      * intros r m Hr Hm. apply elem_of_cons in Hr as [->|Hr]; [|by eapply Hspec].
        assert (Some mx = Some m) as [= <-] by (rewrite <- Emx; exact Hm). exact E.
Qed.

(** X12.  [getMass] returns the first mass of the layout, in insertion
    order, that carries the name, and [None] exactly when no mass of the
    layout carries it. *)
Theorem getMass_finds_first_of_name (w : World) (nm : string) :
  (∀ r, r ∈ _masses (layout w) → is_Some (mass_store w !! r)) →
  ∃ o, getMass w nm = Ok o
       ∧ match o with
         | Some r =>
             ∃ i m, _masses (layout w) !! i = Some r ∧ mass_store w !! r = Some m
                    ∧ name m = nm
                    ∧ ∀ j r' m', j < i → _masses (layout w) !! j = Some r' →
                                 mass_store w !! r' = Some m' → name m' ≠ nm
         | None => ∀ r m, r ∈ _masses (layout w) → mass_store w !! r = Some m →
                          name m ≠ nm
         end.
Proof. intros Hv. by apply find_by_name_spec. Qed.

(** ** Adding masses *)

Lemma valid_refs_add_mass w r :
  valid_refs w → is_Some (mass_store w !! r) →
  valid_refs (set_layout w (set_masses (layout w) (_masses (layout w) ++ [r]))).
Proof.
  intros (Hm & Hc & Hk) Hr. split; [|split]; cbn.
  - intros r' Hr'. apply elem_of_app in Hr' as [Hr'|Hr']; [by apply Hm|].
    apply list_elem_of_singleton in Hr' as ->. exact Hr.
  - exact Hc.
  - exact Hk.
Qed.

Lemma find_by_name_app_new (h : mstore) nm ms r m :
  (∀ r' m', r' ∈ ms → h !! r' = Some m' → name m' ≠ nm) →
  (∀ r', r' ∈ ms → is_Some (h !! r')) →
  h !! r = Some m → name m = nm →
  find_by_name h nm (ms ++ [r]) = Ok (Some r).
Proof.
  intros Hnew Hv Hr Hn. induction ms as [|x ms IH]; cbn [app find_by_name].
  - unfold get_mass. rewrite Hr. cbn. rewrite Hn, String.eqb_refl. reflexivity.
  - destruct (Hv x) as [mx Emx]; [by left|].
    unfold get_mass at 1. rewrite Emx. cbn [of_option mbind res_bind].
    assert (E : String.eqb (name mx) nm = false).
    { apply String.eqb_neq. apply (Hnew x mx); [by left | exact Emx]. }
    rewrite E. apply IH.
    + intros r' m' Hr'. apply Hnew. by right.
    + intros r' Hr'. apply Hv. by right.
Qed.

(** X13.  [addMass] of a mass the layout does not hold, whose name no mass
    of the layout carries: the mass is appended, the state is marked as
    changed, [getMass] finds the mass under its name, no mass is held twice
    and no name is carried twice.  [addMass] of a mass the layout holds
    changes nothing at all. *)
Theorem addMass_then_getMass (w : World) (r : mref) (m : Mass) :
  valid_refs w → NoDup (_masses (layout w)) → unique_names w →
  mass_store w !! r = Some m →
  (∀ r' m', r' ∈ _masses (layout w) → mass_store w !! r' = Some m' → name m' ≠ name m) →
  (∀ r', r' ∈ _masses (layout w) → addMass w r' = Ok w)
  ∧ ∃ w', addMass w r = Ok w'
          ∧ _masses (layout w') = _masses (layout w) ++ [r]
          ∧ _system_changed (layout w') = true
          ∧ mass_store w' = mass_store w
          ∧ getMass w' (name m) = Ok (Some r)
          ∧ NoDup (_masses (layout w'))
          ∧ unique_names w'.
Proof.
  intros Hvalid Hnd Huniq Hr Hnew.
  split. { intros r' Hr'. unfold addMass. by rewrite decide_True. }
  assert (Hnotin : r ∉ _masses (layout w)).
  { intros Hin. by apply (Hnew r m Hin Hr). }
  unfold addMass. rewrite decide_False by exact Hnotin.
  destruct (markStateChanged_total
              (set_layout w (set_masses (layout w) (_masses (layout w) ++ [r]))) true false)
    as (w' & Hw' & Ec & Em & Es & Ek & Ef).
  { apply valid_refs_add_mass; [exact Hvalid | by eexists]. }
  cbn in Ec, Em, Es, Ek.
  exists w'. split; [exact Hw'|]. split; [exact Em|]. split; [exact Ef|].
  split; [exact Es|]. destruct Hvalid as (Hm & _ & _).
  split; [|split].
  - unfold getMass. rewrite Em, Es.
    apply (find_by_name_app_new _ _ _ _ m); try done.
  - rewrite Em. apply NoDup_app. split; [exact Hnd|]. split; [|apply NoDup_singleton].
    intros x Hx Hx'. apply list_elem_of_singleton in Hx' as ->. contradiction.
  - unfold unique_names, mass_names in *. rewrite Em, Es.
    rewrite omap_app. cbn [omap list_omap]. rewrite Hr. cbn [fmap option_fmap option_map app].
    apply NoDup_app. split; [exact Huniq|]. split; [|apply NoDup_singleton].
    intros nm Hnm Hnm'. apply list_elem_of_singleton in Hnm' as ->.
    apply list_elem_of_omap in Hnm as (r' & Hr' & Hname).
    destruct (mass_store w !! r') as [m'|] eqn:Em'; [|discriminate].
    cbn in Hname. injection Hname as Hname. by apply (Hnew r' m' Hr').
Qed.

(** ** Adding constraints *)

Lemma rebind_one_Ok w c i r :
  is_Some (mass_store w !! r) →
  (∀ r', r' ∈ _masses (layout w) → is_Some (mass_store w !! r')) →
  ∃ o, rebind_one w c (i, r) = Ok (match o with Some r' => rebind c i r' | None => c end)
       ∧ rebound w r = default r o.
Proof.
  intros [m Hm] Hv. unfold rebind_one, rebound, the_mass, get_mass. rewrite Hm.
  cbn [of_option mbind res_bind].
  destruct (find_by_name_spec (mass_store w) (name m) (_masses (layout w)) Hv)
    as (o & Ho & _).
  unfold getMass. rewrite Ho. cbn [mbind res_bind]. exists o. by destruct o.
Qed.

Lemma rebind_all w c0 :
  (∀ r, r ∈ masses c0 → is_Some (mass_store w !! r)) →
  (∀ r, r ∈ _masses (layout w) → is_Some (mass_store w !! r)) →
  ∃ c1, foldM (rebind_one w) c0 (imap pair (masses c0)) = Ok c1
        ∧ masses c1 = rebound w <$> masses c0
        ∧ _tag_id c1 = _tag_id c0
        ∧ _natural_length c1 = _natural_length c0
        ∧ _stiffness c1 = _stiffness c0.
Proof.
  intros Hc Hv.
  destruct c0 as [a b l k t | a b l k t | a b c l k t]; cbn [masses imap foldM compose].
  - destruct (rebind_one_Ok w (ConstraintDistance a b l k t) 0 a) as (oa & -> & Ea);
      [apply Hc; in_list | exact Hv |]. cbn [mbind res_bind].
    set (ca := match oa with Some r' => _ | None => _ end).
    destruct (rebind_one_Ok w ca 1 b) as (ob & -> & Eb); [apply Hc; in_list | exact Hv |].
    cbn [mbind res_bind]. eexists. split; [reflexivity|].
    cbn [fmap list_fmap]. rewrite Ea, Eb. unfold ca. by destruct oa, ob.
  - destruct (rebind_one_Ok w (ConstraintAngleGlobal a b l k t) 0 a) as (oa & -> & Ea);
      [apply Hc; in_list | exact Hv |]. cbn [mbind res_bind].
    set (ca := match oa with Some r' => _ | None => _ end).
    destruct (rebind_one_Ok w ca 1 b) as (ob & -> & Eb); [apply Hc; in_list | exact Hv |].
    cbn [mbind res_bind]. eexists. split; [reflexivity|].
    cbn [fmap list_fmap]. rewrite Ea, Eb. unfold ca. by destruct oa, ob.
  - destruct (rebind_one_Ok w (ConstraintAngleLocal a b c l k t) 0 a) as (oa & -> & Ea);
      [apply Hc; in_list | exact Hv |]. cbn [mbind res_bind].
    set (ca := match oa with Some r' => _ | None => _ end).
    destruct (rebind_one_Ok w ca 1 b) as (ob & -> & Eb); [apply Hc; in_list | exact Hv |].
    cbn [mbind res_bind].
    set (cb := match ob with Some r' => _ | None => _ end).
    destruct (rebind_one_Ok w cb 2 c) as (oc & -> & Ec); [apply Hc; in_list | exact Hv |].
    cbn [mbind res_bind]. eexists. split; [reflexivity|].
    cbn [fmap list_fmap]. rewrite Ea, Eb, Ec. unfold cb, ca. by destruct oa, ob, oc.
Qed.

Lemma rebound_owned_or_same w r :
  (∀ r', r' ∈ _masses (layout w) → is_Some (mass_store w !! r')) →
  rebound w r ∈ _masses (layout w) ∨ rebound w r = r.
Proof.
  intros Hv. unfold rebound. destruct (the_mass w r) as [m|]; [|by right].
  destruct (find_by_name_spec (mass_store w) (name m) (_masses (layout w)) Hv)
    as (o & Ho & Hspec).
  unfold getMass. rewrite Ho. destruct o as [r'|]; [|by right].
  destruct Hspec as (i & m' & Hi & _). left. by eapply list_elem_of_lookup_2.
Qed.

Lemma addMass_total w r :
  valid_refs w → is_Some (mass_store w !! r) →
  ∃ w', addMass w r = Ok w'
        ∧ valid_refs w'
        ∧ (∀ r', r' ∈ _masses (layout w) → r' ∈ _masses (layout w'))
        ∧ r ∈ _masses (layout w')
        ∧ (∀ r', r' ∈ _masses (layout w') → r' ∈ _masses (layout w) ∨ r' = r)
        ∧ _constraints (layout w') = _constraints (layout w)
        ∧ mass_store w' = mass_store w
        ∧ constraint_store w' = constraint_store w.
Proof.
  intros Hvalid Hr. unfold addMass. destruct (decide (r ∈ _masses (layout w))) as [Hin|Hin].
  - exists w. split; [done|]. split; [done|]. split; [done|]. split; [done|].
    split; [intros; by left | done].
  - destruct (markStateChanged_total
                (set_layout w (set_masses (layout w) (_masses (layout w) ++ [r]))) true false)
      as (w' & Hw' & Ec & Em & Es & Ek & Ef); [by apply valid_refs_add_mass|].
    cbn in Ec, Em, Es, Ek. exists w'. split; [exact Hw'|].
    split.
    { destruct (valid_refs_add_mass w r Hvalid Hr) as (V1 & V2 & V3). cbn in V1, V2, V3.
      split; [|split].
      - intros r'. rewrite Em, Es. apply V1.
      - intros c. rewrite Ec, Ek. apply V2.
      - intros c k r'. rewrite Ek, Es. apply V3. }
    rewrite Em. repeat split; try done.
    + intros r' Hr'. apply elem_of_app. by left.
    + apply elem_of_app. right. by left.
    + intros r' Hr'. apply elem_of_app in Hr' as [?|Hr']; [by left|].
      apply list_elem_of_singleton in Hr'. by right.
Qed.

Lemma addMasses_total l : ∀ w,
  valid_refs w → (∀ r, r ∈ l → is_Some (mass_store w !! r)) →
  ∃ w', foldM addMass w l = Ok w'
        ∧ valid_refs w'
        ∧ (∀ r', r' ∈ _masses (layout w) → r' ∈ _masses (layout w'))
        ∧ (∀ r, r ∈ l → r ∈ _masses (layout w'))
        ∧ (∀ r', r' ∈ _masses (layout w') → r' ∈ _masses (layout w) ∨ r' ∈ l)
        ∧ _constraints (layout w') = _constraints (layout w)
        ∧ mass_store w' = mass_store w
        ∧ constraint_store w' = constraint_store w.
Proof.
  induction l as [|x l IH]; intros w Hvalid Hl.
  - exists w. split; [done|]. split; [done|]. split; [done|].
    split; [intros r Hr; by apply elem_of_nil in Hr|].
    split; [intros; by left | done].
  - destruct (addMass_total w x Hvalid) as (w1 & H1 & V1 & M1 & X1 & N1 & C1 & S1 & K1);
      [apply Hl; by left|].
    destruct (IH w1 V1) as (w2 & H2 & V2 & M2 & L2 & N2 & C2 & S2 & K2).
    { intros r Hr. rewrite S1. apply Hl. by right. }
    exists w2. cbn [foldM]. rewrite H1. cbn [mbind res_bind].
    split; [exact H2|]. split; [exact V2|]. repeat split; try congruence.
    + intros r' Hr'. by apply M2, M1.
    + intros r Hr. apply elem_of_cons in Hr as [->|Hr]; [by apply M2 | by apply L2].
    + intros r' Hr'. destruct (N2 r' Hr') as [Hr1|Hr1].
      * destruct (N1 r' Hr1) as [?| ->]; [by left | right; by left].
      * right. by right.
Qed.

(** X14.  [addConstraint] returns; the constraint is appended; each of its
    participants is bound to the first mass of the layout that carries its
    name, if there is one; the layout then holds every participant, every
    mass it held before, and no other; and if the layout owned the masses of
    all its constraints before, it still does. *)
Theorem addConstraint_keeps_ownership (w : World) (c : cref) (c0 : Constraint) :
  valid_refs w → constraint_store w !! c = Some c0 →
  ∃ w' c1,
    addConstraint w c = Ok w'
    ∧ constraint_store w' = <[c := c1]> (constraint_store w)
    ∧ masses c1 = rebound w <$> masses c0
    ∧ _tag_id c1 = _tag_id c0 ∧ _natural_length c1 = _natural_length c0
    ∧ _stiffness c1 = _stiffness c0
    ∧ _constraints (layout w') = _constraints (layout w) ++ [c]
    ∧ mass_store w' = mass_store w
    ∧ (∀ r, r ∈ _masses (layout w') ↔ r ∈ _masses (layout w) ∨ r ∈ masses c1)
    ∧ _system_changed (layout w') = true
    ∧ valid_refs w'
    ∧ (owned w → owned w').
Proof.
  intros Hvalid Hc0. pose proof Hvalid as (Hm & Hc & Hk).
  destruct (rebind_all w c0) as (c1 & Hc1 & Hmasses & Htag & Hlen & Hstiff);
    [intros r Hr; by eapply Hk | exact Hm |].
  set (w1 := set_constraint_store w (<[c := c1]> (constraint_store w))).
  assert (Hlt : c < length (constraint_store w)) by (by eapply lookup_lt_Some).
  assert (Hc1v : ∀ r, r ∈ masses c1 → is_Some (mass_store w !! r)).
  { intros r Hr. rewrite Hmasses in Hr. apply list_elem_of_fmap in Hr as (r0 & -> & Hr0).
    destruct (rebound_owned_or_same w r0 Hm) as [Hin | ->]; [by apply Hm | by eapply Hk]. }
  assert (V1 : valid_refs w1).
  { split; [exact Hm|]. split.
    - intros c' Hc'. cbn. apply lookup_lt_is_Some. rewrite length_insert.
      apply lookup_lt_is_Some. by apply Hc.
    - intros c' k r Hk' Hr. cbn in Hk' |- *. destruct (decide (c' = c)) as [->|Hne].
      + rewrite list_lookup_insert_eq in Hk' by exact Hlt. injection Hk' as <-.
        by apply Hc1v.
      + rewrite list_lookup_insert_ne in Hk' by done. by eapply Hk. }
  destruct (addMasses_total (masses c1) w1 V1 Hc1v)
    as (w2 & H2 & V2 & M2 & L2 & N2 & C2 & S2 & K2).
  set (w3 := set_layout w2 (set_constraints (layout w2) (_constraints (layout w2) ++ [c]))).
  assert (V3 : valid_refs w3).
  { destruct V2 as (A & B & C). split; [exact A|]. split; [|exact C].
    intros c' Hc'. cbn in Hc' |- *. apply elem_of_app in Hc' as [Hc'|Hc']; [by apply B|].
    apply list_elem_of_singleton in Hc' as ->. rewrite K2. cbn.
    apply lookup_lt_is_Some. by rewrite length_insert. }
  destruct (markStateChanged_total w3 true false V3) as (w' & Hw' & Ec & Em & Es & Ek & Ef).
  cbn in Ec, Em, Es, Ek.
  exists w', c1. split.
  { unfold addConstraint, get_constraint. rewrite Hc0. cbn [of_option mbind res_bind].
    rewrite Hc1. cbn [mbind res_bind]. fold w1. rewrite H2. cbn [mbind res_bind].
    exact Hw'. }
  assert (Hiff : ∀ r, r ∈ _masses (layout w') ↔ r ∈ _masses (layout w) ∨ r ∈ masses c1).
  { intros r. rewrite Em. split.
    - intros Hr. apply N2 in Hr. exact Hr.
    - intros [Hr|Hr]; [by apply M2 | by apply L2]. }
  split; [by rewrite Ek, K2|]. split; [exact Hmasses|]. split; [exact Htag|].
  split; [exact Hlen|]. split; [exact Hstiff|].
  split; [by rewrite Ec, C2|]. split; [by rewrite Es, S2|]. split; [exact Hiff|].
  split; [exact Ef|]. split.
  { destruct V3 as (A & B & C). cbn in A, B, C. split; [|split].
    - intros r. rewrite Em, Es. apply A.
    - intros c'. rewrite Ec, Ek. apply B.
    - intros c' k r. rewrite Ek, Es. apply C. }
  intros Howned c' k r Hc' Hk' Hr. rewrite Ec, C2 in Hc'. rewrite Ek, K2 in Hk'.
  cbn in Hc', Hk'. apply Hiff. destruct (decide (c' = c)) as [->|Hne].
  - rewrite list_lookup_insert_eq in Hk' by exact Hlt. injection Hk' as <-. by right.
  - rewrite list_lookup_insert_ne in Hk' by done. left.
    apply elem_of_app in Hc' as [Hc'|Hc'].
    + by eapply Howned.
    + apply list_elem_of_singleton in Hc'. contradiction.
Qed.

(** ** Replacing constraints: refusals and repetition *)

Lemma forallb_same_tag (t : Z) (ks : list Constraint) :
  forallb (λ c, _tag_id c =? t)%Z ks = true ↔ Forall (λ k, _tag_id k = t) ks.
Proof.
  rewrite forallb_forall, Forall_forall. split; intros H k Hk.
  - apply Z.eqb_eq, H. by apply list_elem_of_In.
  - apply Z.eqb_eq, H. by apply list_elem_of_In.
Qed.

(** X15.  [updateConstraints] raises [IndexError] on the empty list, and
    [AssertionError] when the tag of the first constraint is negative (the
    default tag is -1) or when a constraint carries another tag than the
    first; so when it returns, the list is not empty and all its tags are
    one tag that is not negative. *)
Theorem updateConstraints_refusals (w : World) (cs : list cref) (ks : list Constraint) :
  mapM (get_constraint w) cs = Ok ks →
  (ks = [] → updateConstraints w cs = Raise IndexError)
  ∧ (∀ k0 k, head ks = Some k0 → k ∈ ks →
       (_tag_id k0 < 0)%Z ∨ _tag_id k ≠ _tag_id k0 →
       updateConstraints w cs = Raise AssertionError)
  ∧ (∀ w', updateConstraints w cs = Ok w' →
       ∃ k0, head ks = Some k0 ∧ (0 <= _tag_id k0)%Z
             ∧ Forall (λ k, _tag_id k = _tag_id k0) ks).
Proof.
  intros Hks. unfold updateConstraints. rewrite Hks. cbn [mbind res_bind].
  destruct ks as [|k0 ks']; cbn [head of_option mbind res_bind].
  { split; [done|]. split; [intros ? ? [=] | intros ? [=]]. }
  set (ks := k0 :: ks') in *.
  split; [done|].
  destruct (Z.leb_spec 0 (_tag_id k0)) as [Ht|Ht]; cbn [negb].
  - destruct (forallb _ ks) eqn:Ef; cbn [negb].
    + apply forallb_same_tag in Ef. split.
      * intros k0' k [= <-] Hk [Hneg|Hne]; [lia|].
        rewrite Forall_forall in Ef. by specialize (Ef k Hk).
      * intros w' _. by exists k0.
    + split; [done | intros ? [=]].
  - split; [done | intros ? [=]].
Qed.

Lemma updateConstraints_refusals_witness :
  updateConstraints tags_world_built [0; 3] = Raise AssertionError.
Proof.
  apply (proj1 (proj2 (updateConstraints_refusals tags_world_built [0; 3]
                         [ConstraintDistance 0 1 (Fin 1) (Fin 1) 7;
                          ConstraintDistance 0 1 (Fin 1) (Fin 1) 3] eq_refl))
           (ConstraintDistance 0 1 (Fin 1) (Fin 1) 7)
           (ConstraintDistance 0 1 (Fin 1) (Fin 1) 3)).
  - reflexivity.
  - in_list.
  - right. discriminate.
Defined.

(** What a call of [updateConstraints] that returns has done. *)
Lemma updateConstraints_inv w cs w' :
  updateConstraints w cs = Ok w' →
  ∃ t, (∀ c, c ∈ cs → constraint_tag w c = Some t)
       ∧ (∀ c, c ∈ _constraints (layout w) → is_Some (constraint_store w !! c))
       ∧ _constraints (layout w')
         = filter (λ c, constraint_tag w c ≠ Some t) (_constraints (layout w)) ++ cs
       ∧ constraint_store w' = constraint_store w.
Proof.
  unfold updateConstraints. intros H.
  apply bind_Ok in H as (ks & Hks & H). apply bind_Ok in H as (k0 & Hk0 & H).
  destruct (0 <=? _tag_id k0)%Z; cbn [negb] in H; [|discriminate].
  destruct (forallb _ ks) eqn:Ef; cbn [negb] in H; [|discriminate].
  apply bind_Ok in H as (kept & Hkept & H).
  exists (_tag_id k0).
  assert (Htags : ∀ c, c ∈ cs → constraint_tag w c = Some (_tag_id k0)).
  { rewrite forallb_forall in Ef. apply mapM_Ok_Forall2 in Hks.
    clear -Hks Ef. induction Hks as [|c k cs ks Hc _ IH]; intros c' Hc'.
    - by apply elem_of_nil in Hc'.
    - apply elem_of_cons in Hc' as [->|Hc'].
      + unfold get_constraint in Hc. unfold constraint_tag.
        destruct (constraint_store w !! c); [|discriminate]. injection Hc as ->. cbn.
        f_equal. apply Z.eqb_eq, Ef. by left.
      + apply IH; [|done]. intros x Hx. apply Ef. by right. }
  assert (Hvalid : ∀ c, c ∈ _constraints (layout w) → is_Some (constraint_store w !! c)).
  { apply mapM_Ok_Forall2 in Hkept. clear -Hkept.
    induction Hkept as [|c k cs ks Hc _ IH]; intros c' Hc'.
    - by apply elem_of_nil in Hc'.
    - apply elem_of_cons in Hc' as [->|Hc']; [|by apply IH].
      apply bind_Ok in Hc as (k' & Hk' & _). unfold get_constraint in Hk'.
      destruct (constraint_store w !! c); [by eexists | discriminate]. }
  split; [exact Htags|]. split; [exact Hvalid|].
  assert (Hfilter : (filter (λ cc : cref * Constraint, _tag_id cc.2 ≠ _tag_id k0) kept).*1
                    = filter (λ c, constraint_tag w c ≠ Some (_tag_id k0))
                        (_constraints (layout w))).
  { apply mapM_Ok_Forall2 in Hkept. clear -Hkept.
    induction Hkept as [|c k cs ks Hc _ IH]; [reflexivity|].
    apply bind_Ok in Hc as (k' & Hk' & Hc). injection Hc as <-.
    unfold get_constraint in Hk'.
    destruct (constraint_store w !! c) as [k0'|] eqn:Ec; [|discriminate].
    injection Hk' as ->.
    assert (Htag : constraint_tag w c = Some (_tag_id k')) by (unfold constraint_tag; by rewrite Ec).
    rewrite !filter_cons. cbn [snd].
    destruct (decide (_tag_id k' ≠ _tag_id k0)) as [Hne|Heq].
    - rewrite decide_True by (rewrite Htag; congruence). cbn [fmap list_fmap fst].
      by rewrite <- IH.
    - rewrite decide_False by (rewrite Htag; intros Hn; apply Heq; congruence). exact IH. }
  set (w1 := set_layout w _) in H.
  assert (E1 : _constraints (layout w') = _constraints (layout w1)
               ∧ constraint_store w' = constraint_store w1).
  { unfold markStateChanged in H. apply bind_Ok in H as (w2 & Hw2 & H).
    assert (E2 : _constraints (layout w2) = _constraints (layout w1)
                 ∧ constraint_store w2 = constraint_store w1).
    { unfold logEnergy in Hw2. cbn in Hw2.
      destruct (_energy_log (layout w)); [|by injection Hw2 as <-].
      apply bind_Ok in Hw2 as (e' & _ & Hw2). by injection Hw2 as <-. }
    destruct E2 as [<- <-].
    destruct (_post_state_change_fcn (layout w2)); cbn in H; by injection H as <-. }
  destruct E1 as [-> ->]. unfold w1. cbn. by rewrite Hfilter.
Qed.

Lemma filter_none {A} (P : A → Prop) `{∀ x, Decision (P x)} (l : list A) :
  (∀ x, x ∈ l → ¬ P x) → filter P l = [].
Proof.
  induction l as [|x l IH]; intros Hn; [done|].
  rewrite filter_cons, decide_False by (apply Hn; by left).
  apply IH. intros y Hy. apply Hn. by right.
Qed.

Lemma filter_twice {A} (P : A → Prop) `{∀ x, Decision (P x)} (l : list A) :
  filter P (filter P l) = filter P l.
Proof.
  induction l as [|x l IH]; [done|]. rewrite filter_cons.
  destruct (decide (P x)) as [Hp|Hp]; [|exact IH].
  by rewrite filter_cons, decide_True, IH.
Qed.

(** X16.  Replacing the constraints of a tag twice by the same list leaves
    the constraints that replacing them once has left. *)
Theorem updateConstraints_twice (w w1 w2 : World) (cs : list cref) :
  updateConstraints w cs = Ok w1 → updateConstraints w1 cs = Ok w2 →
  _constraints (layout w2) = _constraints (layout w1).
Proof.
  intros H1 H2.
  destruct cs as [|c0 cs']; [discriminate|]. set (cs := c0 :: cs') in *.
  apply updateConstraints_inv in H1 as (t & Ht & _ & E1 & K1).
  apply updateConstraints_inv in H2 as (t' & Ht' & _ & E2 & K2).
  assert (Htag : ∀ c, constraint_tag w1 c = constraint_tag w c).
  { intros c. unfold constraint_tag. by rewrite K1. }
  assert (t' = t) as ->.
  { specialize (Ht c0 ltac:(by left)). specialize (Ht' c0 ltac:(by left)).
    rewrite Htag in Ht'. congruence. }
  rewrite E2, E1. f_equal. rewrite filter_app.
  rewrite (filter_none _ cs) by (intros c Hc Hn; apply Hn; rewrite Htag; by apply Ht).
  rewrite app_nil_r.
  erewrite (list_filter_iff _ (λ c, constraint_tag w c ≠ Some t)); [apply filter_twice|].
  intros c. by rewrite Htag.
Qed.

Lemma updateConstraints_twice_witness :
  ∃ w1 w2,
    updateConstraints tags_world_built [5] = Ok w1
    ∧ updateConstraints w1 [5] = Ok w2
    ∧ _constraints (layout w2) = _constraints (layout w1).
Proof.
  eexists _, _.
  assert (H1 : updateConstraints tags_world_built [5]
               = Ok (set_layout tags_world0
                       (mkSpatialLayout [3; 4; 5] [0; 1] true false None None []
                          (mkRungeKutta45 [] (Fin 0))))) by reflexivity.
  assert (H2 : updateConstraints
                 (set_layout tags_world0
                    (mkSpatialLayout [3; 4; 5] [0; 1] true false None None []
                       (mkRungeKutta45 [] (Fin 0)))) [5]
               = Ok (set_layout tags_world0
                       (mkSpatialLayout [3; 4; 5] [0; 1] true false None None []
                          (mkRungeKutta45 [] (Fin 0))))) by reflexivity.
  split; [exact H1|]. split; [exact H2|].
  exact (updateConstraints_twice _ _ _ _ H1 H2).
Defined.

(** ** Marking the state as changed: the log and the hook *)

(** X17.  A call of [markStateChanged] that returns has set the flag to its
    argument, has appended exactly one sample to each series of the energy
    log (after emptying them, when [reset] is set), has called the hook
    exactly once, and has touched nothing else. *)
Theorem markStateChanged_logs_once (w w' : World) (changed reset : bool) :
  markStateChanged w changed reset = Ok w' →
  _system_changed (layout w') = changed
  ∧ hook_calls w' = hook_calls w ++ option_list (_post_state_change_fcn (layout w))
  ∧ match _energy_log (layout w), _energy_log (layout w') with
    | None, None => True
    | Some e, Some e' =>
        ∃ k p, e' = mkEnergyLog
                      ((if reset then [] else log_t e) ++ [ode_t (_ode (layout w))])
                      ((if reset then [] else kinetic e) ++ [k])
                      ((if reset then [] else potential e) ++ [p])
    | _, _ => False
    end
  ∧ _masses (layout w') = _masses (layout w)
  ∧ _constraints (layout w') = _constraints (layout w)
  ∧ _bounced_last_step (layout w') = _bounced_last_step (layout w)
  ∧ _post_state_change_fcn (layout w') = _post_state_change_fcn (layout w)
  ∧ _log_a (layout w') = _log_a (layout w)
  ∧ _ode (layout w') = _ode (layout w)
  ∧ mass_store w' = mass_store w
  ∧ constraint_store w' = constraint_store w.
Proof.
  unfold markStateChanged. intros H. apply bind_Ok in H as (w1 & Hw1 & H).
  set (w0 := if reset then _ else _) in Hw1.
  assert (E0 : _system_changed (layout w0) = changed
               ∧ hook_calls w0 = hook_calls w
               ∧ _energy_log (layout w0)
                 = (if reset then (λ _, mkEnergyLog [] [] []) <$> _energy_log (layout w)
                    else _energy_log (layout w))
               ∧ _masses (layout w0) = _masses (layout w)
               ∧ _constraints (layout w0) = _constraints (layout w)
               ∧ _bounced_last_step (layout w0) = _bounced_last_step (layout w)
               ∧ _post_state_change_fcn (layout w0) = _post_state_change_fcn (layout w)
               ∧ _log_a (layout w0) = _log_a (layout w)
               ∧ _ode (layout w0) = _ode (layout w)
               ∧ mass_store w0 = mass_store w
               ∧ constraint_store w0 = constraint_store w).
  { unfold w0, resetEnergyLog. destruct reset; cbn; [|done].
    destruct (_energy_log (layout w)) eqn:E; cbn; rewrite ?E; done. }
  destruct E0 as (A1 & A2 & A3 & A4 & A5 & A6 & A7 & A8 & A9 & A10 & A11).
  clearbody w0. unfold logEnergy in Hw1.
  destruct (_energy_log (layout w0)) as [e0|] eqn:Elog.
  - apply bind_Ok in Hw1 as (e1 & He1 & Hw1). injection Hw1 as <-.
    unfold EnergyLog_logEnergy in He1.
    apply bind_Ok in He1 as (ks & _ & He1). apply bind_Ok in He1 as (ps & _ & He1).
    injection He1 as <-. cbn in H.
    assert (Hw' : w' = set_hook_calls
                         (set_layout w0 (set_energy_log (layout w0)
                            (Some (mkEnergyLog (log_t e0 ++ [ode_t (_ode (layout w0))])
                                     (kinetic e0 ++ [nsum ks]) (potential e0 ++ [nsum ps])))))
                         (hook_calls w0 ++ option_list (_post_state_change_fcn (layout w0)))).
    { destruct (_post_state_change_fcn (layout w0)); cbn in H |- *; injection H as <-;
        [done|]. rewrite app_nil_r. by destruct w0. }
    subst w'. cbn. rewrite A2, A7. repeat split; try done.
    destruct (_energy_log (layout w)) as [e|]; [|by destruct reset].
    exists (nsum ks), (nsum ps). rewrite A9.
    destruct reset; cbn in A3; injection A3 as ->; reflexivity.
  - injection Hw1 as <-.
    assert (Hw' : w' = set_hook_calls w0
                         (hook_calls w0 ++ option_list (_post_state_change_fcn (layout w0)))).
    { destruct (_post_state_change_fcn (layout w0)); cbn in H |- *; injection H as <-;
        [done|]. rewrite app_nil_r. by destruct w0. }
    subst w'. cbn. rewrite A2, A7, Elog. repeat split; try done.
    destruct (_energy_log (layout w)); [|done]. by destruct reset.
Qed.

Local Open Scope R_scope.

(** ** What a step leaves alone *)

Lemma same_objects_refl h : same_objects h h.
Proof. split; [done|]. intros r m Hm. by exists m. Qed.

Lemma same_objects_trans h1 h2 h3 :
  same_objects h1 h2 → same_objects h2 h3 → same_objects h1 h3.
Proof.
  intros [L1 H1] [L2 H2]. split; [congruence|].
  intros r m Hm. destruct (H1 r m Hm) as (m' & Hm' & A & B & C).
  destruct (H2 r m' Hm') as (m'' & Hm'' & A' & B' & C').
  exists m''. repeat split; congruence.
Qed.

Lemma same_objects_insert (h : mstore) r m m' :
  h !! r = Some m → name m' = name m → fixed m' = fixed m → _mass m' = _mass m →
  same_objects h (<[r := m']> h).
Proof.
  intros Hm A B C. split; [apply length_insert|].
  intros r0 m0 Hm0. destruct (decide (r0 = r)) as [->|Hne].
  - assert (Some m = Some m0) as [= <-] by (rewrite <- Hm; exact Hm0).
    exists m'. split; [|done]. apply list_lookup_insert_eq. by eapply lookup_lt_Some.
  - exists m0. split; [|done]. by rewrite list_lookup_insert_ne.
Qed.

Lemma same_but_acc_objects h h' : same_but_acc h h' → same_objects h h'.
Proof.
  intros [L H]. split; [exact L|]. intros r m Hm. destruct (H r m Hm) as [a Ha].
  exists (set_acc m a). by destruct m.
Qed.

Lemma foldM_same_objects {B} (f : mstore → B → res mstore) l :
  (∀ h x h', f h x = Ok h' → same_objects h h') →
  ∀ h h', foldM f h l = Ok h' → same_objects h h'.
Proof.
  intros Hf. induction l as [|x l IH]; intros h h' H.
  - injection H as <-. apply same_objects_refl.
  - cbn [foldM] in H. apply bind_Ok in H as (h1 & H1 & H).
    eapply same_objects_trans; [by eapply Hf | by apply IH].
Qed.

Lemma pushState_objects w y w' :
  _pushState w y = Ok w' → same_objects (mass_store w) (mass_store w').
Proof.
  unfold _pushState. intros H. apply bind_Ok in H as (h & Hh & H). injection H as <-.
  cbn. revert Hh. apply foldM_same_objects. intros h0 [i r] h1 H1.
  unfold push_one in H1. apply bind_Ok in H1 as (m & Hm & H1).
  apply bind_Ok in H1 as (p & _ & H1). apply bind_Ok in H1 as (v & _ & H1).
  injection H1 as <-. unfold get_mass in Hm.
  destruct (h0 !! r) eqn:E; [|discriminate]. injection Hm as ->.
  eapply same_objects_insert; [exact E | reflexivity..].
Qed.

Lemma stateDerivative_objects w t y w' k :
  _stateDerivative w t y = Ok (w', k) → same_objects (mass_store w) (mass_store w').
Proof.
  unfold _stateDerivative. intros H.
  apply bind_Ok in H as (w1 & H1 & H). apply bind_Ok in H as (w2 & H2 & H).
  apply bind_Ok in H as (parts & _ & H). apply bind_Ok in H as (d & _ & H).
  injection H as <- _.
  apply pushState_objects in H1. apply refreshForces_acc_only in H2.
  eapply same_objects_trans; [exact H1 | by apply same_but_acc_objects].
Qed.

Lemma integrate_objects w t w' y :
  integrate _stateDerivative w t = Ok (w', y) →
  same_objects (mass_store w) (mass_store w')
  ∧ _masses (layout w') = _masses (layout w)
  ∧ _constraints (layout w') = _constraints (layout w)
  ∧ constraint_store w' = constraint_store w
  ∧ _log_a (layout w') = _log_a (layout w)
  ∧ _bounced_last_step (layout w') = _bounced_last_step (layout w)
  ∧ ode_t (_ode (layout w')) = t
  ∧ ode_y (_ode (layout w')) = y.
Proof.
  unfold integrate. intros H.
  apply bind_Ok in H as ([w1 k1] & E1 & H). apply bind_Ok in H as (y2 & _ & H).
  apply bind_Ok in H as ([w2 k2] & E2 & H). apply bind_Ok in H as (y3 & _ & H).
  apply bind_Ok in H as ([w3 k3] & E3 & H). apply bind_Ok in H as (y4 & _ & H).
  apply bind_Ok in H as ([w4 k4] & E4 & H). do 4 inv_bind H.
  injection H as <- <-.
  pose proof (stateDerivative_objects _ _ _ _ _ E1) as O1.
  pose proof (stateDerivative_objects _ _ _ _ _ E2) as O2.
  pose proof (stateDerivative_objects _ _ _ _ _ E3) as O3.
  pose proof (stateDerivative_objects _ _ _ _ _ E4) as O4.
  apply stateDerivative_frame in E1 as (L1 & C1 & _).
  apply stateDerivative_frame in E2 as (L2 & C2 & _).
  apply stateDerivative_frame in E3 as (L3 & C3 & _).
  apply stateDerivative_frame in E4 as (L4 & C4 & _).
  cbn. rewrite L4, L3, L2, L1. split; [|repeat split; congruence].
  eapply same_objects_trans; [exact O1|]. eapply same_objects_trans; [exact O2|].
  eapply same_objects_trans; [exact O3 | exact O4].
Qed.

Lemma stepSafely_objects fuel : ∀ w mass step w',
  _stepSafely fuel w mass step = Ok w' →
  same_objects (mass_store w) (mass_store w')
  ∧ _masses (layout w') = _masses (layout w)
  ∧ _constraints (layout w') = _constraints (layout w)
  ∧ constraint_store w' = constraint_store w
  ∧ _log_a (layout w') = _log_a (layout w)
  ∧ _ode (layout w') = _ode (layout w)
  ∧ _energy_log (layout w') = _energy_log (layout w)
  ∧ hook_calls w' = hook_calls w.
Proof.
  induction fuel as [|fuel IH]; intros w mass step w' H; [discriminate|].
  cbn [_stepSafely] in H. apply bind_Ok in H as (m & Hm & H).
  apply bind_Ok in H as (o & _ & H).
  unfold the_mass, get_mass in Hm.
  destruct (mass_store w !! mass) as [m0|] eqn:Em; [|discriminate]. injection Hm as ->.
  destruct o as [u|].
  - apply bind_Ok in H as (mu & Hmu & H). apply bind_Ok in H as (p & _ & H).
    unfold the_mass, get_mass in Hmu.
    destruct (mass_store w !! u) as [mu0|] eqn:Eu; [|discriminate]. injection Hmu as ->.
    apply IH in H as (O & A1 & A2 & A3 & A4 & A5 & A6 & A7). cbn in O, A1, A2, A3, A4, A5, A6, A7.
    split; [|done].
    eapply same_objects_trans; [|exact O].
    set (h1 := <[mass := _]> (mass_store w)).
    assert (O1 : same_objects (mass_store w) h1)
      by (eapply same_objects_insert; [exact Em | reflexivity..]).
    set (h2 := <[u := _]> h1).
    assert (O2 : same_objects h1 h2).
    { destruct O1 as [_ O1]. destruct (O1 u mu Eu) as (mu' & Emu' & ? & ? & ?).
      eapply same_objects_insert; [exact Emu' | cbn; congruence..]. }
    assert (O3 : same_objects h2 (upd_mass h2 mass (λ m, set_pos m p))).
    { unfold upd_mass. destruct (h2 !! mass) as [m2|] eqn:E2; [|apply same_objects_refl].
      eapply same_objects_insert; [exact E2 | reflexivity..]. }
    eapply same_objects_trans; [exact O1|]. eapply same_objects_trans; [exact O2 | exact O3].
  - injection H as <-. cbn. split; [|done].
    eapply same_objects_insert; [exact Em | reflexivity..].
Qed.

Lemma logEnergy_keeps w w' :
  logEnergy w = Ok w' →
  _system_changed (layout w') = _system_changed (layout w)
  ∧ _masses (layout w') = _masses (layout w)
  ∧ _constraints (layout w') = _constraints (layout w)
  ∧ _bounced_last_step (layout w') = _bounced_last_step (layout w)
  ∧ _log_a (layout w') = _log_a (layout w)
  ∧ _ode (layout w') = _ode (layout w)
  ∧ mass_store w' = mass_store w
  ∧ constraint_store w' = constraint_store w.
Proof.
  unfold logEnergy. intros H.
  destruct (_energy_log (layout w)); [apply bind_Ok in H as (e' & _ & H)|];
    cbn in H; by injection H as <-.
Qed.

Lemma markStateChanged_keeps w changed reset w' :
  markStateChanged w changed reset = Ok w' →
  _system_changed (layout w') = changed
  ∧ _masses (layout w') = _masses (layout w)
  ∧ _constraints (layout w') = _constraints (layout w)
  ∧ _bounced_last_step (layout w') = _bounced_last_step (layout w)
  ∧ _log_a (layout w') = _log_a (layout w)
  ∧ _ode (layout w') = _ode (layout w)
  ∧ mass_store w' = mass_store w
  ∧ constraint_store w' = constraint_store w.
Proof.
  unfold markStateChanged. intros H. apply bind_Ok in H as (w1 & Hw1 & H).
  apply logEnergy_keeps in Hw1 as (A1 & A2 & A3 & A4 & A5 & A6 & A7 & A8).
  assert (H1 : _system_changed (layout w1) = changed
               ∧ _masses (layout w1) = _masses (layout w)
               ∧ _constraints (layout w1) = _constraints (layout w)
               ∧ _bounced_last_step (layout w1) = _bounced_last_step (layout w)
               ∧ _log_a (layout w1) = _log_a (layout w)
               ∧ _ode (layout w1) = _ode (layout w)
               ∧ mass_store w1 = mass_store w
               ∧ constraint_store w1 = constraint_store w).
  { rewrite A1, A2, A3, A4, A5, A6, A7, A8.
    destruct reset; [unfold resetEnergyLog|]; cbn; [|done].
    by destruct (_energy_log (layout w)). }
  destruct H1 as (<- & <- & <- & <- & <- & <- & <- & <-).
  destruct (_post_state_change_fcn (layout w1)); cbn in H; by injection H as <-.
Qed.

Lemma pushStateSafely_objects fuel w y_a y_b w' :
  _pushStateSafely fuel w y_a y_b = Ok w' →
  same_objects (mass_store w) (mass_store w')
  ∧ _masses (layout w') = _masses (layout w)
  ∧ _constraints (layout w') = _constraints (layout w)
  ∧ constraint_store w' = constraint_store w
  ∧ _log_a (layout w') = _log_a (layout w)
  ∧ _ode (layout w') = _ode (layout w).
Proof.
  unfold _pushStateSafely. intros H.
  apply bind_Ok in H as (w1 & H1 & H). apply bind_Ok in H as (y_delta & _ & H).
  apply bind_Ok in H as (h & Hh & H).
  pose proof (pushState_objects _ _ _ H1) as O1.
  apply pushState_frame in H1 as (L1 & C1 & _).
  assert (O2 : same_objects (mass_store w1) h).
  { revert Hh. cbn. apply foldM_same_objects. intros h0 [i r] h1 Hstep.
    apply bind_Ok in Hstep as (m & Hm & Hstep). apply bind_Ok in Hstep as (v & _ & Hstep).
    injection Hstep as <-. unfold get_mass in Hm.
    destruct (h0 !! r) eqn:E; [|discriminate]. injection Hm as ->.
    eapply same_objects_insert; [exact E | reflexivity..]. }
  set (w2 := set_mass_store _ h) in H.
  assert (Inv : same_objects (mass_store w2) (mass_store w')
                ∧ _masses (layout w') = _masses (layout w2)
                ∧ _constraints (layout w') = _constraints (layout w2)
                ∧ constraint_store w' = constraint_store w2
                ∧ _log_a (layout w') = _log_a (layout w2)
                ∧ _ode (layout w') = _ode (layout w2)).
  { clearbody w2. revert H. generalize (imap pair (_masses (layout w2))). intros l.
    revert w2. induction l as [|[i r] l IH]; intros w2 H.
    - injection H as <-. split; [apply same_objects_refl | done].
    - cbn [foldM] in H. apply bind_Ok in H as (w3 & H3 & H).
      apply bind_Ok in H3 as (d & _ & H3).
      apply stepSafely_objects in H3 as (O & A1 & A2 & A3 & A4 & A5 & _).
      apply IH in H as (O' & B1 & B2 & B3 & B4 & B5).
      split; [by eapply same_objects_trans|]. repeat split; congruence. }
  destruct Inv as (O3 & B1 & B2 & B3 & B4 & B5). cbn in O3, B1, B2, B3, B4, B5.
  split; [|rewrite B1, B2, B3, B4, B5, L1, C1; done].
  eapply same_objects_trans; [exact O1|]. eapply same_objects_trans; [exact O2 | exact O3].
Qed.

(** X18.  A step that returns has advanced the clock of the integrator by
    the time step and recorded it; the system-changed flag tells whether a
    mass has bounced; the layout holds the same masses and constraints in
    the same order, and every mass object has kept its name, its class and
    its mass. *)
Theorem step_keeps_the_layout (fuel : nat) (w w' : World) :
  step fuel w = Ok w' →
  ode_t (_ode (layout w')) = (ode_t (_ode (layout w)) + INTEGRATION_DT)%num
  ∧ _log_a (layout w')
    = _log_a (layout w) ++ [(ode_t (_ode (layout w)) + INTEGRATION_DT)%num]
  ∧ _system_changed (layout w') = _bounced_last_step (layout w')
  ∧ _masses (layout w') = _masses (layout w)
  ∧ _constraints (layout w') = _constraints (layout w)
  ∧ constraint_store w' = constraint_store w
  ∧ same_objects (mass_store w) (mass_store w').
Proof.
  unfold step. intros H. apply bind_Ok in H as (w0 & H0 & H).
  assert (E0 : mass_store w0 = mass_store w ∧ _masses (layout w0) = _masses (layout w)
               ∧ _constraints (layout w0) = _constraints (layout w)
               ∧ constraint_store w0 = constraint_store w
               ∧ _log_a (layout w0) = _log_a (layout w)
               ∧ ode_t (_ode (layout w0)) = ode_t (_ode (layout w))).
  { destruct (_system_changed (layout w)); [|by injection H0 as <-].
    unfold reseed in H0. apply bind_Ok in H0 as (y & _ & H0). by injection H0 as <-. }
  destruct E0 as (S0 & M0 & C0 & K0 & L0 & T0).
  unfold step_integrate in H. apply bind_Ok in H as ([w1 state_next] & H1 & H).
  apply bind_Ok in H as (w2 & H2 & H).
  apply integrate_objects in H1 as (O1 & M1 & C1 & K1 & L1 & B1 & T1 & Y1).
  apply pushStateSafely_objects in H2 as (O2 & M2 & C2 & K2 & L2 & D2).
  cbn in O2, M2, C2, K2, L2, D2.
  apply markStateChanged_keeps in H as (F3 & M3 & C3 & B3 & L3 & D3 & S3 & K3).
  rewrite D3, D2, L3, L2, T1, L1, L0, T0, F3, B3, M3, M2, M1, M0, C3, C2, C1, C0, K3, K2, K1, K0, S3.
  do 6 (split; [done|]).
  rewrite <- S0. eapply same_objects_trans; [exact O1 | exact O2].
Qed.

(** ** The line that misses the circle, and the line without direction *)

(** X19.  For a line through two different finite points,
    [_firstCircleIntersect] raises its [ValueError] exactly when no point of
    the line is on the circle. *)
Theorem firstCircleIntersect_raises_iff_missed (a b c : R * R) (r : R) :
  a ≠ b →
  _firstCircleIntersect (fin2 a) (fin2 b) (fin2 c) (Fin r) = Raise ValueError
  ↔ ¬ ∃ q : R * R, on_line a b q ∧ on_circle c r q.
Proof.
  intros Hne. pose proof (line_has_direction a b Hne) as Hind.
  set (vert := fci_use_vertical (fin2 a) (fin2 b)) in *.
  assert (Huse : fci_use_vertical (fin2 a) (fin2 b) = vert) by reflexivity.
  pose proof (fci_discriminant_fin a b c r vert Huse Hind) as Hdisc.
  destruct (Rlt_dec (Rdisc vert a b c r) 0) as [Hlt|Hge].
  - split.
    + intros _ (q & Hl & Hc).
      pose proof (on_line_dep a b vert q Hind Hl) as Hq.
      assert (0 <= Rdisc vert a b c r); [|lra].
      apply (quad_has_root _ _ _ _ _ (Rind vert q)). rewrite <- Hq.
      unfold on_circle in Hc. unfold Rind, Rdep. destruct vert; cbn [fst snd] in *; lra.
    + intros _. unfold _firstCircleIntersect. rewrite Hdisc. cbn [nlt].
      by rewrite Rltb_true.
  - assert (Hd : 0 <= Rdisc vert a b c r) by lra. split.
    + rewrite (fci_result a b c r vert Huse Hind Hd). discriminate.
    + intros Hno. exfalso. apply Hno.
      exists (Rline_pt vert a b (Rroot true vert a b c r)). split.
      * apply (pt_on_line a b c r vert); assumption.
      * apply (pt_on_circle a b c r vert); assumption.
Qed.

Lemma firstCircleIntersect_raises_iff_missed_witness :
  _firstCircleIntersect (fin2 (0, 0)) (fin2 (1, 0)) (fin2 (0, 2)) (Fin 1) = Raise ValueError
  ↔ ¬ ∃ q : R * R, on_line (0, 0) (1, 0) q ∧ on_circle (0, 2) 1 q.
Proof.
  apply (firstCircleIntersect_raises_iff_missed (0, 0) (1, 0) (0, 2) 1).
  intros [= H]. lra.
Defined.

(** X20.  A line from a finite point to the same point has no direction:
    [_firstCircleIntersect] raises nothing and returns [(nan, nan)],
    whatever the circle. *)
Theorem firstCircleIntersect_without_direction (a : R * R) (c : vec2) (r : num) :
  _firstCircleIntersect (fin2 a) (fin2 a) c r = Ok nan2.
Proof.
  apply fci_of_nan_slope. destruct a as [px py].
  unfold fci_m, fci_use_vertical, fci_disp, fin2.
  cbn [vsub fst snd nadd nsub nopp nabs nlt].
  replace (px + - px) with 0 by lra. replace (py + - py) with 0 by lra.
  rewrite Rabs_R0, Rltb_false by lra. cbn [ndiv].
  rewrite !Reqb_true by lra. reflexivity.
Qed.

(** ** Two masses one unit apart *)

Lemma distance_pos_far a b c d :
  0.04 <= (a - c) * (a - c) + (b - d) * (b - d) →
  nlt (distance_pos (Fin a, Fin b) (Fin c, Fin d)) SAFE_DISTANCE = false.
Proof.
  intros H. rewrite distance_pos_fin. cbn [nlt SAFE_DISTANCE]. apply Rltb_false.
  assert (E : sqrt 0.04 = 0.2).
  { replace 0.04 with (0.2 * 0.2) by lra. apply sqrt_square. lra. }
  pose proof (sqrt_le_1_alt _ _ H). lra.
Qed.

Lemma apart_push :
  _pushStateSafely 1 (apart_state false [Fin 0.1] apart_y (Fin 0.1)) apart_y apart_y
  = Ok (apart_state false [Fin 0.1] apart_y (Fin 0.1)).
Proof.
  run_to_step.
  erewrite stepSafely_clear; [ | reflexivity | ].
  2:{ run_to_distance. rewrite distance_pos_far by lra. reflexivity. }
  cbn [mbind res_bind mret res_ret].
  run_to_step.
  erewrite stepSafely_clear; [ | reflexivity | ].
  2:{ run_to_distance. rewrite distance_pos_far by lra. reflexivity. }
  run. fin_eq.
Qed.

Lemma apart_step :
  step 1 (apart_state true [] [] (Fin 0)) = Ok (apart_state false [Fin 0.1] apart_y (Fin 0.1)).
Proof.
  unfold step.
  change (_system_changed (layout (apart_state true [] [] (Fin 0)))) with true. cbn match.
  assert (Hr : reseed (apart_state true [] [] (Fin 0)) = Ok (apart_state false [] apart_y (Fin 0)))
    by (run; reflexivity).
  rewrite Hr. cbn [mbind res_bind]. unfold step_integrate.
  assert (Hi : integrate _stateDerivative (apart_state false [] apart_y (Fin 0))
                 (ode_t (_ode (layout (apart_state false [] apart_y (Fin 0)))) + INTEGRATION_DT)%num
               = Ok (apart_state false [] apart_y (Fin 0.1), apart_y))
    by (run; fin_eq).
  rewrite Hi. cbn [mbind res_bind].
  change (ode_y (_ode (layout (apart_state false [] apart_y (Fin 0))))) with apart_y.
  change (set_layout _ _) with (apart_state false [Fin 0.1] apart_y (Fin 0.1)).
  rewrite apart_push. cbn [mbind res_bind]. run. reflexivity.
Qed.

(** ** A step and the safe distance *)

(** X21.  When [step] returns on a layout that holds no mass twice, no two
    masses of the layout compare nearer than the safe distance, and every
    distance between two of them that is a number is at least the safe
    distance. *)
Theorem step_keeps_safe_distance (fuel : nat) (w w' : World) :
  NoDup (_masses (layout w)) →
  step fuel w = Ok w' →
  ∀ i j mi mj,
    i ∈ _masses (layout w') → j ∈ _masses (layout w') → i ≠ j →
    mass_store w' !! i = Some mi → mass_store w' !! j = Some mj →
    nlt (_distance mi mj) SAFE_DISTANCE = false
    ∧ (_distance mi mj ≠ NaN → nle SAFE_DISTANCE (_distance mi mj) = true).
Proof.
  intros Hnd H i j mi mj Hi Hj Hij Ei Ej.
  destruct (step_never_near _ _ _ Hnd H) as [_ Hall].
  specialize (Hall i j Hi Hj Hij mi mj Ei Ej). split; [exact Hall|].
  intros Hnan. destruct (_distance mi mj) as [d| | |]; try done.
  cbn [SAFE_DISTANCE nle nlt] in *.
  unfold Rltb in *. destruct (Rlt_dec d 0.2); [discriminate | reflexivity].
Qed.

Lemma step_keeps_safe_distance_witness :
  nlt (_distance (new_Mass "a" None None None)
                 (new_Mass "b" (Some (Fin 1, Fin 0)) None None)) SAFE_DISTANCE = false
  ∧ (_distance (new_Mass "a" None None None)
               (new_Mass "b" (Some (Fin 1, Fin 0)) None None) ≠ NaN →
     nle SAFE_DISTANCE (_distance (new_Mass "a" None None None)
                                  (new_Mass "b" (Some (Fin 1, Fin 0)) None None)) = true).
Proof.
  apply (step_keeps_safe_distance 1 (apart_state true [] [] (Fin 0))
           (apart_state false [Fin 0.1] apart_y (Fin 0.1))) with (i := 0%nat) (j := 1%nat).
  - cbn. apply NoDup_cons. split; [|apply NoDup_singleton].
    intros H. apply list_elem_of_singleton in H. discriminate.
  - exact apart_step.
  - cbn. in_list.
  - cbn. in_list.
  - discriminate.
  - reflexivity.
  - reflexivity.
Defined.

(** ** A mass alone *)

(** X22.  One step of a layout that holds one free mass at a finite position
    with a finite velocity and no constraint, taken when the system-changed
    flag is set or the state vector of the integrator is the position and
    velocity of the mass: friction alone acts, the velocity is scaled by
    0.9048375, the mass moves on by 0.0951625 times its velocity, its kinetic
    energy is scaled by the square of 0.9048375, the clock advances by the
    time step and the flag is left clear. *)
Theorem lone_mass_slows_down (nm : string) (px py vx vy : R) (a : vec2) (rest : mstore)
    (cs : list Constraint) (changed bounced : bool) (elog : option EnergyLog)
    (fcn : option hook) (la y0 : list num) (t : num) (calls : list hook) (fuel : nat) :
  let m := mkMass nm (Fin 1) false (Fin px, Fin py) (Fin vx, Fin vy) a in
  let m' := mkMass nm (Fin 1) false
              (Fin (px + 0.0951625 * vx), Fin (py + 0.0951625 * vy))
              (Fin (0.9048375 * vx), Fin (0.9048375 * vy))
              (Fin (- 0.90475 * vx), Fin (- 0.90475 * vy)) in
  changed = true ∨ y0 = [Fin px; Fin py; Fin vx; Fin vy] →
  ∃ w',
    step (S fuel) (lone_world m rest cs changed bounced elog fcn la y0 t calls) = Ok w'
    ∧ mass_store w' = m' :: rest
    ∧ ode_y (_ode (layout w'))
      = [Fin (px + 0.0951625 * vx); Fin (py + 0.0951625 * vy);
         Fin (0.9048375 * vx); Fin (0.9048375 * vy)]
    ∧ ode_t (_ode (layout w')) = (t + INTEGRATION_DT)%num
    ∧ _system_changed (layout w') = false
    ∧ Mass_totalEnergy m'
      = (Fin (0.9048375 * 0.9048375) * Mass_totalEnergy m)%num.
Proof.
  intros m m' Hsync.
  assert (He : Mass_totalEnergy m'
               = (Fin (0.9048375 * 0.9048375) * Mass_totalEnergy m)%num).
  { cbn. apply (f_equal Fin). lra. }
  destruct Hsync as [-> | ->]; [|destruct changed].
  all: destruct elog as [e|], fcn as [g|].
  all: eexists; split; [run; reflexivity|].
  all: split; [run; fin_eq|].
  all: split; [run; fin_eq|].
  all: split; [run; reflexivity|].
  all: split; [reflexivity | exact He].
Qed.

(** A mass that starts at the origin with the velocity [(1, 0)], in a layout
    whose integrator is in step with it. *)
Lemma lone_mass_slows_down_witness :
  ∃ w',
    step 1 (lone_world (mkMass "a" (Fin 1) false (Fin 0, Fin 0) (Fin 1, Fin 0) vzero)
              [] [] false false (Some (mkEnergyLog [] [] [])) None []
              [Fin 0; Fin 0; Fin 1; Fin 0] (Fin 0) []) = Ok w'
    ∧ mass_store w'
      = [mkMass "a" (Fin 1) false
           (Fin (0 + 0.0951625 * 1), Fin (0 + 0.0951625 * 0))
           (Fin (0.9048375 * 1), Fin (0.9048375 * 0))
           (Fin (- 0.90475 * 1), Fin (- 0.90475 * 0))]
    ∧ ode_y (_ode (layout w'))
      = [Fin (0 + 0.0951625 * 1); Fin (0 + 0.0951625 * 0);
         Fin (0.9048375 * 1); Fin (0.9048375 * 0)]
    ∧ ode_t (_ode (layout w')) = (Fin 0 + INTEGRATION_DT)%num
    ∧ _system_changed (layout w') = false
    ∧ Mass_totalEnergy
        (mkMass "a" (Fin 1) false
           (Fin (0 + 0.0951625 * 1), Fin (0 + 0.0951625 * 0))
           (Fin (0.9048375 * 1), Fin (0.9048375 * 0))
           (Fin (- 0.90475 * 1), Fin (- 0.90475 * 0)))
      = (Fin (0.9048375 * 0.9048375)
         * Mass_totalEnergy
             (mkMass "a" (Fin 1) false (Fin 0, Fin 0) (Fin 1, Fin 0) vzero))%num.
Proof.
  apply (lone_mass_slows_down "a" 0 0 1 0 vzero [] [] false false
           (Some (mkEnergyLog [] [] [])) None [] [Fin 0; Fin 0; Fin 1; Fin 0] (Fin 0) []
           0%nat).
  right. reflexivity.
Defined.

(** ** A layout without masses *)

Lemma applyForce_total (h : mstore) (c : Constraint) :
  (∀ r, r ∈ masses c → is_Some (h !! r)) → ∃ h', applyForce h c = Ok h'.
Proof.
  intros Hv.
  assert (Hacc : ∀ (h0 : mstore) r v, is_Some (h0 !! r) →
                   ∃ h1, accelerate h0 r v = Ok h1 ∧ length h1 = length h0).
  { intros h0 r v [m Hm]. unfold accelerate, get_mass. rewrite Hm. cbn.
    eexists. split; [reflexivity|]. destruct (fixed m); [done | apply length_insert]. }
  destruct c as [a b l k t | a b l k t | a b c l k t]; cbn [applyForce masses] in *;
    unfold displacement, length_, get_mass.
  - destruct (Hv a) as [ma Ea]; [in_list|]. destruct (Hv b) as [mb Eb]; [in_list|].
    rewrite Ea, Eb. cbn [of_option mbind res_bind mret res_ret].
    edestruct (Hacc h a) as (h1 & -> & L1); [by eexists|]. cbn [mbind res_bind].
    edestruct (Hacc h1 b) as (h2 & -> & L2); [|by eexists].
    apply lookup_lt_is_Some. rewrite L1. by eapply lookup_lt_Some.
  - destruct (Hv a) as [ma Ea]; [in_list|]. destruct (Hv b) as [mb Eb]; [in_list|].
    rewrite Ea, Eb. cbn [of_option mbind res_bind mret res_ret].
    edestruct (Hacc h a) as (h1 & -> & L1); [by eexists|]. cbn [mbind res_bind].
    edestruct (Hacc h1 b) as (h2 & -> & L2); [|by eexists].
    apply lookup_lt_is_Some. rewrite L1. by eapply lookup_lt_Some.
  - destruct (Hv a) as [ma Ea]; [in_list|]. destruct (Hv b) as [mb Eb]; [in_list|].
    destruct (Hv c) as [mc Ec]; [in_list|].
    rewrite Ea, Eb, Ec. cbn [of_option mbind res_bind mret res_ret].
    edestruct (Hacc h a) as (h1 & -> & L1); [by eexists|]. cbn [mbind res_bind].
    edestruct (Hacc h1 b) as (h2 & -> & L2).
    { apply lookup_lt_is_Some. rewrite L1. by eapply lookup_lt_Some. }
    cbn [mbind res_bind].
    edestruct (Hacc h2 c) as (h3 & -> & L3); [|by eexists].
    apply lookup_lt_is_Some. rewrite L2, L1. by eapply lookup_lt_Some.
Qed.

Lemma forces_total w cs : ∀ h,
  length h = length (mass_store w) →
  (∀ c, c ∈ cs → is_Some (constraint_store w !! c)) →
  (∀ c k r, constraint_store w !! c = Some k → r ∈ masses k →
            is_Some (mass_store w !! r)) →
  ∃ h', foldM (λ h c, c' ← get_constraint w c; applyForce h c') h cs = Ok h'.
Proof.
  induction cs as [|c cs IH]; intros h Hlen Hc Hk; [by eexists|].
  cbn [foldM]. destruct (Hc c) as [k Ek]; [by left|].
  assert (E : get_constraint w c = Ok k) by (unfold get_constraint; by rewrite Ek).
  rewrite E. cbn [mbind res_bind].
  destruct (applyForce_total h k) as [h1 H1].
  { intros r Hr. apply lookup_lt_is_Some. rewrite Hlen. apply lookup_lt_is_Some.
    by eapply Hk. }
  rewrite H1. cbn [mbind res_bind]. apply IH; [|intros; apply Hc; by right | exact Hk].
  apply applyForce_spec in H1 as [[L _] _]. congruence.
Qed.

(** X23.  [step] on a layout that holds no mass raises [ValueError]: there
    is no state vector to build. *)
Theorem step_without_masses_raises (fuel : nat) (w : World) :
  valid_refs w → _masses (layout w) = [] → step fuel w = Raise ValueError.
Proof.
  intros (_ & Hc & Hk) Hm. unfold step.
  destruct (_system_changed (layout w)).
  - unfold reseed, _pullState. rewrite Hm. reflexivity.
  - cbn [mret res_ret mbind res_bind]. unfold step_integrate, integrate, _stateDerivative.
    unfold _pushState. rewrite Hm. cbn [imap foldM mbind res_bind mret res_ret].
    unfold _refreshForces. cbn [layout set_mass_store mass_store]. rewrite Hm.
    cbn [foldM mbind res_bind].
    destruct (forces_total (set_mass_store w (mass_store w)) (_constraints (layout w))
                (mass_store w) eq_refl Hc Hk) as [h' ->].
    cbn [mbind res_bind mret res_ret layout set_mass_store]. rewrite Hm. reflexivity.
Qed.

Local Close Scope R_scope.

(** ** The initial placement keeps what the layout holds *)

Lemma list_remove_Permutation x l l' : list_remove x l = Ok l' → l ≡ₚ x :: l'.
Proof.
  revert l'. induction l as [|y l IH]; intros l' H; [discriminate|].
  cbn [list_remove] in H. destruct (decide (y = x)) as [->|Hne].
  - by injection H as <-.
  - apply bind_Ok in H as (r & Hr & H). injection H as <-.
    rewrite (IH _ Hr). apply perm_swap.
Qed.

Lemma set_pos_same m : set_pos m (pos m) = m.
Proof. by destruct m. Qed.

Lemma set_pos_twice m p q : set_pos (set_pos m p) q = set_pos m q.
Proof. by destruct m. Qed.

Lemma same_but_placement_refl w : same_but_placement w w.
Proof.
  split; [done|]. split; [done|]. intros r m Hm. exists (pos m). by rewrite set_pos_same.
Qed.

Lemma same_but_placement_trans w1 w2 w3 :
  same_but_placement w1 w2 → same_but_placement w2 w3 → same_but_placement w1 w3.
Proof.
  intros (C1 & L1 & H1) (C2 & L2 & H2). split; [congruence|]. split; [congruence|].
  intros r m Hm. destruct (H1 r m Hm) as [p Hp]. destruct (H2 r _ Hp) as [q Hq].
  exists q. by rewrite set_pos_twice in Hq.
Qed.

Lemma order_turn_constraints w cs ms w' cs' ms' :
  order_turn w cs ms = Ok (w', cs', ms') →
  cs' ++ _constraints (layout w') ≡ₚ cs ++ _constraints (layout w)
  ∧ mass_store w' = mass_store w ∧ constraint_store w' = constraint_store w.
Proof.
  unfold order_turn. intros H.
  apply bind_Ok in H as (pending & _ & H). apply bind_Ok in H as (lowest & _ & H).
  apply bind_Ok in H as (idx & _ & H). apply bind_Ok in H as (m_best & _ & H).
  apply bind_Ok in H as (left & _ & H). apply bind_Ok in H as (both & _ & H).
  apply bind_Ok in H as ([w1 cs1] & Hf & H). injection H as <- <- <-.
  cbn [fst snd].
  apply (foldM_invariant
           (λ a : World * list cref,
              a.2 ++ _constraints (layout a.1) ≡ₚ cs ++ _constraints (layout w)
              ∧ mass_store a.1 = mass_store w ∧ constraint_store a.1 = constraint_store w))
    in Hf; [exact Hf | | done].
  intros [wa ca] c [wb cb] (Ha & Sa & Ka) Hstep. cbn [fst snd] in *.
  apply bind_Ok in Hstep as (rest & Hrest & Hstep). injection Hstep as <- <-.
  cbn. split; [|done]. rewrite <- Ha. apply list_remove_Permutation in Hrest.
  rewrite Hrest, <- app_assoc. reflexivity.
Qed.

(** The ordering phase hands the masses over in the order of the layout,
    and the constraints in some order. *)
Lemma order_loop_spec fuel : ∀ w cs ms w' cs' ms',
  order_loop fuel w cs ms = Ok (w', cs', ms') →
  ms' = ms ++ _masses (layout w)
  ∧ _masses (layout w') = [] ∧ _constraints (layout w') = []
  ∧ cs' ≡ₚ cs ++ _constraints (layout w)
  ∧ mass_store w' = mass_store w ∧ constraint_store w' = constraint_store w.
Proof.
  induction fuel as [|fuel IH]; intros w cs ms w' cs' ms' H; cbn [order_loop] in H.
  - destruct (_constraints (layout w)) eqn:Ec, (_masses (layout w)) eqn:Em; try discriminate.
    injection H as <- <- <-. rewrite Ec, Em, !app_nil_r. done.
  - destruct (_constraints (layout w)) as [|c0 cl] eqn:Ec,
             (_masses (layout w)) as [|m0 ml] eqn:Em.
    { injection H as <- <- <-. rewrite Ec, Em, !app_nil_r. done. }
    all: apply bind_Ok in H as ([[w1 cs1] ms1] & Hturn & H).
    all: pose proof (order_turn_constraints _ _ _ _ _ _ Hturn) as (Hperm & S1 & K1).
    all: apply order_turn_takes_first in Hturn as (m & rest & E1 & -> & E2).
    all: rewrite Em in E1; try discriminate; injection E1 as <- <-.
    all: apply IH in H as (-> & M & C & P & S & K).
    all: rewrite E2, <- app_assoc in *; cbn [app].
    all: split; [done|]; split; [done|]; split; [done|].
    all: split; [|split; congruence].
    all: rewrite P, Hperm, Ec; reflexivity.
Qed.

(** The constraints behind a list of references, filtered by what they
    are. *)
Lemma filter_pairs w (Q : Constraint → bool) cs both :
  mapM (λ c, c' ← get_constraint w c; mret (c, c')) cs = Ok both →
  (filter (λ cc : cref * Constraint, Q cc.2) both).*1
  = filter (λ c, from_option Q false (constraint_store w !! c)) cs.
Proof.
  intros H. apply mapM_Ok_Forall2 in H.
  induction H as [|c cc cs both Hc _ IH]; [reflexivity|].
  apply bind_Ok in Hc as (k & Hk & Hc). injection Hc as <-.
  unfold get_constraint in Hk.
  destruct (constraint_store w !! c) as [k0|] eqn:Ec; [|discriminate]. injection Hk as ->.
  rewrite !filter_cons. cbn [snd]. rewrite Ec. cbn [from_option].
  destruct (Q k) eqn:EQ.
  - rewrite !decide_True by done. cbn [fmap list_fmap fst]. by rewrite <- IH.
  - rewrite !decide_False by (intros []). exact IH.
Qed.

Lemma filter_not_in_filter {A} `{EqDecision A} (P : A → Prop) `{∀ x, Decision (P x)}
    (l0 l : list A) :
  (∀ x, x ∈ l → x ∈ l0) →
  filter (λ x, x ∉ filter P l0) l = filter (λ x, ¬ P x) l.
Proof.
  induction l as [|x l IH]; intros Hsub; [done|].
  rewrite !filter_cons, IH by (intros y Hy; apply Hsub; by right).
  destruct (decide (P x)) as [Hp|Hp].
  - rewrite (decide_False (P := x ∉ filter P l0)), (decide_False (P := ¬ P x)); [done | tauto |].
    intros Hn. apply Hn. apply list_elem_of_filter. split; [exact Hp | apply Hsub; by left].
  - rewrite (decide_True (P := x ∉ filter P l0)), (decide_True (P := ¬ P x)); [done | tauto |].
    intros Hin. apply list_elem_of_filter in Hin as [? _]. contradiction.
Qed.

Lemma place_mass_spec w cs m w' cs' :
  place_mass (w, cs) m = Ok (w', cs') →
  let done_ := λ c, from_option (λ k, all_in k (_masses (layout w) ++ [m])) false
                      (constraint_store w !! c) in
  _masses (layout w') = _masses (layout w) ++ [m]
  ∧ _constraints (layout w') = _constraints (layout w) ++ filter (λ c, done_ c) cs
  ∧ cs' = filter (λ c, ¬ done_ c) cs
  ∧ same_but_placement w w'
  ∧ ∀ c, c ∈ cs → is_Some (constraint_store w !! c).
Proof.
  unfold place_mass. intros H.
  apply bind_Ok in H as (both & Hboth & H). apply bind_Ok in H as (ps & _ & H).
  apply bind_Ok in H as (named & _ & H). apply bind_Ok in H as (merged & _ & H).
  apply bind_Ok in H as (st & _ & H). apply bind_Ok in H as (m0 & Hm0 & H).
  injection H as <- <-. cbn zeta.
  pose proof (filter_pairs w (λ k, all_in k (_masses (layout w) ++ [m])) cs both Hboth) as Hf.
  unfold same_but_placement.
  cbn [layout set_layout set_masses set_constraints set_mass_store _masses _constraints
       mass_store constraint_store].
  split; [done|]. split; [by rewrite Hf|]. split; [|split].
  - rewrite Hf. apply filter_not_in_filter. done.
  - unfold the_mass, get_mass in Hm0.
    destruct (mass_store w !! m) as [mm|] eqn:Em; [|discriminate]. injection Hm0 as ->.
    split; [done|]. split; [apply length_insert|].
    intros r mr Hr. destruct (decide (r = m)) as [->|Hne].
    + assert (Some m0 = Some mr) as [= <-] by (rewrite <- Em; exact Hr).
      exists (placement st). apply list_lookup_insert_eq. by eapply lookup_lt_Some.
    + exists (pos mr). rewrite set_pos_same. by rewrite list_lookup_insert_ne.
  - apply mapM_Ok_Forall2 in Hboth. clear -Hboth.
    induction Hboth as [|c cc cs both Hc _ IH]; intros c' Hc'.
    + by apply elem_of_nil in Hc'.
    + apply elem_of_cons in Hc' as [->|Hc']; [|by apply IH].
      apply bind_Ok in Hc as (k & Hk & _). unfold get_constraint in Hk.
      destruct (constraint_store w !! c); [by eexists | discriminate].
Qed.

Lemma foldM_app {A B} (f : A → B → res A) (l1 l2 : list B) (a : A) :
  foldM f a (l1 ++ l2) = a' ← foldM f a l1; foldM f a' l2.
Proof.
  revert a. induction l1 as [|x l1 IH]; intros a; [done|].
  cbn [app foldM]. destruct (f a x); [apply IH | done].
Qed.

Lemma place_loop_spec ms : ∀ w cs w' cs',
  foldM place_mass (w, cs) ms = Ok (w', cs') →
  _masses (layout w') = _masses (layout w) ++ ms
  ∧ _constraints (layout w') ++ cs' ≡ₚ _constraints (layout w) ++ cs
  ∧ same_but_placement w w'
  ∧ (∀ c, c ∈ cs' → c ∈ cs).
Proof.
  induction ms as [|m ms IH]; intros w cs w' cs' H.
  - injection H as <- <-. rewrite app_nil_r.
    split; [done|]. split; [done|]. split; [apply same_but_placement_refl | done].
  - cbn [foldM] in H. apply bind_Ok in H as ([w1 cs1] & H1 & H).
    apply place_mass_spec in H1 as (M1 & C1 & -> & S1 & _). cbn zeta in *.
    apply IH in H as (M2 & C2 & S2 & Sub).
    split; [by rewrite M2, M1, <- app_assoc|].
    split; [|split; [by eapply same_but_placement_trans|]].
    + rewrite C2, C1, <- app_assoc. f_equiv. apply filter_app_complement.
    + intros c Hc. apply Sub in Hc. by apply list_elem_of_filter in Hc as [_ ?].
Qed.

(** When the last mass is placed, the constraints on masses of the layout
    are all handed back. *)
Lemma place_last w cs m w' cs' :
  place_mass (w, cs) m = Ok (w', cs') →
  (∀ c k r, c ∈ cs → constraint_store w !! c = Some k → r ∈ masses k →
            r ∈ _masses (layout w) ++ [m]) →
  cs' = [].
Proof.
  intros H Hown. apply place_mass_spec in H as (_ & _ & -> & _ & Hv). cbn zeta.
  apply filter_none. intros c Hc Hn. apply Hn.
  destruct (Hv c Hc) as [k Hk].
  assert (G : ∀ o, o = Some k →
                Is_true (from_option (λ k, all_in k (_masses (layout w) ++ [m])) false o)).
  { intros o ->. cbn [from_option].
    unfold all_in. apply Is_true_true, forallb_forall. intros r Hr.
    apply bool_decide_eq_true. eapply Hown; [exact Hc | exact Hk |].
    by apply list_elem_of_In. }
  apply G. exact Hk.
Qed.

Lemma nil_or_snoc {A} (l : list A) : l = [] ∨ ∃ l' x, l = l' ++ [x].
Proof. induction l as [|x l' _] using rev_ind; [by left | right; by exists l', x]. Qed.

Lemma initialiseState_spec w w' :
  initialiseState w = Ok w' →
  _masses (layout w') = _masses (layout w)
  ∧ same_but_placement w w'
  ∧ (∃ dropped, _constraints (layout w') ++ dropped ≡ₚ _constraints (layout w))
  ∧ (owned w → _constraints (layout w') ≡ₚ _constraints (layout w)).
Proof.
  unfold initialiseState. intros H.
  apply bind_Ok in H as ([[w1 cs] ms] & Ho & H). apply bind_Ok in H as ([w2 cs2] & Hp & H).
  injection H as <-. cbn [fst].
  pose proof Ho as Ho0.
  apply order_loop_spec in Ho as (-> & M1 & C1 & P1 & S1 & K1). cbn [app] in *.
  pose proof (place_loop_spec _ _ _ _ _ Hp) as (M2 & P2 & S2 & Sub).
  rewrite M1 in M2. rewrite C1 in P2. cbn [app] in M2, P2.
  assert (S12 : same_but_placement w w1).
  { split; [done|]. split; [by rewrite S1|]. intros r m Hm. exists (pos m).
    by rewrite set_pos_same, S1. }
  split; [exact M2|]. split; [by eapply same_but_placement_trans|].
  split; [exists cs2; by rewrite P2, P1|].
  intros Hown. enough (cs2 = []) as -> by (rewrite app_nil_r in P2; by rewrite P2, P1).
  destruct (nil_or_snoc (_masses (layout w))) as [Em | (ml & m0 & Em)].
  - rewrite Em in Hp. injection Hp as _ <-.
    destruct (_constraints (layout w)) as [|c0 cl] eqn:Ec.
    + by apply Permutation_nil_r in P1.
    + exfalso. rewrite Em in Ho0. cbn [length order_loop] in Ho0. rewrite Ec in Ho0.
      unfold order_turn in Ho0. rewrite Em in Ho0.
      destruct (mapM (get_constraint w) (_constraints (layout w))); cbn in Ho0; discriminate.
  - rewrite Em in Hp. rewrite foldM_app in Hp. apply bind_Ok in Hp as ([w3 cs3] & Hp3 & Hp).
    cbn [foldM] in Hp. apply bind_Ok in Hp as ([w4 cs4] & Hp4 & Hp). injection Hp as <- <-.
    apply place_loop_spec in Hp3 as (M3 & P3 & (K3 & _) & Sub3).
    rewrite M1 in M3. cbn [app] in M3.
    eapply place_last; [exact Hp4|].
    intros c k r Hc Hk Hr. rewrite M3, <- Em. rewrite K3, K1 in Hk.
    apply (Hown c k r); [|exact Hk | exact Hr].
    apply Sub3 in Hc. rewrite P1 in Hc. exact Hc.
Qed.

(** X24.  [initialiseState] leaves the masses of the layout in the order
    they were in, writes nothing to a mass but its position, and leaves the
    constraint objects as they are. *)
Theorem initialiseState_keeps_masses (w w' : World) :
  initialiseState w = Ok w' →
  _masses (layout w') = _masses (layout w)
  ∧ constraint_store w' = constraint_store w
  ∧ ∀ r m, mass_store w !! r = Some m → ∃ p, mass_store w' !! r = Some (set_pos m p).
Proof.
  intros H. apply initialiseState_spec in H as (M & (K & _ & S) & _). done.
Qed.

(** X25.  When every participant of every constraint of the layout is a mass
    of the layout, [initialiseState] hands all the constraints back: the
    layout holds the same constraints as before, in some order. *)
Theorem initialiseState_keeps_constraints (w w' : World) :
  owned w →
  initialiseState w = Ok w' →
  _constraints (layout w') ≡ₚ _constraints (layout w).
Proof. intros Hown H. apply initialiseState_spec in H as (_ & _ & _ & P). by apply P. Qed.

(** X26.  Without masses there is nothing to place: [initialiseState]
    returns the layout as it is when it holds no constraint either, and
    raises [ValueError] when it holds one. *)
Theorem initialiseState_without_masses (w : World) :
  _masses (layout w) = [] →
  (∀ c, c ∈ _constraints (layout w) → is_Some (constraint_store w !! c)) →
  initialiseState w
  = match _constraints (layout w) with [] => Ok w | _ :: _ => Raise ValueError end.
Proof.
  intros Em Hv. unfold initialiseState. rewrite Em. cbn [length order_loop]. rewrite Em.
  destruct (_constraints (layout w)) as [|c0 cl] eqn:Ec; [reflexivity|].
  unfold order_turn. rewrite Em, Ec.
  destruct (mapM_total (get_constraint w) (c0 :: cl)) as [ks ->]; [|reflexivity].
  intros c Hc. destruct (Hv c Hc) as [k Hk]. exists k. unfold get_constraint. by rewrite Hk.
Qed.

Lemma place_mass_others w cs m w' cs' :
  place_mass (w, cs) m = Ok (w', cs') →
  ∀ r, r ≠ m → mass_store w' !! r = mass_store w !! r.
Proof.
  unfold place_mass. intros H.
  apply bind_Ok in H as (both & Hboth & H). apply bind_Ok in H as (ps & _ & H).
  apply bind_Ok in H as (named & _ & H). apply bind_Ok in H as (merged & _ & H).
  apply bind_Ok in H as (st & _ & H). apply bind_Ok in H as (m0 & Hm0 & H).
  injection H as <- <-. intros r Hr. cbn. by rewrite list_lookup_insert_ne.
Qed.

Lemma place_loop_others ms : ∀ w cs w' cs',
  foldM place_mass (w, cs) ms = Ok (w', cs') →
  ∀ r, r ∉ ms → mass_store w' !! r = mass_store w !! r.
Proof.
  induction ms as [|m ms IH]; intros w cs w' cs' H r Hr.
  - by injection H as <- <-.
  - cbn [foldM] in H. apply bind_Ok in H as ([w1 cs1] & H1 & H).
    rewrite (IH _ _ _ _ H r) by (intros ?; apply Hr; by right).
    eapply place_mass_others; [exact H1|]. intros ->. apply Hr. by left.
Qed.

Lemma place_mass_origin w cs m w' cs' :
  place_mass (w, cs) m = Ok (w', cs') →
  filter (λ c, from_option (λ k, all_in k (_masses (layout w) ++ [m])) false
                 (constraint_store w !! c)) cs = [] →
  ∃ m0, mass_store w !! m = Some m0 ∧ mass_store w' !! m = Some (set_pos m0 vzero).
Proof.
  unfold place_mass. intros H Hnil.
  apply bind_Ok in H as (both & Hboth & H).
  pose proof (filter_pairs w (λ k, all_in k (_masses (layout w) ++ [m])) cs both Hboth) as Hf.
  rewrite Hnil in Hf. apply fmap_nil_inv in Hf. rewrite Hf in H.
  cbn in H. apply bind_Ok in H as (m0 & Hm0 & H). injection H as <- _.
  unfold the_mass, get_mass in Hm0.
  destruct (mass_store w !! m) as [mm|] eqn:Em; [|discriminate]. injection Hm0 as ->.
  exists m0. split; [done|]. cbn. apply list_lookup_insert_eq. by eapply lookup_lt_Some.
Qed.

(** X27.  [initialiseState] puts the first mass of the layout at the origin,
    whatever its position was and whether it is fixed or not, unless a
    constraint has that mass for its only participant. *)
Theorem initialiseState_first_mass_at_origin (w w' : World) (m0 : mref) (ml : list mref)
    (m : Mass) :
  initialiseState w = Ok w' →
  _masses (layout w) = m0 :: ml → m0 ∉ ml →
  mass_store w !! m0 = Some m →
  (∀ c k, c ∈ _constraints (layout w) → constraint_store w !! c = Some k →
          ∃ r, r ∈ masses k ∧ r ≠ m0) →
  mass_store w' !! m0 = Some (set_pos m vzero).
Proof.
  unfold initialiseState. intros H Em Hnotin Hm Hother.
  apply bind_Ok in H as ([[w1 cs] ms] & Ho & H). apply bind_Ok in H as ([w2 cs2] & Hp & H).
  injection H as <-. cbn [fst].
  apply order_loop_spec in Ho as (-> & M1 & C1 & P1 & S1 & K1). cbn [app] in *.
  rewrite Em in Hp. cbn [foldM] in Hp. apply bind_Ok in Hp as ([w3 cs3] & H3 & Hp).
  rewrite (place_loop_others _ _ _ _ _ Hp m0 Hnotin).
  apply place_mass_origin in H3 as (m' & Hm' & ->).
  - rewrite S1 in Hm'. assert (Some m = Some m') as [= <-] by (rewrite <- Hm; exact Hm'). done.
  - apply filter_none. intros c Hc. rewrite P1 in Hc. rewrite M1, K1. cbn [app].
    destruct (constraint_store w !! c) as [k|] eqn:Ek; [|by intros []].
    cbn [from_option]. destruct (Hother c k Hc Ek) as (r & Hr & Hne).
    unfold all_in. intros Hall. apply Is_true_true in Hall.
    rewrite forallb_forall in Hall. specialize (Hall r ltac:(by apply list_elem_of_In)).
    apply bool_decide_eq_true in Hall. apply list_elem_of_singleton in Hall. contradiction.
Qed.

Local Open Scope R_scope.

(** ** Random placement *)

Lemma randomise_loop rnd s (Hrnd : ∀ k, 0 <= rnd k < 1) (Hs : 0 <= s) l : ∀ h,
  (∀ r, r ∈ l.*2 → is_Some (h !! r)) →
  ∃ h', foldM (randomise_one rnd (Fin s)) h l = Ok h'
        ∧ length h' = length h
        ∧ (∀ r, r ∉ l.*2 → h' !! r = h !! r)
        ∧ (∀ r m m', h !! r = Some m → h' !! r = Some m' →
             name m' = name m ∧ fixed m' = fixed m ∧ _mass m' = _mass m)
        ∧ (∀ r m', r ∈ l.*2 → h' !! r = Some m' → at_rest_in_window s m').
Proof.
  induction l as [|[i x] l IH]; intros h Hv.
  - exists h. split; [done|]. split; [done|]. split; [done|]. split.
    + intros r m m' Hm Hm'. assert (Some m = Some m') as [= <-] by (rewrite <- Hm; exact Hm').
      done.
    + intros r m' Hr. by apply elem_of_nil in Hr.
  - destruct (Hv x) as [mx Emx]; [by left|].
    set (mx' := set_acc (set_vel (set_pos mx
                  (((Fin (rnd (2 * i)%nat) - Fin 0.5) * Fin s)%num,
                   ((Fin (rnd (2 * i + 1)%nat) - Fin 0.5) * Fin s)%num)) vzero) vzero).
    set (h1 := <[x := mx']> h).
    assert (Estep : randomise_one rnd (Fin s) h (i, x) = Ok h1).
    { unfold randomise_one, get_mass. cbn beta iota. by rewrite Emx. }
    cbn [foldM]. rewrite Estep. cbn [mbind res_bind].
    assert (Hlt : (x < length h)%nat) by (by eapply lookup_lt_Some).
    destruct (IH h1) as (h' & -> & L & Fr & Id & In).
    { intros r Hr. apply lookup_lt_is_Some. unfold h1. rewrite length_insert.
      apply lookup_lt_is_Some. apply Hv. by right. }
    exists h'. split; [done|]. split; [by rewrite L; apply length_insert|].
    assert (Hwin : at_rest_in_window s mx').
    { unfold mx'. cbn [nsub nadd nopp nmul]. eexists _, _. split; [reflexivity|].
      pose proof (Hrnd (2 * i)%nat). pose proof (Hrnd (2 * i + 1)%nat).
      repeat split; nra. }
    split; [|split].
    + intros r Hr. rewrite Fr by (intros ?; apply Hr; by right).
      apply list_lookup_insert_ne. intros ->. apply Hr. by left.
    + intros r m m' Hm Hm'. destruct (decide (r = x)) as [->|Hne].
      * assert (Some mx = Some m) as [= <-] by (rewrite <- Emx; exact Hm).
        apply (Id x mx' m'); [|exact Hm']. by apply list_lookup_insert_eq.
      * apply (Id r m m'); [|exact Hm']. unfold h1. by rewrite list_lookup_insert_ne.
    + intros r m' Hr Hm'. destruct (decide (r ∈ l.*2)) as [Hin|Hnin].
      * by eapply In.
      * cbn in Hr. apply elem_of_cons in Hr as [->|Hr]; [|contradiction].
        rewrite Fr in Hm' by exact Hnin. unfold h1 in Hm'.
        rewrite list_lookup_insert_eq in Hm' by exact Hlt. by injection Hm' as <-.
Qed.

(** X28.  [randomiseState] with a window of side [s >= 0] returns; every
    mass of the layout, fixed or not, is then at rest at a finite position of
    the square of side [s] around the origin, every mass object has kept its
    name, its class and its mass, the masses outside the layout are as they
    were, and the state is marked as changed. *)
Theorem randomiseState_in_window (rnd : nat → R) (w : World) (s : R) :
  valid_refs w → (∀ k, 0 <= rnd k < 1) → 0 <= s →
  ∃ w', randomiseState rnd w (Fin s) = Ok w'
        ∧ _masses (layout w') = _masses (layout w)
        ∧ _constraints (layout w') = _constraints (layout w)
        ∧ constraint_store w' = constraint_store w
        ∧ _system_changed (layout w') = true
        ∧ (∀ r m', r ∈ _masses (layout w) → mass_store w' !! r = Some m' →
             at_rest_in_window s m')
        ∧ (∀ r m m', mass_store w !! r = Some m → mass_store w' !! r = Some m' →
             name m' = name m ∧ fixed m' = fixed m ∧ _mass m' = _mass m)
        ∧ (∀ r, r ∉ _masses (layout w) → mass_store w' !! r = mass_store w !! r).
Proof.
  intros (Hm & Hc & Hk) Hrnd Hs.
  destruct (randomise_loop rnd s Hrnd Hs (imap pair (_masses (layout w))) (mass_store w))
    as (h' & Hh' & L & Fr & Id & In).
  { intros r Hr. rewrite imap_pair_masses in Hr. by apply Hm. }
  rewrite imap_pair_masses in Fr, In.
  destruct (markStateChanged_total (set_mass_store w h') true true)
    as (w' & Hw' & Ec & Em & Es & Ek & Ef).
  { split; [|split]; cbn.
    - intros r Hr. apply lookup_lt_is_Some. rewrite L. apply lookup_lt_is_Some. by apply Hm.
    - exact Hc.
    - intros c k r Hck Hr. apply lookup_lt_is_Some. rewrite L. apply lookup_lt_is_Some.
      by eapply Hk. }
  cbn in Ec, Em, Es, Ek.
  exists w'. unfold randomiseState. rewrite Hh'. cbn [mbind res_bind].
  split; [exact Hw'|]. rewrite Em, Ec, Ek, Es.
  do 4 (split; [done|]). split; [exact In|]. split; [exact Id | exact Fr].
Qed.

(** ** Placement suggestions *)

Lemma bisect_S ma mc r l0 n a b mid :
  bisect ma mc r l0 (S n) a b mid
  = let mid := ((a + b) / Fin 2)%num in
    let dummy := set_pos (new_Mass "dummy" None None None)
                   (vadd (pos ma) (vscale r (ncos mid, nsin mid))) in
    if (Fin 0 <? _angle ma dummy (Some mc) - l0)%num
    then bisect ma mc r l0 n a mid mid else bisect ma mc r l0 n mid b mid.
Proof. reflexivity. Qed.

(** X29.  The bisection of [ConstraintAngleLocal.placementSuggestion]: each
    round halves the interval between the two bounds, and the bearing that
    is returned after [n + 1] rounds is the middle of an interval inside the
    first one, [2 ^ n] times narrower. *)
Theorem bisect_halves (ma mc : Mass) (r l0 : num) (n : nat) :
  ∀ (a b : R) (mid0 : num),
    a <= b →
    ∃ lo hi : R,
      a <= lo ∧ lo <= hi ∧ hi <= b ∧ hi - lo = (b - a) / 2 ^ n
      ∧ bisect ma mc r l0 (S n) (Fin a) (Fin b) mid0 = Fin ((lo + hi) / 2).
Proof.
  induction n as [|n IH]; intros a b mid0 Hab.
  - exists a, b. repeat split; try lra.
    cbn [bisect nadd ndiv]. rewrite Reqb_false by lra. by destruct (nlt _ _).
  - rewrite bisect_S. cbn zeta. cbn [nadd ndiv]. rewrite Reqb_false by lra.
    assert (Hp : 0 < 2 ^ n) by (apply pow_lt; lra).
    destruct (nlt (Fin 0) _).
    + destruct (IH a ((a + b) / 2) (Fin ((a + b) / 2))) as (lo & hi & H1 & H2 & H3 & H4 & H5);
        [lra|].
      exists lo, hi. repeat split; try lra; [|exact H5].
      rewrite H4. cbn [pow]. field. lra.
    + destruct (IH ((a + b) / 2) b (Fin ((a + b) / 2))) as (lo & hi & H1 & H2 & H3 & H4 & H5);
        [lra|].
      exists lo, hi. repeat split; try lra; [|exact H5].
      rewrite H4. cbn [pow]. field. lra.
Qed.

Lemma bisect_halves_witness :
  ∃ lo hi : R,
    - PI <= lo ∧ lo <= hi ∧ hi <= PI ∧ hi - lo = (PI - - PI) / 2 ^ 19
    ∧ bisect (new_Mass "a" None None None) (new_Mass "c" None None None) (Fin 1) (Fin 0)
        SEARCH_DEPTH (Fin (- PI)) (Fin PI) NaN = Fin ((lo + hi) / 2).
Proof.
  apply (bisect_halves (new_Mass "a" None None None) (new_Mass "c" None None None)
           (Fin 1) (Fin 0) 19 (- PI) PI NaN).
  pose proof PI_RGT_0. lra.
Defined.

(** X30.  [placementSuggestion] gives the empty dict to a mass that takes
    no part in the constraint; to a participant it gives a dict that is not
    empty and whose reference mass is a participant of the constraint, with
    a distance for a distance constraint and a bearing for an angle
    constraint. *)
Theorem placementSuggestion_refers_to_participant (h : mstore) (c : Constraint) (m : mref) :
  (∀ r, r ∈ masses c → is_Some (h !! r)) →
  ∃ p, placementSuggestion h c m = Ok p
       ∧ (m ∉ masses c → p = empty_suggestion)
       ∧ (m ∈ masses c →
          nonempty_suggestion p = true
          ∧ (∃ r, s_mass p = Some r ∧ r ∈ masses c)
          ∧ match c with
            | ConstraintDistance _ _ l k _ => s_r p = Some (l, k) ∧ s_th p = None
            | ConstraintAngleGlobal _ _ _ k _ => s_r p = None ∧ ∃ th, s_th p = Some (th, k)
            | ConstraintAngleLocal _ _ _ _ _ _ => is_Some (s_th p)
            end).
Proof.
  intros Hv.
  destruct c as [a b l k t | a b l k t | a b c l k t]; cbn [placementSuggestion masses] in *.
  - destruct (decide (m = a)) as [->|Ha]; [|destruct (decide (m = b)) as [->|Hb]].
    + eexists. split; [reflexivity|]. split; [intros Hn; exfalso; apply Hn; in_list|].
      intros _; cbn -[bisect]; repeat split; try done; try (by eexists); exists b; split; [done | in_list].
    + eexists. split; [reflexivity|]. split; [intros Hn; exfalso; apply Hn; in_list|].
      intros _; cbn -[bisect]; repeat split; try done; try (by eexists); exists a; split; [done | in_list].
    + eexists. split; [reflexivity|]. split; [done|].
      intros Hin. exfalso.
      repeat (apply elem_of_cons in Hin as [Hin|Hin]; [contradiction|]).
      by apply elem_of_nil in Hin.
  - destruct (decide (m = a)) as [->|Ha]; [|destruct (decide (m = b)) as [->|Hb]].
    + eexists. split; [reflexivity|]. split; [intros Hn; exfalso; apply Hn; in_list|].
      intros _; cbn -[bisect]; repeat split; try done; try (by eexists); exists b; split; [done | in_list].
    + eexists. split; [reflexivity|]. split; [intros Hn; exfalso; apply Hn; in_list|].
      intros _; cbn -[bisect]; repeat split; try done; try (by eexists); exists a; split; [done | in_list].
    + eexists. split; [reflexivity|]. split; [done|].
      intros Hin. exfalso.
      repeat (apply elem_of_cons in Hin as [Hin|Hin]; [contradiction|]).
      by apply elem_of_nil in Hin.
  - destruct (Hv a) as [ma Ea]; [in_list|]. destruct (Hv b) as [mb Eb]; [in_list|].
    destruct (Hv c) as [mc Ec]; [in_list|]. unfold get_mass. rewrite ?Ea, ?Eb, ?Ec.
    destruct (decide (m = a)) as [->|Ha];
      [|destruct (decide (m = b)) as [->|Hb]; [|destruct (decide (m = c)) as [->|Hc]]].
    + eexists. split; [reflexivity|].
      split; [intros Hn; exfalso; apply Hn; in_list|].
      intros _; cbn -[bisect]; repeat split; try done; try (by eexists); exists b; split; [done | in_list].
    + eexists. split; [reflexivity|].
      split; [intros Hn; exfalso; apply Hn; in_list|].
      intros _; cbn -[bisect]; repeat split; try done; try (by eexists); exists a; split; [done | in_list].
    + eexists. split; [reflexivity|].
      split; [intros Hn; exfalso; apply Hn; in_list|].
      intros _; cbn -[bisect]; repeat split; try done; try (by eexists); exists b; split; [done | in_list].
    + eexists. split; [reflexivity|]. split; [done|].
      intros Hin. exfalso.
      repeat (apply elem_of_cons in Hin as [Hin|Hin]; [contradiction|]).
      by apply elem_of_nil in Hin.
Qed.

(** ** The properties above at work *)

Lemma angle_points_to_mass_witness :
  ∃ th : R,
    _angle (set_pos (new_Mass "a" None None None) (fin2 (1, 0)))
           (set_pos (new_Mass "b" None None None) (fin2 (0, 0))) None = Fin th
    ∧ - PI <= th < PI
    ∧ (1, 0).1 = (0, 0).1 + Rdist (0, 0) (1, 0) * cos th
    ∧ (1, 0).2 = (0, 0).2 + Rdist (0, 0) (1, 0) * sin th.
Proof.
  apply (angle_points_to_mass (new_Mass "a" None None None) (new_Mass "b" None None None)
           (1, 0) (0, 0)).
  intros [= H]. lra.
Defined.

Lemma pullState_then_pushState_witness :
  length [Fin 1; Fin 2; Fin 3; Fin 4]
  = (4 * length (_masses (layout (glide_state (Fin 1, Fin 2) (Fin 3, Fin 4) vzero))))%nat
  ∧ _pushState (glide_state (Fin 1, Fin 2) (Fin 3, Fin 4) vzero) [Fin 1; Fin 2; Fin 3; Fin 4]
    = Ok (glide_state (Fin 1, Fin 2) (Fin 3, Fin 4) vzero).
Proof.
  apply (pullState_then_pushState (glide_state (Fin 1, Fin 2) (Fin 3, Fin 4) vzero)).
  reflexivity.
Defined.

Local Close Scope R_scope.

Lemma home_refresh (x y : R) (a : vec2) :
  _refreshForces (home_state (Fin x, Fin y) a) = Ok (home_state (Fin x, Fin y) vzero).
Proof. run. reflexivity. Qed.

Lemma refreshForces_spares_fixed_witness :
  layout (home_state (Fin 1, Fin 0) vzero) = layout (home_state (Fin 1, Fin 0) (Fin 3, Fin 4))
  ∧ (∀ r m, mass_store (home_state (Fin 1, Fin 0) (Fin 3, Fin 4)) !! r = Some m →
       ∃ a, mass_store (home_state (Fin 1, Fin 0) vzero) !! r = Some (set_acc m a))
  ∧ (∀ r m, r ∈ _masses (layout (home_state (Fin 1, Fin 0) (Fin 3, Fin 4))) →
       mass_store (home_state (Fin 1, Fin 0) (Fin 3, Fin 4)) !! r = Some m →
       fixed m = true →
       mass_store (home_state (Fin 1, Fin 0) vzero) !! r = Some (set_acc m vzero)).
Proof.
  apply (refreshForces_spares_fixed (home_state (Fin 1, Fin 0) (Fin 3, Fin 4))
           (home_state (Fin 1, Fin 0) vzero)).
  apply home_refresh.
Defined.

Lemma getMass_finds_first_of_name_witness :
  ∃ o, getMass tags_world_built "b" = Ok o
       ∧ match o with
         | Some r =>
             ∃ i m, _masses (layout tags_world_built) !! i = Some r
                    ∧ mass_store tags_world_built !! r = Some m
                    ∧ name m = "b"
                    ∧ ∀ j r' m', j < i → _masses (layout tags_world_built) !! j = Some r' →
                                 mass_store tags_world_built !! r' = Some m' → name m' ≠ "b"
         | None => ∀ r m, r ∈ _masses (layout tags_world_built) →
                          mass_store tags_world_built !! r = Some m → name m ≠ "b"
         end.
Proof.
  apply (getMass_finds_first_of_name tags_world_built "b").
  apply tags_world_valid.
Defined.

Lemma order_world0_valid : valid_refs order_world0.
Proof.
  split; [|split].
  - intros r Hr. cbn in Hr. by apply elem_of_nil in Hr.
  - intros c Hc. cbn in Hc. by apply elem_of_nil in Hc.
  - intros c k r Hk Hr. cbn in Hk.
    destruct c as [|c]; [injection Hk as <-; cbn in Hr; each_member Hr; by eexists|].
    discriminate.
Qed.

Lemma addMass_then_getMass_witness :
  (∀ r', r' ∈ _masses (layout order_world0) → addMass order_world0 r' = Ok order_world0)
  ∧ ∃ w', addMass order_world0 1 = Ok w'
          ∧ _masses (layout w') = _masses (layout order_world0) ++ [1]
          ∧ _system_changed (layout w') = true
          ∧ mass_store w' = mass_store order_world0
          ∧ getMass w' (name (new_Mass "b" None None None)) = Ok (Some 1)
          ∧ NoDup (_masses (layout w'))
          ∧ unique_names w'.
Proof.
  apply (addMass_then_getMass order_world0 1 (new_Mass "b" None None None)).
  - apply order_world0_valid.
  - apply NoDup_nil_2.
  - apply NoDup_nil_2.
  - reflexivity.
  - intros r' m' Hr'. cbn in Hr'. by apply elem_of_nil in Hr'.
Defined.

Lemma addConstraint_keeps_ownership_witness :
  ∃ w' c1,
    addConstraint order_world0 0 = Ok w'
    ∧ constraint_store w' = <[0 := c1]> (constraint_store order_world0)
    ∧ masses c1 = rebound order_world0 <$> masses (ConstraintDistance 0 2 (Fin 1) (Fin 1) (-1))
    ∧ _tag_id c1 = _tag_id (ConstraintDistance 0 2 (Fin 1) (Fin 1) (-1))
    ∧ _natural_length c1 = _natural_length (ConstraintDistance 0 2 (Fin 1) (Fin 1) (-1))
    ∧ _stiffness c1 = _stiffness (ConstraintDistance 0 2 (Fin 1) (Fin 1) (-1))
    ∧ _constraints (layout w') = _constraints (layout order_world0) ++ [0]
    ∧ mass_store w' = mass_store order_world0
    ∧ (∀ r, r ∈ _masses (layout w') ↔ r ∈ _masses (layout order_world0) ∨ r ∈ masses c1)
    ∧ _system_changed (layout w') = true
    ∧ valid_refs w'
    ∧ (owned order_world0 → owned w').
Proof.
  apply (addConstraint_keeps_ownership order_world0 0
           (ConstraintDistance 0 2 (Fin 1) (Fin 1) (-1))).
  - apply order_world0_valid.
  - reflexivity.
Defined.

Lemma twin_world_mark :
  markStateChanged twin_world0 true true
  = Ok (set_layout twin_world0
          (mkSpatialLayout [] [] true false
             (Some (mkEnergyLog [Fin 0] [Fin 0] [Fin 0])) None [] (mkRungeKutta45 [] (Fin 0)))).
Proof. run. reflexivity. Qed.

Lemma markStateChanged_logs_once_witness :
  ∃ w', markStateChanged twin_world0 true true = Ok w'
  ∧ _system_changed (layout w') = true
  ∧ hook_calls w' = hook_calls twin_world0
                    ++ option_list (_post_state_change_fcn (layout twin_world0))
  ∧ match _energy_log (layout twin_world0), _energy_log (layout w') with
    | None, None => True
    | Some e, Some e' =>
        ∃ k p, e' = mkEnergyLog
                      ((if true then [] else log_t e) ++ [ode_t (_ode (layout twin_world0))])
                      ((if true then [] else kinetic e) ++ [k])
                      ((if true then [] else potential e) ++ [p])
    | _, _ => False
    end
  ∧ _masses (layout w') = _masses (layout twin_world0)
  ∧ _constraints (layout w') = _constraints (layout twin_world0)
  ∧ _bounced_last_step (layout w') = _bounced_last_step (layout twin_world0)
  ∧ _post_state_change_fcn (layout w') = _post_state_change_fcn (layout twin_world0)
  ∧ _log_a (layout w') = _log_a (layout twin_world0)
  ∧ _ode (layout w') = _ode (layout twin_world0)
  ∧ mass_store w' = mass_store twin_world0
  ∧ constraint_store w' = constraint_store twin_world0.
Proof.
  eexists. split; [exact twin_world_mark|].
  apply (markStateChanged_logs_once twin_world0 _ true true twin_world_mark).
Defined.

Lemma step_keeps_the_layout_witness :
  ode_t (_ode (layout (apart_state false [Fin 0.1%R] apart_y (Fin 0.1%R))))
  = (ode_t (_ode (layout (apart_state true [] [] (Fin 0)))) + INTEGRATION_DT)%num
  ∧ _log_a (layout (apart_state false [Fin 0.1%R] apart_y (Fin 0.1%R)))
    = _log_a (layout (apart_state true [] [] (Fin 0)))
      ++ [(ode_t (_ode (layout (apart_state true [] [] (Fin 0)))) + INTEGRATION_DT)%num]
  ∧ _system_changed (layout (apart_state false [Fin 0.1%R] apart_y (Fin 0.1%R)))
    = _bounced_last_step (layout (apart_state false [Fin 0.1%R] apart_y (Fin 0.1%R)))
  ∧ _masses (layout (apart_state false [Fin 0.1%R] apart_y (Fin 0.1%R)))
    = _masses (layout (apart_state true [] [] (Fin 0)))
  ∧ _constraints (layout (apart_state false [Fin 0.1%R] apart_y (Fin 0.1%R)))
    = _constraints (layout (apart_state true [] [] (Fin 0)))
  ∧ constraint_store (apart_state false [Fin 0.1%R] apart_y (Fin 0.1%R))
    = constraint_store (apart_state true [] [] (Fin 0))
  ∧ same_objects (mass_store (apart_state true [] [] (Fin 0)))
      (mass_store (apart_state false [Fin 0.1%R] apart_y (Fin 0.1%R))).
Proof. apply (step_keeps_the_layout 1 _ _ apart_step). Defined.

Lemma step_without_masses_raises_witness :
  step 1 twin_world0 = Raise ValueError.
Proof.
  apply (step_without_masses_raises 1 twin_world0); [|reflexivity].
  split; [|split].
  - intros r Hr. cbn in Hr. by apply elem_of_nil in Hr.
  - intros c Hc. cbn in Hc. by apply elem_of_nil in Hc.
  - intros c k r Hk. cbn in Hk. by rewrite lookup_nil in Hk.
Defined.

Lemma initialiseState_keeps_masses_witness :
  _masses (layout (order_world_at (Fin 1, Fin 0))) = _masses (layout (order_world_at vzero))
  ∧ constraint_store (order_world_at (Fin 1, Fin 0)) = constraint_store (order_world_at vzero)
  ∧ ∀ r m, mass_store (order_world_at vzero) !! r = Some m →
           ∃ p, mass_store (order_world_at (Fin 1, Fin 0)) !! r = Some (set_pos m p).
Proof. apply (initialiseState_keeps_masses _ _ order_world_initialise). Defined.

Lemma order_world_owned : owned (order_world_at vzero).
Proof.
  intros c k r Hc Hk Hr. cbn in Hc. apply list_elem_of_singleton in Hc as ->.
  injection Hk as <-. cbn in Hr |- *. each_member Hr; in_list.
Qed.

Lemma initialiseState_keeps_constraints_witness :
  _constraints (layout (order_world_at (Fin 1, Fin 0)))
  ≡ₚ _constraints (layout (order_world_at vzero)).
Proof.
  apply (initialiseState_keeps_constraints _ _ order_world_owned order_world_initialise).
Defined.

Lemma initialiseState_without_masses_witness :
  initialiseState massless_world
  = match _constraints (layout massless_world) with
    | [] => Ok massless_world
    | _ :: _ => Raise ValueError
    end.
Proof.
  apply (initialiseState_without_masses massless_world); [reflexivity|].
  intros c Hc. cbn in Hc. apply list_elem_of_singleton in Hc as ->. by eexists.
Defined.

Lemma initialiseState_first_mass_at_origin_witness :
  mass_store (order_world_at (Fin 1, Fin 0)) !! 0
  = Some (set_pos (new_Mass "a" None None None) vzero).
Proof.
  apply (initialiseState_first_mass_at_origin (order_world_at vzero) _ 0 [1; 2]
           (new_Mass "a" None None None) order_world_initialise); [done| |done|].
  - intros H. repeat (apply elem_of_cons in H as [H | H]; [discriminate|]).
    by apply elem_of_nil in H.
  - intros c k Hc Hk. cbn in Hc. apply list_elem_of_singleton in Hc as ->.
    injection Hk as <-. exists 2. split; [cbn; in_list | discriminate].
Defined.

Local Open Scope R_scope.

Lemma randomiseState_in_window_witness :
  ∃ w', randomiseState (λ _, 0) tags_world_built (Fin 5) = Ok w'
        ∧ _masses (layout w') = _masses (layout tags_world_built)
        ∧ _constraints (layout w') = _constraints (layout tags_world_built)
        ∧ constraint_store w' = constraint_store tags_world_built
        ∧ _system_changed (layout w') = true
        ∧ (∀ r m', r ∈ _masses (layout tags_world_built) → mass_store w' !! r = Some m' →
             at_rest_in_window 5 m')
        ∧ (∀ r m m', mass_store tags_world_built !! r = Some m →
             mass_store w' !! r = Some m' →
             name m' = name m ∧ fixed m' = fixed m ∧ _mass m' = _mass m)
        ∧ (∀ r, r ∉ _masses (layout tags_world_built) →
             mass_store w' !! r = mass_store tags_world_built !! r).
Proof.
  apply (randomiseState_in_window (λ _, 0) tags_world_built 5).
  - apply tags_world_valid.
  - intros _. lra.
  - lra.
Defined.

Local Close Scope R_scope.

Lemma placementSuggestion_refers_to_participant_witness :
  ∃ p, placementSuggestion (mass_store order_world0)
         (ConstraintDistance 0 2 (Fin 1) (Fin 1) (-1)) 2 = Ok p
       ∧ (2 ∉ masses (ConstraintDistance 0 2 (Fin 1) (Fin 1) (-1)) → p = empty_suggestion)
       ∧ (2 ∈ masses (ConstraintDistance 0 2 (Fin 1) (Fin 1) (-1)) →
          nonempty_suggestion p = true
          ∧ (∃ r, s_mass p = Some r ∧ r ∈ masses (ConstraintDistance 0 2 (Fin 1) (Fin 1) (-1)))
          ∧ s_r p = Some (Fin 1, Fin 1) ∧ s_th p = None).
Proof.
  apply (placementSuggestion_refers_to_participant (mass_store order_world0)
           (ConstraintDistance 0 2 (Fin 1) (Fin 1) (-1)) 2).
  intros r Hr. cbn in Hr. each_member Hr; by eexists.
Defined.
